(** * Amdahl's Law analyzer

    A shallow embedding of [amdahl.py], [utils.py] and [cli.py].

    Python's [float] is IEEE 754 binary64: it is modelled by Rocq's primitive
    [float], whose operations are the processor's, so every definition below
    evaluates to the value the Python code computes.  Python's [int] is
    unbounded: it is modelled by [Z], and its conversion to [float] rounds to
    nearest-even and raises [OverflowError] past the largest double.  NumPy's
    [int32] array keeps its wrap-around, and NumPy's refusal to size an array
    ([ValueError]) is modelled; whether the machine has the memory for an
    array is not. *)

From Stdlib Require Import ZArith List Bool String Lia Reals Lra Psatz Floats.
Import ListNotations.

Local Open Scope Z_scope.

(** ** Python values, exceptions and the error monad *)

Module Py.

(** The three [ValueError] messages of [amdahl.py], and the [ValueError]
    NumPy raises when it is asked for an array it cannot size. *)
Inductive value_error : Type :=
| FractionOutOfRange     (* "Sequential fraction f must be in [0, 1], got ..." *)
| ProcessorsTooSmall     (* "Number of processors p must be >= 1, got ..." *)
| MaxProcsTooSmall       (* "Maximum processors must be >= 1, got ..." *)
| NumpySize.             (* "Maximum allowed size exceeded", "array is too big" *)

Inductive exn : Type :=
| ValueError (msg : value_error)
| OverflowError          (* int too large to convert to float *)
| ZeroDivisionError.     (* float division by zero *)

Inductive result (A : Type) : Type :=
| Ok (a : A)
| Raise (e : exn).
Arguments Ok {A} a.
Arguments Raise {A} e.

Definition bind {A B : Type} (r : result A) (k : A -> result B) : result B :=
  match r with
  | Ok a => k a
  | Raise e => Raise e
  end.

Definition returns {A : Type} (r : result A) : bool :=
  match r with Ok _ => true | Raise _ => false end.

(** [float(p)] for a Python int: correctly rounded, [OverflowError] when the
    rounded value would not be finite. *)
Definition float_of_int (p : Z) : result float :=
  match binary_normalize prec emax p 0 false with
  | S754_infinity _ => Raise OverflowError
  | x => Ok (SF2Prim x)
  end.

(** [a / b] on two floats: Python raises on a zero divisor before dividing. *)
Definition truediv (a b : float) : result float :=
  if (b =? 0)%float then Raise ZeroDivisionError else Ok (a / b)%float.

(** [a / p] for a float [a] and an int [p]: [p] is converted first. *)
Definition truediv_int (a : float) (p : Z) : result float :=
  bind (float_of_int p) (fun b => truediv a b).

End Py.

Notation "x <- c1 ;; c2" := (Py.bind c1 (fun x => c2))
  (at level 61, c1 at next level, right associativity).

(** ** The NumPy operations [simulate_scaling] uses *)

Module Np.
Import Py.

(** A value stored in an [int32] cell. *)
Definition int32 (z : Z) : Z := (z + 2 ^ 31) mod 2 ^ 32 - 2 ^ 31.

(** The cells of an [int32] range of [len] cells that starts at 1 with
    step 1: cell [i] holds [1 + i] as an [int32]. *)
Definition cells (len : Z) : list Z :=
  map (fun i => int32 (1 + Z.of_nat i)) (seq 0 (Z.to_nat len)).

(** The largest C [ssize_t], the type of NumPy's lengths and byte counts
    on a 64-bit machine. *)
Definition max_intp : Z := 2 ^ 63 - 1.

(** NumPy refuses ([ValueError]) an array of [len] items of [itemsize]
    bytes whose size in bytes does not fit a [ssize_t].  An array that
    passes this test is built: running out of memory is not modelled. *)
Definition fits (itemsize len : Z) : bool := itemsize * len <=? max_intp.

(** [np.arange(1, n + 1, dtype=np.int32)] for [n >= 1].  NumPy computes the
    length as the double [(stop - start) / step], here [n / 1]; when that
    division overflows or gives more than [2^63] it raises [ValueError]
    ("Maximum allowed size exceeded"); at exactly [2^63] the conversion to
    [ssize_t] wraps to a negative length and the array is empty.  Otherwise
    the array has [n] cells (the double is [n] itself up to [2^53], and no
    machine holds a longer array). *)
Definition arange1 (n : Z) : result (list Z) :=
  match float_of_int n with
  | Raise _ => Raise (ValueError NumpySize)
  | Ok x =>
      if (0x1p+63 <? x)%float then Raise (ValueError NumpySize)
      else if (x =? 0x1p+63)%float then Ok []
      else if fits 4 n then Ok (cells n)
      else Raise (ValueError NumpySize)
  end.

(** The [float64] value of one [int32] cell (always exact). *)
Definition float64 (z : Z) : float := SF2Prim (binary_normalize prec emax z 0 false).

(** [processors.astype(np.float64)]. *)
Definition astype_float64 (xs : list Z) : result (list float) :=
  if fits 8 (Z.of_nat (List.length xs)) then Ok (map float64 xs)
  else Raise (ValueError NumpySize).

(** [np.ones(n, dtype=np.float64)]. *)
Definition ones (n : Z) : result (list float) :=
  if fits 8 n then Ok (repeat 1%float (Z.to_nat n))
  else Raise (ValueError NumpySize).

(** Elementwise binary operation on two arrays of the same shape. *)
Definition map2 {A B C : Type} (g : A -> B -> C) (xs : list A) (ys : list B) : list C :=
  map (fun xy => g (fst xy) (snd xy)) (combine xs ys).

End Np.

(** ** amdahl.py *)

Module Amdahl.
Import Py.

(** [0 <= f <= 1] *)
Definition in_unit (f : float) : bool := ((0 <=? f) && (f <=? 1))%float.

Definition calculate_speedup (f : float) (p : Z) : result float :=
  if negb (in_unit f) then Raise (ValueError FractionOutOfRange)
  else if p <? 1 then Raise (ValueError ProcessorsTooSmall)
  else if (f =? 1)%float then Ok 1%float
  else
    q <- truediv_int (1 - f)%float p ;;
    let denominator := (f + q)%float in
    truediv 1%float denominator.

Definition calculate_efficiency (f : float) (p : Z) : result float :=
  speedup <- calculate_speedup f p ;;
  truediv_int speedup p.

Definition calculate_execution_time_ratio (f : float) (p : Z) : result float :=
  speedup <- calculate_speedup f p ;;
  truediv 1%float speedup.

(** The dictionary [simulate_scaling] returns, one field per key. *)
Record scaling : Type := {
  processors : list Z;
  speedups : list float;
  efficiencies : list float;
  time_ratios : list float
}.

Definition simulate_scaling (f : float) (max_procs : Z) : result scaling :=
  if negb (in_unit f) then Raise (ValueError FractionOutOfRange)
  else if max_procs <? 1 then Raise (ValueError MaxProcsTooSmall)
  else
    processors <- Np.arange1 max_procs ;;
    speedups <-
      (if (f =? 1)%float then Np.ones max_procs
       else
         xs <- Np.astype_float64 processors ;;
         let denominator := map (fun x => (f + (1 - f) / x)%float) xs in
         Ok (map (fun d => (1 / d)%float) denominator)) ;;
    let efficiencies :=
      Np.map2 (fun s p => (s / Np.float64 p)%float) speedups processors in
    let time_ratios := map (fun s => (1 / s)%float) speedups in
    Ok {| processors := processors;
          speedups := speedups;
          efficiencies := efficiencies;
          time_ratios := time_ratios |}.

(** The tolerance of the test suite, [1e-10] as Python reads it, and its
    comparison [abs(a - b) < 1e-10]. *)
Definition tol : float := 0x1.b7cdfd9d7bdbbp-34%float.

Definition close (a b : float) : bool := (abs (a - b) <? tol)%float.

End Amdahl.

(** ** utils.py: the validators and the configuration loader *)

Module Utils.

(** The values a command line or a YAML document hands to the program. *)
Inductive pyval : Type :=
| PyNone
| PyBool (b : bool)
| PyInt (z : Z)
| PyFloat (x : float)
| PyStr (s : string).

(** The exceptions the command-line program deals with.  [OtherException]
    stands for every other subclass of [Exception] ([yaml.YAMLError],
    [OSError], [AttributeError], ...); [KeyboardInterrupt] and [SystemExit]
    are not subclasses of [Exception]. *)
Inductive exn : Type :=
| ValueError
| FileNotFoundError
| OtherException
| KeyboardInterrupt
| SystemExit (code : Z).

Definition is_Exception (e : exn) : bool :=
  match e with
  | ValueError | FileNotFoundError | OtherException => true
  | KeyboardInterrupt | SystemExit _ => false
  end.

Inductive result (A : Type) : Type :=
| Ok (a : A)
| Raise (e : exn).
Arguments Ok {A} a.
Arguments Raise {A} e.

Definition bind {A B : Type} (r : result A) (k : A -> result B) : result B :=
  match r with
  | Ok a => k a
  | Raise e => Raise e
  end.

(** [x.is_integer()] and [int(x)] for a float. *)
Definition float_to_int (x : float) : option Z :=
  match Prim2SF x with
  | S754_zero _ => Some 0
  | S754_finite s m e =>
      if 0 <=? e then Some (cond_Zopp s (Zpos m * 2 ^ e))
      else if (Zpos m mod 2 ^ (- e)) =? 0
           then Some (cond_Zopp s (Zpos m / 2 ^ (- e)))
           else None
  | _ => None
  end.

Definition validate_fraction (f : pyval) : result unit :=
  match f with
  | PyBool _ => Ok tt                       (* [0 <= False], [True <= 1] *)
  | PyInt z => if (0 <=? z) && (z <=? 1) then Ok tt else Raise ValueError
  | PyFloat x => if Amdahl.in_unit x then Ok tt else Raise ValueError
  | PyNone | PyStr _ => Raise ValueError    (* not a number *)
  end.

Definition validate_processors (p : pyval) : result unit :=
  match p with
  | PyBool b => if b then Ok tt else Raise ValueError
  | PyInt z => if z <? 1 then Raise ValueError else Ok tt
  | PyFloat x =>
      match float_to_int x with
      | Some z => if z <? 1 then Raise ValueError else Ok tt
      | None => Raise ValueError
      end
  | PyNone | PyStr _ => Raise ValueError    (* not an integer *)
  end.

(** What [yaml.safe_load] returns for a document. *)
Inductive yaml : Type :=
| YNull                                     (* an empty document *)
| YMap (d : list (string * pyval))          (* a mapping *)
| YOther.                                   (* a scalar or a sequence *)

(** The file system as [load_config] sees it: which paths exist, and what
    opening and parsing a file gives (or raises). *)
Record files : Type := {
  path_exists : string -> bool;
  safe_load : string -> result yaml
}.

Local Open Scope string_scope.

(** [Path.cwd() / 'config.yaml'] and the one next to the scripts. *)
Definition cwd_config : string := "./config.yaml".
Definition root_config : string := "<project_root>/config.yaml".

Definition load_config (fs : files) (config_path : option string) : result yaml :=
  let path :=
    match config_path with
    | None => if path_exists fs cwd_config then cwd_config else root_config
    | Some p => p
    end in
  if negb (path_exists fs path) then Raise FileNotFoundError
  else
    bind (safe_load fs path) (fun config =>
    Ok (match config with YNull => YMap [] | c => c end)).

End Utils.

(** ** cli.py *)

Module Cli.
Import Utils.

Local Open Scope string_scope.

(** The namespace [parse_arguments] returns. *)
Record namespace : Type := {
  arg_fraction : option float;
  arg_max_procs : option Z;
  arg_config : option string;
  arg_output_dir : string;
  arg_no_plots : bool
}.

(** What surrounds the program: the files, and the run of the analysis
    proper on validated values ([simulate_scaling], the table, the plots),
    which either completes or raises. *)
Record world : Type := {
  fs : files;
  analysis : pyval -> pyval -> pyval -> option exn
}.

Fixpoint assoc (key : string) (d : list (string * pyval)) : option pyval :=
  match d with
  | [] => None
  | (k, v) :: rest => if String.eqb k key then Some v else assoc key rest
  end.

(** [config.get(key)] and [config.get(key, default)]; only a mapping has
    [get]. *)
Definition dict_get (config : yaml) (key : string) (default : pyval) : result pyval :=
  match config with
  | YMap d => Ok (match assoc key d with Some v => v | None => default end)
  | _ => Raise OtherException
  end.

(** [parser.error(...)] prints the usage and exits with status 2. *)
Definition parser_error {A : Type} : result A := Raise (SystemExit 2).

(** Whether [--config] names a file ([if args.config:]). *)
Definition explicit_config (args : namespace) : bool :=
  match arg_config args with
  | Some p => negb (String.eqb p "")
  | None => false
  end.

(** The first part of [get_config_values]: the configuration its keys are
    read from.  A failure to load a file given with [--config] exits with
    status 1; without [--config] a missing default file is an empty
    configuration. *)
Definition loaded_config (w : world) (args : namespace) : result yaml :=
  if explicit_config args then
    match load_config (fs w) (arg_config args) with
    | Ok c => Ok c
    | Raise e => if is_Exception e then Raise (SystemExit 1) else Raise e
    end
  else
    match load_config (fs w) None with
    | Raise FileNotFoundError => Ok (YMap [])
    | r => r
    end.

Definition get_config_values (w : world) (args : namespace)
  : result (pyval * pyval * pyval) :=
  bind (loaded_config w args) (fun config =>
  bind
    (match arg_fraction args with
     | Some f => Ok (PyFloat f)
     | None =>
         bind (dict_get config "fraction" PyNone) (fun fraction =>
         match fraction with
         | PyNone => parser_error
         | _ => Ok fraction
         end)
     end) (fun fraction =>
  bind
    (match arg_max_procs args with
     | Some n => Ok (PyInt n)
     | None => dict_get config "max_procs" (PyInt 100)
     end) (fun max_procs =>
  bind
    (if arg_no_plots args then Ok (PyBool false)
     else dict_get config "generate_plots" (PyBool true)) (fun generate_plots =>
  Ok (fraction, max_procs, generate_plots))))).

(** The body of the [try] block of [main]. *)
Definition main_body (w : world) (args : namespace) : result unit :=
  bind (get_config_values w args) (fun '(fraction, max_procs, generate_plots) =>
  bind (validate_fraction fraction) (fun _ =>
  bind (validate_processors max_procs) (fun _ =>
  match analysis w fraction max_procs generate_plots with
  | None => Ok tt
  | Some e => Raise e
  end))).

(** The exit status of the process that runs [main]. *)
Definition main (w : world) (args : namespace) : Z :=
  match main_body w args with
  | Ok _ => 0
  | Raise ValueError => 1
  | Raise KeyboardInterrupt => 130
  | Raise (SystemExit code) => code
  | Raise _ => 1
  end.

(** A run with no [--fraction], no [--config] and no configuration file. *)
Definition no_files : files :=
  {| path_exists := fun _ => false; safe_load := fun _ => Ok YNull |}.

Definition quiet_world : world :=
  {| fs := no_files; analysis := fun _ _ _ => None |}.

Definition bare_args : namespace :=
  {| arg_fraction := None; arg_max_procs := None; arg_config := None;
     arg_output_dir := "./output"; arg_no_plots := false |}.

(** The same run with [--fraction f]. *)
Definition fraction_args (f : float) : namespace :=
  {| arg_fraction := Some f; arg_max_procs := None; arg_config := None;
     arg_output_dir := "./output"; arg_no_plots := false |}.

End Cli.

(** ** Sample surroundings for the command-line program *)

Module Samples.
Import Utils Cli.

Local Open Scope string_scope.

(** A file system that holds one file, [path], whose YAML document is
    [doc]. *)
Definition one_file (path : string) (doc : yaml) : files :=
  {| path_exists := fun p => String.eqb p path;
     safe_load := fun p => if String.eqb p path then Ok doc
                           else Raise FileNotFoundError |}.

(** A world with that one file, in which the analysis completes. *)
Definition config_world (path : string) (doc : yaml) : world :=
  {| fs := one_file path doc; analysis := fun _ _ _ => None |}.

(** A run with [--config path] and nothing else. *)
Definition config_args (path : string) : namespace :=
  {| arg_fraction := None; arg_max_procs := None; arg_config := Some path;
     arg_output_dir := "./output"; arg_no_plots := false |}.

(** A run with [--fraction f --max_procs n --no-plots]. *)
Definition full_args (f : float) (n : Z) : namespace :=
  {| arg_fraction := Some f; arg_max_procs := Some n; arg_config := None;
     arg_output_dir := "./output"; arg_no_plots := true |}.

End Samples.

(** ** Real-number semantics of binary64 floats

    The definitions the proofs about rounding are stated with: the real value
    of a float, and what it means for a float to be the correctly rounded
    result of an exact real. *)

Module FloatSem.

Definition pow2 (e : Z) : R := powerRZ 2 e.
Arguments pow2 : simpl never.

Definition SF2R (x : spec_float) : R :=
  match x with
  | S754_finite s m e =>
      if s then (- (IZR (Zpos m) * pow2 e))%R else (IZR (Zpos m) * pow2 e)%R
  | _ => 0%R
  end.

Definition SFfinite (x : spec_float) : bool :=
  match x with
  | S754_zero _ | S754_finite _ _ _ => true
  | _ => false
  end.

(** Where the real [u] sits in the unit interval that starts at the integer
    [m], as the round bit [r] and the sticky bit [s] record it. *)
Definition located (u : R) (m : Z) (r s : bool) : Prop :=
  match r, s with
  | false, false => u = IZR m
  | false, true => (IZR m < u < IZR m + / 2)%R
  | true, false => u = (IZR m + / 2)%R
  | true, true => (IZR m + / 2 < u < IZR m + 1)%R
  end.

Definition located_rec (v : R) (mrs : shr_record) (e : Z) : Prop :=
  0 <= shr_m mrs /\
  located (v / pow2 e) (shr_m mrs) (shr_r mrs) (shr_s mrs).

(** [K] is the integer nearest to [u], the even one on a tie. *)
Definition rne (u : R) (K : Z) : Prop :=
  (IZR K - / 2 <= u <= IZR K + / 2)%R /\
  ((u = IZR K - / 2 \/ u = IZR K + / 2)%R -> Z.even K = true).

(** [e] is the exponent binary64 gives to the positive real [v]. *)
Definition cexp_of (v : R) (e : Z) : Prop :=
  -1074 <= e /\ (v < pow2 (e + 53))%R /\ (-1074 < e -> (pow2 (e + 52) <= v)%R).

(** The float [z] holds [K * 2^e] with sign [s], or the infinity when that
    is past the largest double. *)
Definition encodes (s : bool) (z : spec_float) (K e : Z) : Prop :=
  (K = 0 /\ z = S754_zero s) \/
  (0 < K /\ (IZR K * pow2 e < pow2 1024)%R /\
   exists m e', z = S754_finite s m e' /\ bounded prec emax m e' = true /\
                (IZR (Zpos m) * pow2 e' = IZR K * pow2 e)%R) \/
  (0 < K /\ (pow2 1024 <= IZR K * pow2 e)%R /\ z = S754_infinity s).

(** [z] is the binary64 rounding (to nearest, ties to even) of the positive
    real [v], with sign [s]. *)
Definition rounds_pos (s : bool) (v : R) (z : spec_float) : Prop :=
  exists e K, cexp_of v e /\ rne (v / pow2 e) K /\ encodes s z K e.

(** [r] is the value binary64 rounding gives the positive real [v] when the
    exponent range is unbounded above. *)
Definition rval (v r : R) : Prop :=
  exists e K, cexp_of v e /\ rne (v / pow2 e) K /\ r = (IZR K * pow2 e)%R.

(** [z] is the binary64 rounding of the real [v]. *)
Definition rounds (v : R) (z : spec_float) : Prop :=
  (v = 0%R /\ exists s, z = S754_zero s) \/
  (0 < v /\ rounds_pos false v z)%R \/
  (v < 0 /\ rounds_pos true (- v) z)%R.

(** A positive real that a finite binary64 float holds exactly. *)
Definition dyadic (b : R) : Prop :=
  exists k e, 0 < k < 2 ^ 53 /\ -1074 <= e /\
              b = (IZR k * pow2 e)%R /\ (b < pow2 1024)%R.

(** A finite float of the binary64 format. *)
Definition SFvalid (x : spec_float) : Prop :=
  SpecFloat.valid_binary prec emax x = true /\ SFfinite x = true.

(** The real value of a primitive float (0 for infinities and NaN). *)
Definition B2R (x : float) : R := SF2R (Prim2SF x).

Definition finite (x : float) : Prop := SFfinite (Prim2SF x) = true.

(** The float [x] is the binary64 rounding of the real [v]. *)
Definition Rounds (v : R) (x : float) : Prop := rounds v (Prim2SF x).

(** The unit roundoff of binary64 and relative closeness: [A] is within
    the relative error [c] of the positive real [a]. *)
Definition u53 : R := pow2 (-53).

Definition approx (c a A : R) : Prop := (Rabs (A - a) <= c * a)%R.

End FloatSem.
Import FloatSem.

(** ** Amdahl's law over the reals

    The formulas of the specification, [S = 1 / (f + (1 - f) / p)],
    [E = S / p] and [T_p / T_1 = 1 / S], in exact arithmetic: what the
    floating-point results are compared with. *)

Module Ideal.

Definition speedup (f p : R) : R := (1 / (f + (1 - f) / p))%R.

Definition efficiency (f p : R) : R := (speedup f p / p)%R.

Definition time_ratio (f p : R) : R := (1 / speedup f p)%R.

(** The ranges of the three results for [p] processors, as the floats keep
    them: the bounds [1 <= S], [0 < E] and [T <= 1] hold exactly, the other
    three up to the relative rounding error [2^-49]. *)
Definition in_range (p : R) (s e r : float) : Prop :=
  finite s /\ finite e /\ finite r /\
  (1 <= B2R s <= p * (1 + pow2 (-49)))%R /\
  (0 < B2R e <= 1 + pow2 (-49))%R /\
  (/ p * (1 - pow2 (-49)) <= B2R r <= 1)%R.

End Ideal.

(** * Properties of binary64 rounding ([SpecFloat]) *)


Section Pow2.
Local Open Scope R_scope.

Lemma pow2_pos e : 0 < pow2 e.
Proof. apply powerRZ_lt; lra. Qed.

Lemma pow2_add a b : pow2 (a + b) = pow2 a * pow2 b.
Proof. apply powerRZ_add; lra. Qed.

Lemma pow2_0 : pow2 0 = 1.
Proof. reflexivity. Qed.

Lemma pow2_1 : pow2 1 = 2.
Proof. unfold pow2; simpl; lra. Qed.

Lemma pow2_succ e : pow2 (e + 1) = 2 * pow2 e.
Proof. rewrite pow2_add, pow2_1; lra. Qed.

Lemma pow2_pred e : pow2 (e - 1) = pow2 e / 2.
Proof.
  replace e with ((e - 1) + 1)%Z at 2 by lia.
  rewrite pow2_succ; lra.
Qed.

Lemma pow2_opp e : pow2 (- e) = / pow2 e.
Proof. apply powerRZ_neg'. Qed.

Lemma pow2_sub a b : pow2 (a - b) = pow2 a / pow2 b.
Proof.
  unfold Z.sub, Rdiv. rewrite pow2_add, pow2_opp. reflexivity.
Qed.

Lemma pow2_IZR e : (0 <= e)%Z -> pow2 e = IZR (2 ^ e).
Proof.
  intros He. unfold pow2.
  rewrite <- (Z2Nat.id e) by assumption.
  rewrite <- pow_powerRZ, pow_IZR. reflexivity.
Qed.

Lemma pow2_ge_1 e : (0 <= e)%Z -> 1 <= pow2 e.
Proof.
  intros He. rewrite pow2_IZR by assumption.
  apply IZR_le. pose proof (Z.pow_pos_nonneg 2 e). lia.
Qed.

Lemma pow2_le a b : (a <= b)%Z -> pow2 a <= pow2 b.
Proof.
  intros Hab. replace b with (a + (b - a))%Z by lia.
  rewrite pow2_add.
  pose proof (pow2_pos a). pose proof (pow2_ge_1 (b - a) ltac:(lia)).
  nra.
Qed.

Lemma pow2_lt a b : (a < b)%Z -> pow2 a < pow2 b.
Proof.
  intros Hab.
  apply Rlt_le_trans with (pow2 (a + 1)).
  - rewrite pow2_succ. pose proof (pow2_pos a). lra.
  - apply pow2_le. lia.
Qed.

Lemma pow2_lt_inv a b : pow2 a < pow2 b -> (a < b)%Z.
Proof.
  intros H. destruct (Z_lt_le_dec a b) as [|Hle]; [assumption|].
  apply pow2_le in Hle. lra.
Qed.

Lemma pow2_le_inv a b : pow2 a <= pow2 b -> (a <= b)%Z.
Proof.
  intros H. destruct (Z_le_gt_dec a b) as [|Hgt]; [assumption|].
  apply Z.gt_lt, pow2_lt in Hgt. lra.
Qed.

End Pow2.

Section Digits.

Lemma digits2_pos_bounds (m : positive) :
  2 ^ (Zpos (digits2_pos m) - 1) <= Zpos m < 2 ^ Zpos (digits2_pos m).
Proof.
  induction m as [m IH|m IH|]; simpl digits2_pos.
  - rewrite Pos2Z.inj_succ.
    replace (Z.succ (Zpos (digits2_pos m)) - 1) with (Zpos (digits2_pos m) - 1 + 1) by lia.
    rewrite Z.pow_succ_r by lia. rewrite Z.pow_add_r by lia.
    change (2 ^ 1) with 2. lia.
  - rewrite Pos2Z.inj_succ.
    replace (Z.succ (Zpos (digits2_pos m)) - 1) with (Zpos (digits2_pos m) - 1 + 1) by lia.
    rewrite Z.pow_succ_r by lia. rewrite Z.pow_add_r by lia.
    change (2 ^ 1) with 2. lia.
  - cbn. lia.
Qed.

Lemma Zdigits2_bounds (m : Z) :
  0 < m -> 2 ^ (Zdigits2 m - 1) <= m < 2 ^ Zdigits2 m.
Proof.
  destruct m as [|p|p]; try lia. intros _. apply digits2_pos_bounds.
Qed.

Lemma Zdigits2_pos (m : Z) : 0 < m -> 0 < Zdigits2 m.
Proof. destruct m; simpl; lia. Qed.

Lemma Zdigits2_unique (m d : Z) :
  0 < m -> 2 ^ (d - 1) <= m < 2 ^ d -> Zdigits2 m = d.
Proof.
  intros Hm [Hlo Hhi].
  pose proof (Zdigits2_bounds m Hm) as [Hlo' Hhi'].
  pose proof (Zdigits2_pos m Hm) as Hd.
  assert (0 < d).
  { destruct (Z_lt_le_dec 0 d); [assumption|].
    assert (2 ^ d <= 1).
    { destruct (Z.eq_dec d 0) as [->|]; [cbn; lia|].
      rewrite Z.pow_neg_r by lia. lia. }
    lia. }
  destruct (Z.lt_trichotomy (Zdigits2 m) d) as [Hlt|[Heq|Hgt]]; [|assumption|].
  - assert (2 ^ Zdigits2 m <= 2 ^ (d - 1)) by (apply Z.pow_le_mono_r; lia). lia.
  - assert (2 ^ d <= 2 ^ (Zdigits2 m - 1)) by (apply Z.pow_le_mono_r; lia). lia.
Qed.

Lemma Zdigits2_R (m : Z) :
  0 < m ->
  (pow2 (Zdigits2 m - 1) <= IZR m < pow2 (Zdigits2 m))%R.
Proof.
  intros Hm.
  pose proof (Zdigits2_bounds m Hm) as [Hlo Hhi].
  pose proof (Zdigits2_pos m Hm).
  rewrite !pow2_IZR by lia.
  split; [apply IZR_le | apply IZR_lt]; assumption.
Qed.

End Digits.

Section Shift.
Local Open Scope R_scope.

Lemma located_bounds u m r s : located u m r s -> IZR m <= u < IZR m + 1.
Proof. destruct r, s; simpl; lra. Qed.

Lemma IZR_xO p : IZR (Zpos p~0) = 2 * IZR (Zpos p).
Proof. rewrite Pos2Z.inj_xO, mult_IZR. reflexivity. Qed.

Lemma IZR_xI p : IZR (Zpos p~1) = 2 * IZR (Zpos p) + 1.
Proof. rewrite Pos2Z.inj_xI, plus_IZR, mult_IZR. reflexivity. Qed.

Lemma shr_1_located v mrs e :
  located_rec v mrs e -> located_rec v (shr_1 mrs) (e + 1).
Proof.
  destruct mrs as [m r s]. unfold located_rec. simpl shr_m; simpl shr_r; simpl shr_s.
  intros [Hm Hl].
  rewrite pow2_succ.
  pose proof (pow2_pos e) as He.
  replace (v / (2 * pow2 e)) with (v / pow2 e / 2) by (field; lra).
  set (u := v / pow2 e) in *. clearbody u.
  destruct m as [|[p|p|]|p]; try lia; simpl shr_1; cbn [shr_m shr_r shr_s];
    (split; [lia|]);
    destruct r, s; unfold located in *; cbn [orb] in *;
    try rewrite IZR_xO in Hl; try rewrite IZR_xI in Hl; lra.
Qed.

Lemma iter_pos_shr_1_located n : forall v mrs e,
  located_rec v mrs e -> located_rec v (iter_pos shr_1 n mrs) (e + Zpos n).
Proof.
  induction n as [n IH|n IH|]; intros v mrs e H; simpl iter_pos.
  - replace (e + Zpos n~1)%Z with (e + 1 + Zpos n + Zpos n)%Z by lia.
    apply IH, IH, shr_1_located, H.
  - replace (e + Zpos n~0)%Z with (e + Zpos n + Zpos n)%Z by lia.
    apply IH, IH, H.
  - apply shr_1_located, H.
Qed.

Lemma shr_located v mrs e n :
  located_rec v mrs e ->
  located_rec v (fst (shr mrs e n)) (snd (shr mrs e n)) /\
  snd (shr mrs e n) = (e + Z.max 0 n)%Z.
Proof.
  intros H. destruct n as [|n|n]; simpl.
  - split; [assumption | lia].
  - split; [apply iter_pos_shr_1_located; assumption | lia].
  - split; [assumption | lia].
Qed.

(** The location a [location] value stands for. *)
Lemma shr_record_of_loc_m m l : shr_m (shr_record_of_loc m l) = m.
Proof. destruct l as [|[]]; reflexivity. Qed.

Lemma loc_of_shr_record_of_loc m l :
  loc_of_shr_record (shr_record_of_loc m l) = l.
Proof. destruct l as [|[]]; reflexivity. Qed.

Lemma round_nearest_even_rne u mrs :
  (0 <= shr_m mrs)%Z ->
  located u (shr_m mrs) (shr_r mrs) (shr_s mrs) ->
  rne u (round_nearest_even (shr_m mrs) (loc_of_shr_record mrs)).
Proof.
  destruct mrs as [m r s]. simpl. intros Hm Hl.
  destruct r, s; simpl in *; unfold rne.
  - rewrite plus_IZR. split; [lra|]. intros [?|?]; lra.
  - destruct (Z.even m) eqn:Hev.
    + split; [lra|]. intros _. assumption.
    + rewrite plus_IZR. split; [lra|]. intros _.
      rewrite Z.even_add, Hev. reflexivity.
  - split; [lra|]. intros [?|?]; lra.
  - split; [lra|]. intros [?|?]; lra.
Qed.

Lemma rne_unique u K1 K2 : rne u K1 -> rne u K2 -> K1 = K2.
Proof.
  intros [H1 E1] [H2 E2].
  destruct (Z.lt_trichotomy K1 K2) as [Hlt|[Heq|Hgt]]; [|assumption|].
  - assert (IZR K1 + 1 <= IZR K2) by (rewrite <- plus_IZR; apply IZR_le; lia).
    assert (u = IZR K1 + / 2) by lra. assert (u = IZR K2 - / 2) by lra.
    assert (IZR K2 = IZR (K1 + 1)) by (rewrite plus_IZR; lra).
    apply eq_IZR in H4. subst K2.
    specialize (E1 (or_intror H0)). specialize (E2 (or_introl H3)).
    rewrite Z.even_add in E2. rewrite E1 in E2. discriminate.
  - assert (IZR K2 + 1 <= IZR K1) by (rewrite <- plus_IZR; apply IZR_le; lia).
    assert (u = IZR K2 + / 2) by lra. assert (u = IZR K1 - / 2) by lra.
    assert (IZR K1 = IZR (K2 + 1)) by (rewrite plus_IZR; lra).
    apply eq_IZR in H4. subst K1.
    specialize (E2 (or_intror H0)). specialize (E1 (or_introl H3)).
    rewrite Z.even_add in E1. rewrite E2 in E1. discriminate.
Qed.

Lemma rne_mono u1 u2 K1 K2 : rne u1 K1 -> rne u2 K2 -> u1 <= u2 -> (K1 <= K2)%Z.
Proof.
  intros [H1 E1] [H2 E2] Hu.
  destruct (Z_le_gt_dec K1 K2) as [|Hgt]; [assumption|exfalso].
  assert (IZR K2 + 1 <= IZR K1) by (rewrite <- plus_IZR; apply IZR_le; lia).
  assert (u1 = IZR K1 - / 2) by lra. assert (u2 = IZR K2 + / 2) by lra.
  assert (IZR K1 = IZR (K2 + 1)) by (rewrite plus_IZR; lra).
  apply eq_IZR in H4. subst K1.
  specialize (E1 (or_introl H0)). specialize (E2 (or_intror H3)).
  rewrite Z.even_add in E1. rewrite E2 in E1. discriminate.
Qed.

Lemma rne_IZR k : rne (IZR k) k.
Proof. split; [lra|]. intros [?|?]; lra. Qed.

Lemma rne_ge u K k : rne u K -> IZR k <= u -> (k <= K)%Z.
Proof. intros H Hu. exact (rne_mono _ _ _ _ (rne_IZR k) H Hu). Qed.

Lemma rne_le u K k : rne u K -> u <= IZR k -> (K <= k)%Z.
Proof. intros H Hu. exact (rne_mono _ _ _ _ H (rne_IZR k) Hu). Qed.

End Shift.

Section RoundAux.
Local Open Scope R_scope.

Lemma fexp_eq x : fexp prec emax x = Z.max (x - 53) (-1074).
Proof. reflexivity. Qed.

Lemma div_pow2_lt v e k : v < pow2 (e + k) -> v / pow2 e < pow2 k.
Proof.
  intros H. rewrite pow2_add in H. pose proof (pow2_pos e).
  apply Rmult_lt_reg_r with (pow2 e); [assumption|].
  unfold Rdiv. rewrite Rmult_assoc, Rinv_l by lra. lra.
Qed.

Lemma div_pow2_ge v e k : pow2 (e + k) <= v -> pow2 k <= v / pow2 e.
Proof.
  intros H. rewrite pow2_add in H. pose proof (pow2_pos e).
  apply Rmult_le_reg_r with (pow2 e); [assumption|].
  unfold Rdiv. rewrite Rmult_assoc, Rinv_l by lra. lra.
Qed.

Lemma div_pow2_bounds v e m :
  IZR m <= v / pow2 e < IZR m + 1 ->
  IZR m * pow2 e <= v < (IZR m + 1) * pow2 e.
Proof.
  intros [H1 H2]. pose proof (pow2_pos e).
  assert (v = v / pow2 e * pow2 e) as -> by (field; lra).
  split; [apply Rmult_le_compat_r | apply Rmult_lt_compat_r]; lra.
Qed.

Lemma pow2_53 : pow2 53 = IZR (2 ^ 53).
Proof. apply pow2_IZR; lia. Qed.

Lemma pow2_52 : pow2 52 = IZR (2 ^ 52).
Proof. apply pow2_IZR; lia. Qed.

Lemma cexp_of_located mx ex v :
  (0 <= mx)%Z -> 0 < v ->
  IZR mx <= v / pow2 ex < IZR mx + 1 ->
  (ex <= fexp prec emax (Zdigits2 mx + ex))%Z ->
  cexp_of v (fexp prec emax (Zdigits2 mx + ex)).
Proof.
  intros Hmx Hv Hb Hex. rewrite fexp_eq in *.
  apply div_pow2_bounds in Hb. destruct Hb as [Hlo Hhi].
  destruct (Z.eq_dec mx 0) as [->|Hne].
  - simpl Zdigits2 in *. rewrite Z.add_0_l in *.
    assert (Z.max (ex - 53) (-1074) = -1074)%Z as -> by lia.
    assert (ex <= -1074)%Z by lia.
    repeat split; [lia | | lia].
    apply Rlt_le_trans with (pow2 ex); [lra|]. apply pow2_le. lia.
  - assert (0 < mx)%Z as Hpos by lia.
    pose proof (Zdigits2_R mx Hpos) as [Hd1 Hd2].
    pose proof (Zdigits2_pos mx Hpos) as Hd.
    pose proof (pow2_pos ex) as Hp.
    set (d := Zdigits2 mx) in *.
    assert (IZR mx + 1 <= pow2 d) as Hd2'.
    { rewrite pow2_IZR by lia. rewrite <- plus_IZR. apply IZR_le.
      pose proof (Zdigits2_bounds mx Hpos). fold d in H. lia. }
    repeat split.
    + lia.
    + apply Rlt_le_trans with (pow2 (d + ex)).
      * rewrite pow2_add. nra.
      * apply pow2_le. lia.
    + intros Hgt.
      assert (Z.max (d + ex - 53) (-1074) = d + ex - 53)%Z as -> by lia.
      replace (d + ex - 53 + 52)%Z with ((d - 1) + ex)%Z by lia.
      rewrite pow2_add. nra.
Qed.

Lemma cexp_of_rne_bounds v e K :
  0 < v -> cexp_of v e -> rne (v / pow2 e) K ->
  (0 <= K <= 2 ^ 53)%Z /\ ((-1074 < e)%Z -> (2 ^ 52 <= K)%Z).
Proof.
  intros Hv (He & Hhi & Hlo) HK.
  pose proof (pow2_pos e) as Hp.
  repeat split.
  - apply (rne_ge _ _ 0%Z HK). apply Rlt_le, Rdiv_lt_0_compat; assumption.
  - apply (rne_le _ _ _ HK). rewrite <- pow2_53.
    apply Rlt_le, div_pow2_lt. assumption.
  - intros Hgt. apply (rne_ge _ _ _ HK). rewrite <- pow2_52.
    apply div_pow2_ge. auto.
Qed.

Lemma bounded_intro (m : positive) (e : Z) :
  (-1074 <= e <= 971)%Z -> (Zpos m < 2 ^ 53)%Z ->
  ((-1074 < e)%Z -> (2 ^ 52 <= Zpos m)%Z) ->
  bounded prec emax m e = true.
Proof.
  intros He Hm Hn. unfold bounded, canonical_mantissa.
  rewrite fexp_eq. apply andb_true_intro. split.
  - apply Z.eqb_eq.
    pose proof (digits2_pos_bounds m) as [Hlo Hhi].
    assert (Zpos (digits2_pos m) <= 53)%Z.
    { destruct (Z_le_gt_dec (Zpos (digits2_pos m)) 53); [assumption|].
      assert (2 ^ 53 <= 2 ^ (Zpos (digits2_pos m) - 1))%Z
        by (apply Z.pow_le_mono_r; lia). lia. }
    destruct (Z.eq_dec e (-1074)) as [->|Hne]; [lia|].
    assert (2 ^ 52 <= Zpos m)%Z by (apply Hn; lia).
    assert (53 <= Zpos (digits2_pos m))%Z.
    { destruct (Z_le_gt_dec 53 (Zpos (digits2_pos m))); [assumption|].
      assert (2 ^ Zpos (digits2_pos m) <= 2 ^ 52)%Z
        by (apply Z.pow_le_mono_r; lia). lia. }
    lia.
  - apply Z.leb_le. change (emax - prec)%Z with 971%Z. lia.
Qed.

Lemma bounded_elim (m : positive) (e : Z) :
  bounded prec emax m e = true ->
  (-1074 <= e <= 971)%Z /\ (Zpos m < 2 ^ 53)%Z /\
  ((-1074 < e)%Z -> (2 ^ 52 <= Zpos m)%Z).
Proof.
  unfold bounded, canonical_mantissa. rewrite fexp_eq.
  intros H. apply andb_prop in H. destruct H as [H1 H2].
  apply Z.eqb_eq in H1. apply Z.leb_le in H2.
  change (emax - prec)%Z with 971%Z in H2.
  pose proof (digits2_pos_bounds m) as [Hlo Hhi].
  set (d := Zpos (digits2_pos m)) in *.
  assert (0 < d)%Z by (unfold d; lia).
  repeat split; try lia.
  - assert (d <= 53)%Z by lia.
    assert (2 ^ d <= 2 ^ 53)%Z by (apply Z.pow_le_mono_r; lia). lia.
  - intros Hgt. assert (d = 53)%Z by lia.
    replace 52%Z with (d - 1)%Z by lia. assumption.
Qed.

Theorem binary_round_aux_spec s mx ex lx v :
  (0 <= mx)%Z -> 0 < v ->
  located_rec v (shr_record_of_loc mx lx) ex ->
  (ex <= fexp prec emax (Zdigits2 mx + ex))%Z ->
  rounds_pos s v (binary_round_aux prec emax s mx ex lx).
Proof.
  intros Hmx Hv Hloc Hex.
  assert (Hb : IZR mx <= v / pow2 ex < IZR mx + 1).
  { destruct Hloc as [_ Hl]. apply located_bounds in Hl.
    rewrite shr_record_of_loc_m in Hl. exact Hl. }
  pose proof (cexp_of_located mx ex v Hmx Hv Hb Hex) as Hc.
  unfold binary_round_aux, shr_fexp.
  set (e1 := fexp prec emax (Zdigits2 mx + ex)) in *.
  pose proof (shr_located v _ ex (e1 - ex) Hloc) as [Hl1 He1].
  destruct (shr (shr_record_of_loc mx lx) ex (e1 - ex)) as [mrs1 e1'].
  simpl fst in *; simpl snd in *.
  assert (Heq : e1' = e1) by lia. clear He1. subst e1'.
  destruct Hl1 as [Hm1 Hl1].
  pose proof (round_nearest_even_rne _ _ Hm1 Hl1) as HK.
  set (K := round_nearest_even (shr_m mrs1) (loc_of_shr_record mrs1)) in *.
  clearbody K.
  pose proof (cexp_of_rne_bounds v e1 K Hv Hc HK) as [[HK0 HK53] HK52].
  assert (He1 : (-1074 <= e1)%Z) by (destruct Hc; assumption).
  exists e1, K. split; [assumption|]. split; [assumption|].
  clear Hl1 Hm1 mrs1 Hloc Hb Hex.
  pose proof (pow2_pos e1) as Hp1.
  destruct (Z.eq_dec K 0) as [->|HKne].
  { (* the result is zero *)
    left. split; [reflexivity|].
    unfold shr. simpl Zdigits2. rewrite Z.add_0_l, fexp_eq.
    destruct (Z.max (e1 - 53) (-1074) - e1)%Z eqn:Hn; try lia; reflexivity. }
  destruct (Z.eq_dec K (2 ^ 53)) as [->|HKne'].
  { (* the mantissa overflowed to 2^53: one more shift *)
    assert (Hn : (fexp prec emax (Zdigits2 (2 ^ 53) + e1) - e1 = 1)%Z).
    { rewrite fexp_eq. change (Zdigits2 (2 ^ 53)) with 54%Z. lia. }
    rewrite Hn. simpl shr. cbn [shr_m].
    change (shr_m (shr_1 (shr_record_of_loc (2 ^ 53) loc_Exact)))
      with (Zpos (2 ^ 52)).
    cbv iota beta.
    change (emax - prec)%Z with 971%Z.
    assert (Hval : IZR (Zpos (2 ^ 52)) * pow2 (e1 + 1) = IZR (2 ^ 53) * pow2 e1).
    { rewrite pow2_succ. change (Zpos (2 ^ 52)) with (2 ^ 52)%Z.
      replace (IZR (2 ^ 53)) with (2 * IZR (2 ^ 52)).
      - ring.
      - rewrite <- mult_IZR. reflexivity. }
    destruct (Z.leb_spec (e1 + 1) 971) as [Hle|Hgt].
    - right; left. split; [lia|]. split.
      + rewrite <- pow2_53, <- pow2_add. apply pow2_lt. lia.
      + exists (2 ^ 52)%positive, (e1 + 1)%Z. repeat split.
        * apply bounded_intro; [lia | reflexivity | intros _; discriminate].
        * exact Hval.
    - right; right. split; [lia|]. split; [|reflexivity].
      rewrite <- pow2_53, <- pow2_add. apply pow2_le. lia. }
  (* the mantissa fits: no more shift *)
  assert (HKpos : (0 < K < 2 ^ 53)%Z) by lia.
  assert (Hd : (Zdigits2 K <= 53)%Z).
  { pose proof (Zdigits2_bounds K ltac:(lia)) as [Hlo _].
    destruct (Z_le_gt_dec (Zdigits2 K) 53); [assumption|].
    assert (2 ^ 53 <= 2 ^ (Zdigits2 K - 1))%Z by (apply Z.pow_le_mono_r; lia).
    lia. }
  assert (Hshr : shr (shr_record_of_loc K loc_Exact) e1
                   (fexp prec emax (Zdigits2 K + e1) - e1)
                 = (shr_record_of_loc K loc_Exact, e1)).
  { rewrite fexp_eq. unfold shr.
    destruct (Z.max (Zdigits2 K + e1 - 53) (-1074) - e1)%Z eqn:Hn;
      try reflexivity.
    assert (Z.max (Zdigits2 K + e1 - 53) (-1074) <= e1)%Z by lia. lia. }
  rewrite Hshr. cbn [shr_record_of_loc shr_m].
  destruct K as [|m|m]; try lia.
  change (emax - prec)%Z with 971%Z.
  destruct (Z.leb_spec e1 971) as [Hle|Hgt].
  - right; left. split; [lia|]. split.
    + apply Rlt_le_trans with (pow2 53 * pow2 e1).
      * apply Rmult_lt_compat_r; [assumption|].
        rewrite pow2_53. apply IZR_lt. lia.
      * rewrite <- pow2_add. apply pow2_le. lia.
    + exists m, e1. repeat split.
      apply bounded_intro; [lia | lia | assumption].
  - right; right. split; [lia|]. split; [|reflexivity].
    apply Rle_trans with (pow2 52 * pow2 e1).
    + rewrite <- pow2_add. apply pow2_le. lia.
    + apply Rmult_le_compat_r; [lra|].
      rewrite pow2_52. apply IZR_le. apply HK52. lia.
Qed.

End RoundAux.

Section RoundOps.
Local Open Scope R_scope.

Lemma Pos_iter_xO (m d : positive) :
  Zpos (Pos.iter xO m d) = (Zpos m * 2 ^ Zpos d)%Z.
Proof.
  induction d as [|d IH] using Pos.peano_ind.
  - simpl. lia.
  - rewrite Pos.iter_succ, Pos2Z.inj_xO, IH, Pos2Z.inj_succ, Z.pow_succ_r by lia.
    ring.
Qed.

Lemma shl_align_spec (mx : positive) (ex ex' : Z) :
  let '(mz, ez) := shl_align mx ex ex' in
  (ez <= ex)%Z /\ (ez <= ex' \/ ez = ex)%Z /\ (ex' <= ex -> ez = ex')%Z /\
  Zpos mz = (Zpos mx * 2 ^ (ex - ez))%Z.
Proof.
  unfold shl_align. destruct (ex' - ex)%Z as [|d|d] eqn:Hd.
  - replace (ex - ex)%Z with 0%Z by lia. simpl. lia.
  - replace (ex - ex)%Z with 0%Z by lia. simpl. lia.
  - rewrite Pos_iter_xO. replace (ex - ex')%Z with (Zpos d) by lia. lia.
Qed.

Lemma shl_align_R (mx : positive) (ex ex' : Z) :
  IZR (Zpos (fst (shl_align mx ex ex'))) * pow2 (snd (shl_align mx ex ex'))
  = IZR (Zpos mx) * pow2 ex.
Proof.
  pose proof (shl_align_spec mx ex ex') as H.
  destruct (shl_align mx ex ex') as [mz ez]. simpl.
  destruct H as (H1 & _ & _ & H2). rewrite H2, mult_IZR.
  rewrite <- pow2_IZR by lia.
  rewrite Rmult_assoc, <- pow2_add. f_equal. f_equal. lia.
Qed.

Lemma Zdigits2_shift (m d : Z) :
  (0 < m)%Z -> (0 <= d)%Z -> Zdigits2 (m * 2 ^ d) = (Zdigits2 m + d)%Z.
Proof.
  intros Hm Hd.
  pose proof (Zdigits2_bounds m Hm) as [Hlo Hhi].
  pose proof (Zdigits2_pos m Hm).
  pose proof (Z.pow_pos_nonneg 2 d ltac:(lia) Hd).
  apply Zdigits2_unique; [nia|].
  replace (Zdigits2 m + d - 1)%Z with (Zdigits2 m - 1 + d)%Z by lia.
  rewrite !Z.pow_add_r by lia. nia.
Qed.

Theorem binary_round_spec s (m : positive) (e : Z) :
  rounds_pos s (IZR (Zpos m) * pow2 e) (binary_round prec emax s m e).
Proof.
  unfold binary_round.
  set (e' := fexp prec emax (Zpos (digits2_pos m) + e)).
  pose proof (shl_align_spec m e e') as H.
  pose proof (shl_align_R m e e') as HR.
  destruct (shl_align m e e') as [mz ez]. simpl in HR.
  destruct H as (H1 & H2 & H3 & H4).
  pose proof (pow2_pos e). pose proof (pow2_pos ez).
  assert (0 < IZR (Zpos m)) by (apply IZR_lt; lia).
  apply binary_round_aux_spec.
  - lia.
  - nra.
  - split; [simpl; lia|]. simpl. rewrite <- HR. field. lra.
  - assert (Zdigits2 (Zpos mz) + ez = Zpos (digits2_pos m) + e)%Z as ->.
    { rewrite H4, Zdigits2_shift by lia. simpl Zdigits2. lia. }
    fold e'. destruct H2 as [H2|H2]; [assumption|].
    subst ez. destruct (Z_le_gt_dec e' e) as [Hle|Hgt]; [|lia].
    specialize (H3 Hle). lia.
Qed.

Lemma binary_normalize_spec (m e : Z) (szero : bool) :
  rounds (IZR m * pow2 e) (binary_normalize prec emax m e szero).
Proof.
  pose proof (pow2_pos e).
  destruct m as [|m|m]; simpl binary_normalize.
  - left. split; [lra|]. eexists; reflexivity.
  - right; left. split.
    + assert (0 < IZR (Zpos m)) by (apply IZR_lt; lia). nra.
    + apply binary_round_spec.
  - right; right.
    assert (IZR (Zneg m) = - IZR (Zpos m)) as ->
      by (rewrite <- opp_IZR; reflexivity).
    assert (0 < IZR (Zpos m)) by (apply IZR_lt; lia).
    split; [nra|].
    replace (- (- IZR (Zpos m) * pow2 e)) with (IZR (Zpos m) * pow2 e) by ring.
    apply binary_round_spec.
Qed.

Lemma SF2R_finite s m e :
  SF2R (S754_finite s m e) = IZR (cond_Zopp s (Zpos m)) * pow2 e.
Proof.
  destruct s; simpl; [|reflexivity].
  assert (IZR (Zneg m) = - IZR (Zpos m)) as ->
    by (rewrite <- opp_IZR; reflexivity).
  ring.
Qed.

Lemma cexp_of_bounded (m : positive) (e : Z) :
  bounded prec emax m e = true -> cexp_of (IZR (Zpos m) * pow2 e) e.
Proof.
  intros Hb. apply bounded_elim in Hb. destruct Hb as (He & Hm & Hn).
  pose proof (pow2_pos e).
  repeat split.
  - lia.
  - rewrite Z.add_comm, pow2_add, pow2_53.
    apply Rmult_lt_compat_r; [assumption|]. apply IZR_lt. assumption.
  - intros Hgt. rewrite Z.add_comm, pow2_add, pow2_52.
    apply Rmult_le_compat_r; [lra|]. apply IZR_le. auto.
Qed.

Lemma bounded_lt_overflow (m : positive) (e : Z) :
  bounded prec emax m e = true -> IZR (Zpos m) * pow2 e < pow2 1024.
Proof.
  intros Hb. apply bounded_elim in Hb. destruct Hb as (He & Hm & Hn).
  pose proof (pow2_pos e).
  apply Rlt_le_trans with (pow2 53 * pow2 e).
  - apply Rmult_lt_compat_r; [assumption|]. rewrite pow2_53.
    apply IZR_lt. assumption.
  - rewrite <- pow2_add. apply pow2_le. lia.
Qed.

Lemma rounds_pos_self s (m : positive) (e : Z) :
  bounded prec emax m e = true ->
  rounds_pos s (IZR (Zpos m) * pow2 e) (S754_finite s m e).
Proof.
  intros Hb. exists e, (Zpos m). split; [apply cexp_of_bounded; assumption|].
  pose proof (pow2_pos e). split.
  - replace (IZR (Zpos m) * pow2 e / pow2 e) with (IZR (Zpos m)) by (field; lra).
    apply rne_IZR.
  - right; left. split; [lia|]. split; [apply bounded_lt_overflow; assumption|].
    exists m, e. auto.
Qed.

Lemma rounds_self x : SFvalid x -> rounds (SF2R x) x.
Proof.
  intros [Hv Hf]. destruct x as [s|s| |[] m e]; try discriminate.
  - left. split; [reflexivity|]. eexists; reflexivity.
  - right; right. simpl in Hv. simpl SF2R.
    pose proof (pow2_pos e). assert (0 < IZR (Zpos m)) by (apply IZR_lt; lia).
    split; [nra|]. rewrite Ropp_involutive. apply rounds_pos_self. assumption.
  - right; left. simpl in Hv. simpl SF2R.
    pose proof (pow2_pos e). assert (0 < IZR (Zpos m)) by (apply IZR_lt; lia).
    split; [nra|]. apply rounds_pos_self. assumption.
Qed.

Lemma SFopp_valid x : SFvalid x -> SFvalid (SFopp x).
Proof. intros [Hv Hf]. destruct x; try discriminate; split; assumption. Qed.

Lemma SF2R_opp x : SF2R (SFopp x) = - SF2R x.
Proof. destruct x as [| | |[]]; simpl; lra. Qed.

Lemma aligned_sum sx mx ex sy my ey :
  let ez := Z.min ex ey in
  IZR (cond_Zopp sx (Zpos (fst (shl_align mx ex ez)))) * pow2 ez
  = SF2R (S754_finite sx mx ex) /\
  IZR (cond_Zopp sy (Zpos (fst (shl_align my ey ez)))) * pow2 ez
  = SF2R (S754_finite sy my ey).
Proof.
  intros ez.
  assert (Hx : snd (shl_align mx ex ez) = ez).
  { pose proof (shl_align_spec mx ex ez) as H.
    destruct (shl_align mx ex ez) as [a b]. simpl. destruct H as (_ & _ & H & _).
    apply H. unfold ez. lia. }
  assert (Hy : snd (shl_align my ey ez) = ez).
  { pose proof (shl_align_spec my ey ez) as H.
    destruct (shl_align my ey ez) as [a b]. simpl. destruct H as (_ & _ & H & _).
    apply H. unfold ez. lia. }
  pose proof (shl_align_R mx ex ez) as Rx. rewrite Hx in Rx.
  pose proof (shl_align_R my ey ez) as Ry. rewrite Hy in Ry.
  rewrite !SF2R_finite.
  split.
  - destruct sx; simpl cond_Zopp; [|exact Rx].
    rewrite <- !Pos2Z.opp_pos, !opp_IZR. lra.
  - destruct sy; simpl cond_Zopp; [|exact Ry].
    rewrite <- !Pos2Z.opp_pos, !opp_IZR. lra.
Qed.

Theorem SFadd_spec x y :
  SFvalid x -> SFvalid y -> rounds (SF2R x + SF2R y) (SFadd prec emax x y).
Proof.
  intros Hx Hy.
  destruct x as [sx|sx| |sx mx ex]; try (destruct Hx; discriminate);
  destruct y as [sy|sy| |sy my ey]; try (destruct Hy; discriminate).
  - left. simpl. split; [lra|]. destruct sx, sy; eexists; reflexivity.
  - simpl SFadd. replace (SF2R (S754_zero sx) + SF2R (S754_finite sy my ey))
      with (SF2R (S754_finite sy my ey)) by (simpl; destruct sy; lra).
    apply rounds_self. assumption.
  - simpl SFadd. replace (SF2R (S754_finite sx mx ex) + SF2R (S754_zero sy))
      with (SF2R (S754_finite sx mx ex)) by (simpl; destruct sx; lra).
    apply rounds_self. assumption.
  - unfold SFadd.
    pose proof (aligned_sum sx mx ex sy my ey) as [Ax Ay]. cbv zeta in Ax, Ay.
    rewrite <- Ax, <- Ay, <- Rmult_plus_distr_r, <- plus_IZR.
    apply binary_normalize_spec.
Qed.

Theorem SFsub_spec x y :
  SFvalid x -> SFvalid y -> rounds (SF2R x - SF2R y) (SFsub prec emax x y).
Proof.
  intros Hx Hy.
  destruct x as [sx|sx| |sx mx ex]; try (destruct Hx; discriminate);
  destruct y as [sy|sy| |sy my ey]; try (destruct Hy; discriminate).
  - left. simpl. split; [lra|]. destruct sx, sy; eexists; reflexivity.
  - simpl SFsub.
    replace (SF2R (S754_zero sx) - SF2R (S754_finite sy my ey))
      with (SF2R (S754_finite (negb sy) my ey)) by (simpl; destruct sy; simpl; lra).
    apply rounds_self. exact (SFopp_valid _ Hy).
  - simpl SFsub. replace (SF2R (S754_finite sx mx ex) - SF2R (S754_zero sy))
      with (SF2R (S754_finite sx mx ex)) by (simpl; destruct sx; lra).
    apply rounds_self. assumption.
  - unfold SFsub.
    pose proof (aligned_sum sx mx ex sy my ey) as [Ax Ay]. cbv zeta in Ax, Ay.
    rewrite <- Ax, <- Ay, <- Rmult_minus_distr_r, <- minus_IZR.
    apply binary_normalize_spec.
Qed.

End RoundOps.

Section Division.
Local Open Scope R_scope.

Lemma new_location_located (m2 q r : Z) :
  (0 < m2)%Z -> (0 <= r < m2)%Z ->
  let l := new_location m2 r in
  located (IZR q + IZR r / IZR m2) q
    (shr_r (shr_record_of_loc q l)) (shr_s (shr_record_of_loc q l)).
Proof.
  intros Hm2 Hr.
  assert (Hm2R : 0 < IZR m2) by (apply IZR_lt; assumption).
  assert (Hhalf : forall c, Z.compare (2 * r) m2 = c ->
            match c with
            | Lt => IZR r / IZR m2 < / 2
            | Eq => IZR r / IZR m2 = / 2
            | Gt => / 2 < IZR r / IZR m2
            end).
  { intros c Hc. destruct c.
    - apply Z.compare_eq in Hc. rewrite <- Hc, mult_IZR. field_simplify; [lra|].
      intros E. rewrite <- Hc, mult_IZR in Hm2R. lra.
    - rewrite Z.compare_lt_iff in Hc. apply IZR_lt in Hc. rewrite mult_IZR in Hc.
      apply Rmult_lt_reg_r with (IZR m2); [assumption|].
      unfold Rdiv. rewrite Rmult_assoc, Rinv_l by lra. lra.
    - rewrite Z.compare_gt_iff in Hc. apply IZR_lt in Hc. rewrite mult_IZR in Hc.
      apply Rmult_lt_reg_r with (IZR m2); [assumption|].
      unfold Rdiv. rewrite Rmult_assoc, Rinv_l by lra. lra. }
  assert (Hlt1 : IZR r / IZR m2 < 1).
  { apply Rmult_lt_reg_r with (IZR m2); [assumption|].
    unfold Rdiv. rewrite Rmult_assoc, Rinv_l by lra.
    assert (IZR r < IZR m2) by (apply IZR_lt; lia). lra. }
  assert (Hpos : r <> 0%Z -> 0 < IZR r / IZR m2).
  { intros Hne. apply Rdiv_lt_0_compat; [|assumption]. apply IZR_lt. lia. }
  unfold new_location, new_location_even, new_location_odd.
  destruct (Z.even m2) eqn:Hev.
  - destruct (Z.eqb_spec r 0) as [->|Hne].
    + simpl. unfold Rdiv. rewrite Rmult_0_l. lra.
    + specialize (Hpos Hne). specialize (Hhalf _ eq_refl).
      destruct (2 * r ?= m2)%Z; simpl; lra.
  - destruct (Z.eqb_spec r 0) as [->|Hne].
    + simpl. unfold Rdiv. rewrite Rmult_0_l. lra.
    + specialize (Hpos Hne).
      assert (Hodd : (2 * r <> m2)%Z).
      { intros E. rewrite <- E, Z.even_mul in Hev. discriminate. }
      destruct (2 * r + 1 ?= m2)%Z eqn:Hc.
      * apply Z.compare_eq in Hc.
        assert (Hc' : (2 * r ?= m2)%Z = Lt) by (rewrite Z.compare_lt_iff; lia).
        specialize (Hhalf _ Hc'). simpl in *. lra.
      * rewrite Z.compare_lt_iff in Hc.
        assert (Hc' : (2 * r ?= m2)%Z = Lt) by (rewrite Z.compare_lt_iff; lia).
        specialize (Hhalf _ Hc'). simpl in *. lra.
      * rewrite Z.compare_gt_iff in Hc.
        assert (Hc' : (2 * r ?= m2)%Z = Gt) by (rewrite Z.compare_gt_iff; lia).
        specialize (Hhalf _ Hc'). simpl in *. lra.
Qed.

Lemma SFdiv_core_binary_spec (m1 m2 : positive) (e1 e2 : Z) :
  (Zpos (digits2_pos m1) <= 53)%Z ->
  let v := (IZR (Zpos m1) * pow2 e1) / (IZR (Zpos m2) * pow2 e2) in
  let '(q, e', l) := SFdiv_core_binary prec emax (Zpos m1) e1 (Zpos m2) e2 in
  (0 <= q)%Z /\ located_rec v (shr_record_of_loc q l) e' /\
  (e' <= fexp prec emax (Zdigits2 q + e'))%Z.
Proof.
  intros Hd1 v. unfold SFdiv_core_binary.
  simpl Zdigits2. rewrite !fexp_eq.
  set (d1 := Zpos (digits2_pos m1)) in *.
  set (d2 := Zpos (digits2_pos m2)) in *.
  set (e' := Z.min (Z.max (d1 + e1 - (d2 + e2) - 53) (-1074)) (e1 - e2)).
  set (s := (e1 - e2 - e')%Z).
  assert (Hs : (0 <= s)%Z) by (unfold s, e'; lia).
  set (m' := match s with
             | 0%Z => Zpos m1
             | Zpos _ => Z.shiftl (Zpos m1) s
             | Zneg _ => 0%Z
             end).
  assert (Hm' : m' = (Zpos m1 * 2 ^ s)%Z).
  { unfold m'. generalize Hs. generalize s. intros [|p|p] Hp; try lia.
    apply Z.shiftl_mul_pow2. lia. }
  clearbody m'.
  pose proof (Z.div_eucl_eq m' (Zpos m2) ltac:(lia)) as Heq.
  pose proof (Z.mod_pos_bound m' (Zpos m2) ltac:(lia)) as Hr.
  unfold Z.modulo in Hr.
  destruct (Z.div_eucl m' (Zpos m2)) as [q r].
  pose proof (Z.pow_pos_nonneg 2 s ltac:(lia) Hs) as H2s.
  assert (Hq : (0 <= q)%Z) by nia.
  split; [assumption|].
  pose proof (pow2_pos e1). pose proof (pow2_pos e2). pose proof (pow2_pos e').
  assert (Hm2R : 0 < IZR (Zpos m2)) by (apply IZR_lt; lia).
  assert (Hu : v / pow2 e' = IZR q + IZR r / IZR (Zpos m2)).
  { assert (IZR m' = IZR (Zpos m2) * IZR q + IZR r) as Hm'R
      by (rewrite <- mult_IZR, <- plus_IZR; f_equal; exact Heq).
    rewrite Hm', mult_IZR, <- pow2_IZR in Hm'R by assumption.
    unfold s in Hm'R. rewrite !pow2_sub in Hm'R.
    unfold v.
    transitivity (IZR (Zpos m1) * (pow2 e1 / pow2 e2 / pow2 e') / IZR (Zpos m2));
      [field; lra|].
    rewrite Hm'R. field. lra. }
  split.
  - split; [rewrite shr_record_of_loc_m; assumption|].
    rewrite shr_record_of_loc_m, Hu.
    apply new_location_located; lia.
  - rewrite fexp_eq.
    destruct (Z_le_gt_dec e' (-1074)) as [Hle|Hgt]; [lia|].
    assert (He' : e' = (d1 + e1 - (d2 + e2) - 53)%Z).
    { unfold e' in *. pose proof (digits2_pos_bounds m2). lia. }
    assert (Hsv : s = (53 - d1 + d2)%Z) by (unfold s; lia).
    pose proof (digits2_pos_bounds m1) as [Hlo1 _]. fold d1 in Hlo1.
    pose proof (digits2_pos_bounds m2) as [_ Hhi2]. fold d2 in Hhi2.
    assert (Hq52 : (2 ^ 52 <= q)%Z).
    { assert (2 ^ 52 * 2 ^ d2 <= Zpos m1 * 2 ^ s)%Z.
      { rewrite Hsv. replace (53 - d1 + d2)%Z with ((53 - d1) + d2)%Z by lia.
        rewrite Z.pow_add_r by (unfold d1, d2 in *; lia).
        assert (2 ^ 52 <= Zpos m1 * 2 ^ (53 - d1))%Z.
        { replace 52%Z with ((d1 - 1) + (53 - d1))%Z by lia.
          rewrite Z.pow_add_r by (unfold d1 in *; lia).
          apply Z.mul_le_mono_nonneg_r; [|assumption].
          apply Z.pow_nonneg; lia. }
        rewrite Z.mul_assoc.
        apply Z.mul_le_mono_nonneg_r; [|assumption].
        apply Z.pow_nonneg; lia. }
      nia. }
    assert (53 <= Zdigits2 q)%Z.
    { pose proof (Zdigits2_bounds q ltac:(lia)) as [_ Hhi].
      destruct (Z_le_gt_dec 53 (Zdigits2 q)); [assumption|].
      assert (2 ^ Zdigits2 q <= 2 ^ 52)%Z
        by (apply Z.pow_le_mono_r; [lia|]; lia). lia. }
    lia.
Qed.

Lemma bounded_digits (m : positive) (e : Z) :
  bounded prec emax m e = true -> (Zpos (digits2_pos m) <= 53)%Z.
Proof.
  intros Hb. apply bounded_elim in Hb. destruct Hb as (_ & Hm & _).
  pose proof (digits2_pos_bounds m) as [Hlo _].
  destruct (Z_le_gt_dec (Zpos (digits2_pos m)) 53); [assumption|].
  assert (2 ^ 53 <= 2 ^ (Zpos (digits2_pos m) - 1))%Z
    by (apply Z.pow_le_mono_r; lia). lia.
Qed.

Theorem SFdiv_spec x y :
  SFvalid x -> SFvalid y -> SF2R y <> 0 ->
  rounds (SF2R x / SF2R y) (SFdiv prec emax x y).
Proof.
  intros Hx Hy Hy0.
  destruct x as [sx|sx| |sx mx ex]; try (destruct Hx; discriminate);
  destruct y as [sy|sy| |sy my ey]; try (destruct Hy; discriminate);
  try (simpl in Hy0; lra).
  - left. simpl. split; [unfold Rdiv; rewrite Rmult_0_l; reflexivity|].
    eexists; reflexivity.
  - unfold SFdiv.
    destruct Hx as [Hx _]. simpl in Hx. pose proof (bounded_digits _ _ Hx) as Hd.
    pose proof (SFdiv_core_binary_spec mx my ex ey Hd) as H.
    destruct (SFdiv_core_binary prec emax (Zpos mx) ex (Zpos my) ey) as [[q e'] l].
    cbv zeta in H. destruct H as (Hq & Hloc & Hpre).
    pose proof (pow2_pos ex). pose proof (pow2_pos ey).
    assert (0 < IZR (Zpos mx)) by (apply IZR_lt; lia).
    assert (0 < IZR (Zpos my)) by (apply IZR_lt; lia).
    set (v := IZR (Zpos mx) * pow2 ex / (IZR (Zpos my) * pow2 ey)) in *.
    assert (Hv : 0 < v) by (apply Rdiv_lt_0_compat; nra).
    pose proof (binary_round_aux_spec (xorb sx sy) q e' l v Hq Hv Hloc Hpre) as Hr.
    destruct sx, sy; simpl xorb in *; simpl SF2R.
    + right; left.
      replace (- (IZR (Zpos mx) * pow2 ex) / - (IZR (Zpos my) * pow2 ey)) with v
        by (unfold v; field; lra).
      split; assumption.
    + right; right.
      replace (- (- (IZR (Zpos mx) * pow2 ex) / (IZR (Zpos my) * pow2 ey))) with v
        by (unfold v; field; lra).
      split; [|assumption].
      replace (- (IZR (Zpos mx) * pow2 ex) / (IZR (Zpos my) * pow2 ey)) with (- v)
        by (unfold v; field; lra). lra.
    + right; right.
      replace (- (IZR (Zpos mx) * pow2 ex / - (IZR (Zpos my) * pow2 ey))) with v
        by (unfold v; field; lra).
      split; [|assumption].
      replace (IZR (Zpos mx) * pow2 ex / - (IZR (Zpos my) * pow2 ey)) with (- v)
        by (unfold v; field; lra). lra.
    + right; left. split; assumption.
Qed.

End Division.

Section RoundedValue.
Local Open Scope R_scope.

Lemma cexp_of_mono v1 v2 e1 e2 :
  cexp_of v1 e1 -> cexp_of v2 e2 -> v1 <= v2 -> (e1 <= e2)%Z.
Proof.
  intros (A1 & B1 & C1) (A2 & B2 & C2) Hv.
  destruct (Z_le_gt_dec e1 e2) as [|Hgt]; [assumption|exfalso].
  assert (pow2 (e1 + 52) < pow2 (e2 + 53)).
  { apply Rle_lt_trans with v1; [apply C1; lia|]. lra. }
  apply pow2_lt_inv in H. lia.
Qed.

Lemma cexp_of_unique v e1 e2 : cexp_of v e1 -> cexp_of v e2 -> e1 = e2.
Proof.
  intros H1 H2.
  pose proof (cexp_of_mono v v e1 e2 H1 H2 (Rle_refl v)).
  pose proof (cexp_of_mono v v e2 e1 H2 H1 (Rle_refl v)). lia.
Qed.

Lemma rval_unique v r1 r2 : rval v r1 -> rval v r2 -> r1 = r2.
Proof.
  intros (e1 & K1 & C1 & N1 & ->) (e2 & K2 & C2 & N2 & ->).
  pose proof (cexp_of_unique v e1 e2 C1 C2). subst e2.
  pose proof (rne_unique _ _ _ N1 N2). subst K2. reflexivity.
Qed.

Lemma rval_mono v1 v2 r1 r2 :
  0 < v1 -> v1 <= v2 -> rval v1 r1 -> rval v2 r2 -> r1 <= r2.
Proof.
  intros Hv1 Hv (e1 & K1 & C1 & N1 & ->) (e2 & K2 & C2 & N2 & ->).
  pose proof (cexp_of_mono _ _ _ _ C1 C2 Hv) as He.
  pose proof (cexp_of_rne_bounds _ _ _ Hv1 C1 N1) as [[_ HK1] _].
  assert (Hv2 : 0 < v2) by lra.
  pose proof (cexp_of_rne_bounds _ _ _ Hv2 C2 N2) as [[HK2 _] HK2'].
  pose proof (pow2_pos e1). pose proof (pow2_pos e2).
  destruct (Z.eq_dec e1 e2) as [->|Hne].
  - apply Rmult_le_compat_r; [lra|]. apply IZR_le.
    apply (rne_mono _ _ _ _ N1 N2).
    apply Rmult_le_compat_r; [|assumption].
    apply Rlt_le, Rinv_0_lt_compat. assumption.
  - apply Rle_trans with (pow2 53 * pow2 e1).
    + apply Rmult_le_compat_r; [lra|]. rewrite pow2_53. apply IZR_le. assumption.
    + apply Rle_trans with (pow2 52 * pow2 e2).
      * rewrite <- !pow2_add. apply pow2_le. lia.
      * apply Rmult_le_compat_r; [lra|]. rewrite pow2_52. apply IZR_le.
        apply HK2'. destruct C1. lia.
Qed.

Lemma rval_nonneg v r : 0 < v -> rval v r -> 0 <= r.
Proof.
  intros Hv (e & K & C & N & ->).
  pose proof (cexp_of_rne_bounds _ _ _ Hv C N) as [[HK _] _].
  pose proof (pow2_pos e). apply IZR_le in HK. nra.
Qed.

(** A real that is a short integer times a power of two in range rounds to
    itself. *)
Lemma rval_exact v r (k e0 : Z) :
  (0 < k < 2 ^ 53)%Z -> (-1074 <= e0)%Z -> v = IZR k * pow2 e0 ->
  rval v r -> r = v.
Proof.
  intros Hk He0 Hv (e & K & C & N & ->).
  pose proof (pow2_pos e0). pose proof (pow2_pos e).
  assert (Hkpos : 0 < IZR k) by (apply IZR_lt; lia).
  assert (Hee : (e <= e0)%Z).
  { destruct C as (A & B & C).
    destruct (Z.eq_dec e (-1074)) as [->|Hne]; [assumption|].
    assert (pow2 (e + 52) < pow2 (53 + e0)).
    { apply Rle_lt_trans with v; [apply C; lia|].
      rewrite Hv, pow2_add, pow2_53.
      apply Rmult_lt_compat_r; [assumption|]. apply IZR_lt. lia. }
    apply pow2_lt_inv in H1. lia. }
  assert (Hu : v / pow2 e = IZR (k * 2 ^ (e0 - e))).
  { rewrite mult_IZR, <- pow2_IZR by lia. rewrite Hv, pow2_sub. field. lra. }
  rewrite Hu in N.
  pose proof (rne_unique _ _ _ N (rne_IZR _)). subst K.
  rewrite <- Hu. field. lra.
Qed.

Lemma rval_error v r :
  0 < v -> rval v r ->
  Rabs (r - v) <= pow2 (-1075) \/ Rabs (r - v) <= pow2 (-53) * v.
Proof.
  intros Hv (e & K & C & [N _] & ->).
  pose proof (pow2_pos e) as Hp.
  assert (Herr : Rabs (IZR K * pow2 e - v) <= pow2 (e - 1)).
  { rewrite pow2_pred.
    replace (IZR K * pow2 e - v) with ((IZR K - v / pow2 e) * pow2 e)
      by (field; lra).
    rewrite Rabs_mult, (Rabs_pos_eq (pow2 e)) by lra.
    assert (Rabs (IZR K - v / pow2 e) <= / 2) by (apply Rabs_le; lra).
    nra. }
  destruct C as (A & B & C).
  destruct (Z.eq_dec e (-1074)) as [->|Hne].
  - left. exact Herr.
  - right. apply Rle_trans with (1 := Herr).
    apply Rle_trans with (pow2 (-53) * pow2 (e + 52)).
    + rewrite <- pow2_add. apply pow2_le. lia.
    + pose proof (pow2_pos (-53)). apply Rmult_le_compat_l; [lra|].
      apply C. lia.
Qed.

Lemma rval_rel_error v r :
  pow2 (-1022) <= v -> rval v r -> Rabs (r - v) <= pow2 (-53) * v.
Proof.
  intros Hv Hr. pose proof (pow2_pos (-1022)).
  destruct (rval_error v r ltac:(lra) Hr) as [Ha|Hrel]; [|assumption].
  apply Rle_trans with (1 := Ha).
  apply Rle_trans with (pow2 (-53) * pow2 (-1022)).
  - rewrite <- pow2_add. apply pow2_le. lia.
  - pose proof (pow2_pos (-53)). apply Rmult_le_compat_l; lra.
Qed.

End RoundedValue.

Section Compare.
Local Open Scope R_scope.

Lemma bounded_compare (m1 m2 : positive) (e1 e2 : Z) :
  bounded prec emax m1 e1 = true -> bounded prec emax m2 e2 = true ->
  match (match (e1 ?= e2)%Z with
         | Lt => Lt
         | Gt => Gt
         | Eq => Pos.compare_cont Eq m1 m2
         end) with
  | Lt => IZR (Zpos m1) * pow2 e1 < IZR (Zpos m2) * pow2 e2
  | Eq => IZR (Zpos m1) * pow2 e1 = IZR (Zpos m2) * pow2 e2
  | Gt => IZR (Zpos m2) * pow2 e2 < IZR (Zpos m1) * pow2 e1
  end.
Proof.
  intros H1 H2.
  apply bounded_elim in H1. destruct H1 as (A1 & B1 & C1).
  apply bounded_elim in H2. destruct H2 as (A2 & B2 & C2).
  pose proof (pow2_pos e1). pose proof (pow2_pos e2).
  assert (Hlt : forall (ma mb : positive) ea eb,
            (ea < eb)%Z -> (Zpos ma < 2 ^ 53)%Z -> (2 ^ 52 <= Zpos mb)%Z ->
            IZR (Zpos ma) * pow2 ea < IZR (Zpos mb) * pow2 eb).
  { intros ma mb ea eb He Ha Hb.
    pose proof (pow2_pos ea). pose proof (pow2_pos eb).
    apply Rlt_le_trans with (pow2 53 * pow2 ea).
    - apply Rmult_lt_compat_r; [assumption|]. rewrite pow2_53. apply IZR_lt. assumption.
    - apply Rle_trans with (pow2 52 * pow2 eb).
      + rewrite <- !pow2_add. apply pow2_le. lia.
      + apply Rmult_le_compat_r; [lra|]. rewrite pow2_52. apply IZR_le. assumption. }
  destruct (e1 ?= e2)%Z eqn:He.
  - apply Z.compare_eq in He. subst e2.
    change (Pos.compare_cont Eq m1 m2) with (Pos.compare m1 m2).
    destruct (Pos.compare_spec m1 m2) as [->|Hm|Hm].
    + reflexivity.
    + apply Rmult_lt_compat_r; [assumption|]. apply IZR_lt. lia.
    + apply Rmult_lt_compat_r; [assumption|]. apply IZR_lt. lia.
  - rewrite Z.compare_lt_iff in He. apply Hlt; [assumption|assumption|].
    apply C2. lia.
  - rewrite Z.compare_gt_iff in He. apply Hlt; [assumption|assumption|].
    apply C1. lia.
Qed.

Lemma SFcompare_spec x y :
  SFvalid x -> SFvalid y ->
  exists c, SFcompare x y = Some c /\
    match c with
    | Lt => SF2R x < SF2R y
    | Eq => SF2R x = SF2R y
    | Gt => SF2R y < SF2R x
    end.
Proof.
  intros [Vx Fx] [Vy Fy].
  destruct x as [sx|sx| |sx mx ex]; try discriminate;
  destruct y as [sy|sy| |sy my ey]; try discriminate; simpl in Vx, Vy.
  - exists Eq. split; reflexivity.
  - pose proof (pow2_pos ey). assert (0 < IZR (Zpos my)) by (apply IZR_lt; lia).
    destruct sy; [exists Gt | exists Lt]; split; try reflexivity; simpl; nra.
  - pose proof (pow2_pos ex). assert (0 < IZR (Zpos mx)) by (apply IZR_lt; lia).
    destruct sx; [exists Lt | exists Gt]; split; try reflexivity; simpl; nra.
  - pose proof (pow2_pos ex). assert (0 < IZR (Zpos mx)) by (apply IZR_lt; lia).
    pose proof (pow2_pos ey). assert (0 < IZR (Zpos my)) by (apply IZR_lt; lia).
    destruct sx, sy.
    + pose proof (bounded_compare mx my ex ey Vx Vy) as Hc.
      simpl SFcompare. simpl SF2R.
      destruct (ex ?= ey)%Z.
      * destruct (Pos.compare_cont Eq mx my);
          [exists Eq | exists Gt | exists Lt]; split; try reflexivity; lra.
      * exists Gt. split; [reflexivity|]. lra.
      * exists Lt. split; [reflexivity|]. lra.
    + exists Lt. split; [reflexivity|]. simpl. nra.
    + exists Gt. split; [reflexivity|]. simpl. nra.
    + pose proof (bounded_compare mx my ex ey Vx Vy) as Hc.
      simpl SFcompare. simpl SF2R.
      destruct (ex ?= ey)%Z.
      * destruct (Pos.compare_cont Eq mx my);
          [exists Eq | exists Lt | exists Gt]; split; try reflexivity; lra.
      * exists Lt. split; [reflexivity|]. lra.
      * exists Gt. split; [reflexivity|]. lra.
Qed.

Lemma SFleb_R x y :
  SFvalid x -> SFvalid y -> (SFleb x y = true <-> SF2R x <= SF2R y).
Proof.
  intros Hx Hy. destruct (SFcompare_spec x y Hx Hy) as (c & Hc & Hr).
  unfold SFleb. rewrite Hc.
  destruct c; split; intros H; try reflexivity; try discriminate; lra.
Qed.

Lemma SFltb_R x y :
  SFvalid x -> SFvalid y -> (SFltb x y = true <-> SF2R x < SF2R y).
Proof.
  intros Hx Hy. destruct (SFcompare_spec x y Hx Hy) as (c & Hc & Hr).
  unfold SFltb. rewrite Hc.
  destruct c; split; intros H; try reflexivity; try discriminate; lra.
Qed.

Lemma SFeqb_R x y :
  SFvalid x -> SFvalid y -> (SFeqb x y = true <-> SF2R x = SF2R y).
Proof.
  intros Hx Hy. destruct (SFcompare_spec x y Hx Hy) as (c & Hc & Hr).
  unfold SFeqb. rewrite Hc.
  destruct c; split; intros H; try reflexivity; try discriminate; lra.
Qed.

(** Two finite floats with the same non-zero value are the same float. *)
Lemma SF2R_inj x y :
  SFvalid x -> SFvalid y -> SF2R x = SF2R y -> SF2R x <> 0 -> x = y.
Proof.
  intros [Vx Fx] [Vy Fy] Heq Hne.
  destruct x as [sx|sx| |sx mx ex]; try discriminate; [simpl in Hne; lra|].
  destruct y as [sy|sy| |sy my ey]; try discriminate;
    [simpl in Heq, Hne; lra|].
  simpl in Vx, Vy.
  pose proof (pow2_pos ex). assert (0 < IZR (Zpos mx)) by (apply IZR_lt; lia).
  pose proof (pow2_pos ey). assert (0 < IZR (Zpos my)) by (apply IZR_lt; lia).
  assert (Hs : sx = sy).
  { destruct sx, sy; try reflexivity; simpl in Heq; nra. }
  subst sy.
  assert (Hv : IZR (Zpos mx) * pow2 ex = IZR (Zpos my) * pow2 ey)
    by (destruct sx; simpl in Heq; lra).
  pose proof (cexp_of_bounded _ _ Vx) as Cx.
  pose proof (cexp_of_bounded _ _ Vy) as Cy.
  rewrite Hv in Cx. pose proof (cexp_of_unique _ _ _ Cx Cy). subst ey.
  assert (IZR (Zpos mx) = IZR (Zpos my)) by nra.
  apply eq_IZR in H3. congruence.
Qed.

End Compare.

Section RoundsFacts.
Local Open Scope R_scope.

Lemma rounds_pos_cases s v z :
  0 < v -> rounds_pos s v z ->
  exists r, rval v r /\ 0 <= r /\
    ((r < pow2 1024 /\ SFvalid z /\ SF2R z = if s then - r else r) \/
     (pow2 1024 <= r /\ z = S754_infinity s)).
Proof.
  intros Hv (e & K & C & N & E).
  exists (IZR K * pow2 e). split; [exists e, K; auto|].
  pose proof (cexp_of_rne_bounds _ _ _ Hv C N) as [[HK _] _].
  pose proof (pow2_pos e). pose proof (pow2_pos 1024).
  split; [apply IZR_le in HK; nra|].
  destruct E as [[-> ->]|[(HK0 & Hlt & m & e' & -> & Hb & Hval)|(HK0 & Hge & ->)]].
  - left. rewrite Rmult_0_l. split; [lra|]. split; [split; reflexivity|].
    simpl. destruct s; lra.
  - left. split; [assumption|]. split; [split; [exact Hb|reflexivity]|].
    simpl. rewrite Hval. reflexivity.
  - right. split; [assumption|reflexivity].
Qed.

Lemma rounds_pos_opp s v z :
  rounds_pos s v z -> rounds_pos (negb s) v (SFopp z).
Proof.
  intros (e & K & C & N & E). exists e, K. split; [assumption|]. split; [assumption|].
  destruct E as [[-> ->]|[(HK0 & Hlt & m & e' & -> & Hb & Hval)|(HK0 & Hge & ->)]].
  - left. split; reflexivity.
  - right; left. split; [assumption|]. split; [assumption|].
    exists m, e'. auto.
  - right; right. split; [assumption|]. split; [assumption|reflexivity].
Qed.

Lemma rounds_opp v z : rounds v z -> rounds (- v) (SFopp z).
Proof.
  intros [[-> [s ->]]|[[Hv H]|[Hv H]]].
  - left. split; [lra|]. eexists; reflexivity.
  - right; right. split; [lra|]. rewrite Ropp_involutive.
    exact (rounds_pos_opp _ _ _ H).
  - right; left. split; [lra|]. exact (rounds_pos_opp _ _ _ H).
Qed.

Lemma dyadic_pos b : dyadic b -> 0 < b.
Proof.
  intros (k & e & Hk & He & -> & _). pose proof (pow2_pos e).
  assert (0 < IZR k) by (apply IZR_lt; lia). nra.
Qed.

Lemma dyadic_rval b : dyadic b -> rval b b.
Proof.
  intros (k & e0 & Hk & He & Hb & Hlt).
  destruct k as [|k|k]; try lia.
  destruct (binary_round_spec false k e0) as (e & K & C & N & _).
  rewrite <- Hb in C, N.
  assert (Hr : rval b (IZR K * pow2 e)) by (exists e, K; auto).
  rewrite <- (rval_exact b _ (Zpos k) e0 Hk He Hb Hr) at 2. exact Hr.
Qed.

Lemma dyadic_pow2 n : (-1074 <= n <= 1023)%Z -> dyadic (pow2 n).
Proof.
  intros Hn. exists 1%Z, n. repeat split; try lia.
  - lra.
  - apply pow2_lt. lia.
Qed.

Lemma dyadic_IZR k : (0 < k < 2 ^ 53)%Z -> dyadic (IZR k).
Proof.
  intros Hk. exists k, 0%Z. repeat split; try lia.
  - rewrite pow2_0. lra.
  - apply Rlt_le_trans with (pow2 53).
    + rewrite pow2_53. apply IZR_lt. lia.
    + apply pow2_le. lia.
Qed.

Lemma dyadic_1 : dyadic 1.
Proof. exact (dyadic_IZR 1 ltac:(lia)). Qed.

Lemma SFvalid_dyadic x : SFvalid x -> 0 < SF2R x -> dyadic (SF2R x).
Proof.
  intros [Vx Fx] Hpos.
  destruct x as [sx|sx| |sx mx ex]; try discriminate; [simpl in Hpos; lra|].
  simpl in Vx. pose proof (pow2_pos ex).
  assert (0 < IZR (Zpos mx)) by (apply IZR_lt; lia).
  destruct sx; [simpl in Hpos; nra|].
  pose proof (bounded_elim _ _ Vx) as (He & Hm & _).
  exists (Zpos mx), ex. repeat split; try lia.
  apply bounded_lt_overflow. assumption.
Qed.

Lemma rounds_zero z : rounds 0 z -> SFvalid z /\ SF2R z = 0.
Proof.
  intros [[_ [s ->]]|[[Hv _]|[Hv _]]]; try lra.
  split; [split; reflexivity | reflexivity].
Qed.

Lemma rounds_positive v z :
  0 < v -> rounds v z ->
  exists r, rval v r /\ 0 <= r /\
    ((r < pow2 1024 /\ SFvalid z /\ SF2R z = r) \/
     (pow2 1024 <= r /\ z = S754_infinity false)).
Proof.
  intros Hv [[-> _]|[[_ H]|[Hv' _]]]; try lra.
  exact (rounds_pos_cases false v z Hv H).
Qed.

Lemma rounds_upper v z b :
  rounds v z -> 0 <= v <= b -> dyadic b -> SFvalid z /\ 0 <= SF2R z <= b.
Proof.
  intros H [Hv0 Hvb] Hb. pose proof (dyadic_pos b Hb).
  destruct (Req_dec v 0) as [->|Hne].
  - destruct (rounds_zero z H) as [Hz ->]. split; [assumption|lra].
  - assert (Hv : 0 < v) by lra.
    destruct (rounds_positive v z Hv H) as (r & Hr & Hr0 & Hc).
    pose proof (rval_mono v b r b Hv Hvb Hr (dyadic_rval b Hb)) as Hle.
    destruct Hb as (k & e & _ & _ & _ & Hlt).
    destruct Hc as [(_ & Hz & ->)|(Hge & _)]; [|lra].
    split; [assumption|lra].
Qed.

Lemma rounds_lower v z b :
  rounds v z -> dyadic b -> b <= v ->
  (SFvalid z /\ b <= SF2R z) \/ z = S754_infinity false.
Proof.
  intros H Hb Hbv. pose proof (dyadic_pos b Hb).
  assert (Hv : 0 < v) by lra.
  destruct (rounds_positive v z Hv H) as (r & Hr & Hr0 & Hc).
  pose proof (rval_mono b v b r H0 Hbv (dyadic_rval b Hb) Hr) as Hle.
  destruct Hc as [(_ & Hz & Hval)|(_ & ->)]; [left|right; reflexivity].
  split; [assumption|lra].
Qed.

Lemma rounds_between v z a b :
  rounds v z -> dyadic a -> dyadic b -> a <= v <= b ->
  SFvalid z /\ a <= SF2R z <= b.
Proof.
  intros H Ha Hb [Hav Hvb]. pose proof (dyadic_pos a Ha).
  destruct (rounds_upper v z b H ltac:(lra) Hb) as [Hz [_ Hub]].
  destruct (rounds_lower v z a H Ha Hav) as [[_ Hlb]| ->].
  - split; [assumption|lra].
  - destruct Hz; discriminate.
Qed.

Lemma rounds_exact v z : rounds v z -> dyadic v -> SFvalid z /\ SF2R z = v.
Proof.
  intros H Hv.
  destruct (rounds_between v z v v H Hv Hv ltac:(lra)) as [Hz Hb].
  split; [assumption|lra].
Qed.

Lemma rounds_abs_upper v z b :
  rounds v z -> Rabs v <= b -> dyadic b -> SFvalid z /\ Rabs (SF2R z) <= b.
Proof.
  intros H Hv Hb. pose proof (dyadic_pos b Hb).
  destruct (Rle_dec 0 v) as [Hpos|Hneg].
  - rewrite Rabs_pos_eq in Hv by assumption.
    destruct (rounds_upper v z b H ltac:(lra) Hb) as [Hz Hr].
    split; [assumption|]. rewrite Rabs_pos_eq; lra.
  - rewrite Rabs_left in Hv by lra.
    destruct (rounds_upper (- v) (SFopp z) b (rounds_opp v z H) ltac:(lra) Hb)
      as [Hz Hr].
    rewrite SF2R_opp in Hr.
    split.
    + apply SFopp_valid in Hz. destruct z; exact Hz.
    + apply Rabs_le. lra.
Qed.

Lemma SFleb_infinity z :
  SFvalid z -> SFleb z (S754_infinity false) = true.
Proof.
  intros [_ Hf]. destruct z as [s|s| |s m e]; try discriminate; reflexivity.
Qed.

(** Rounding is monotone, overflow included. *)
Lemma rounds_mono v1 v2 z1 z2 :
  rounds v1 z1 -> rounds v2 z2 -> 0 <= v1 <= v2 -> SFleb z1 z2 = true.
Proof.
  intros H1 H2 [Hv1 Hv].
  destruct (Req_dec v1 0) as [->|Hne1].
  - destruct (rounds_zero z1 H1) as [Hz1 Hr1].
    destruct (Req_dec v2 0) as [->|Hne2].
    + destruct (rounds_zero z2 H2) as [Hz2 Hr2].
      apply SFleb_R; [assumption|assumption|lra].
    + assert (Hv2 : 0 < v2) by lra.
      destruct (rounds_positive v2 z2 Hv2 H2) as (r2 & _ & Hr0 & Hc).
      destruct Hc as [(_ & Hz2 & Hval)|(_ & ->)].
      * apply SFleb_R; [assumption|assumption|lra].
      * apply SFleb_infinity. assumption.
  - assert (Hp1 : 0 < v1) by lra. assert (Hp2 : 0 < v2) by lra.
    destruct (rounds_positive v1 z1 Hp1 H1) as (r1 & Hr1 & _ & Hc1).
    destruct (rounds_positive v2 z2 Hp2 H2) as (r2 & Hr2 & _ & Hc2).
    pose proof (rval_mono v1 v2 r1 r2 Hp1 Hv Hr1 Hr2) as Hle.
    destruct Hc1 as [(Hlt1 & Hz1 & Hval1)|(Hge1 & ->)];
    destruct Hc2 as [(Hlt2 & Hz2 & Hval2)|(Hge2 & ->)].
    + apply SFleb_R; [assumption|assumption|lra].
    + apply SFleb_infinity. assumption.
    + lra.
    + reflexivity.
Qed.

Lemma rounds_rel_error v z :
  rounds v z -> SFvalid z -> pow2 (-1022) <= v ->
  Rabs (SF2R z - v) <= pow2 (-53) * v.
Proof.
  intros H Hz Hv. pose proof (pow2_pos (-1022)).
  assert (Hv0 : 0 < v) by lra.
  destruct (rounds_positive v z Hv0 H) as (r & Hr & _ & Hc).
  destruct Hc as [(_ & _ & ->)|(_ & ->)].
  - apply rval_rel_error; assumption.
  - destruct Hz; discriminate.
Qed.

Lemma rounds_valid v z : rounds v z -> SpecFloat.valid_binary prec emax z = true.
Proof.
  intros [[_ [s ->]]|[[Hv H]|[Hv H]]]; [reflexivity| |].
  - destruct (rounds_pos_cases _ _ _ Hv H) as (r & _ & _ & [(_ & [Hz _] & _)|(_ & ->)]);
      [assumption|reflexivity].
  - assert (Hv' : 0 < - v) by lra.
    destruct (rounds_pos_cases _ _ _ Hv' H)
      as (r & _ & _ & [(_ & [Hz _] & _)|(_ & ->)]);
      [assumption|reflexivity].
Qed.

End RoundsFacts.

Section PrimFloats.
Local Open Scope R_scope.

Lemma finite_SFvalid x : finite x -> SFvalid (Prim2SF x).
Proof. intros H. split; [apply Prim2SF_valid | exact H]. Qed.

Lemma SFvalid_finite x : SFvalid (Prim2SF x) -> finite x.
Proof. intros [_ H]. exact H. Qed.

Lemma add_Rounds x y :
  finite x -> finite y -> Rounds (B2R x + B2R y) (x + y)%float.
Proof.
  intros Hx Hy. unfold Rounds. rewrite add_spec.
  apply SFadd_spec; apply finite_SFvalid; assumption.
Qed.

Lemma sub_Rounds x y :
  finite x -> finite y -> Rounds (B2R x - B2R y) (x - y)%float.
Proof.
  intros Hx Hy. unfold Rounds. rewrite sub_spec.
  apply SFsub_spec; apply finite_SFvalid; assumption.
Qed.

Lemma div_Rounds x y :
  finite x -> finite y -> B2R y <> 0 -> Rounds (B2R x / B2R y) (x / y)%float.
Proof.
  intros Hx Hy Hy0. unfold Rounds. rewrite div_spec.
  apply SFdiv_spec; try apply finite_SFvalid; assumption.
Qed.

Lemma leb_B2R x y :
  finite x -> finite y -> ((x <=? y)%float = true <-> B2R x <= B2R y).
Proof.
  intros Hx Hy. rewrite leb_spec. apply SFleb_R; apply finite_SFvalid; assumption.
Qed.

Lemma ltb_B2R x y :
  finite x -> finite y -> ((x <? y)%float = true <-> B2R x < B2R y).
Proof.
  intros Hx Hy. rewrite ltb_spec. apply SFltb_R; apply finite_SFvalid; assumption.
Qed.

Lemma eqb_B2R x y :
  finite x -> finite y -> ((x =? y)%float = true <-> B2R x = B2R y).
Proof.
  intros Hx Hy. rewrite eqb_spec. apply SFeqb_R; apply finite_SFvalid; assumption.
Qed.

Lemma B2R_inj x y :
  finite x -> finite y -> B2R x = B2R y -> B2R x <> 0 -> x = y.
Proof.
  intros Hx Hy Heq Hne. apply Prim2SF_inj.
  apply SF2R_inj; try apply finite_SFvalid; assumption.
Qed.

Lemma finite_dyadic x : finite x -> 0 < B2R x -> dyadic (B2R x).
Proof. intros Hx. apply SFvalid_dyadic, finite_SFvalid, Hx. Qed.

Lemma Rounds_zero x : Rounds 0 x -> finite x /\ B2R x = 0.
Proof. intros H. destruct (rounds_zero _ H) as [[_ Hf] Hv]. split; assumption. Qed.

Lemma Rounds_upper v x b :
  Rounds v x -> 0 <= v <= b -> dyadic b -> finite x /\ 0 <= B2R x <= b.
Proof.
  intros H Hv Hb. destruct (rounds_upper _ _ _ H Hv Hb) as [[_ Hf] Hr].
  split; assumption.
Qed.

Lemma Rounds_lower v x b :
  Rounds v x -> dyadic b -> b <= v ->
  (finite x /\ b <= B2R x) \/ x = infinity.
Proof.
  intros H Hb Hv. destruct (rounds_lower _ _ _ H Hb Hv) as [[[_ Hf] Hr]|Hinf].
  - left. split; assumption.
  - right. apply Prim2SF_inj. rewrite Hinf. reflexivity.
Qed.

Lemma Rounds_between v x a b :
  Rounds v x -> dyadic a -> dyadic b -> a <= v <= b ->
  finite x /\ a <= B2R x <= b.
Proof.
  intros H Ha Hb Hv. destruct (rounds_between _ _ _ _ H Ha Hb Hv) as [[_ Hf] Hr].
  split; assumption.
Qed.

Lemma Rounds_exact v x : Rounds v x -> dyadic v -> finite x /\ B2R x = v.
Proof.
  intros H Hv. destruct (rounds_exact _ _ H Hv) as [[_ Hf] Hr]. split; assumption.
Qed.

Lemma Rounds_abs_upper v x b :
  Rounds v x -> Rabs v <= b -> dyadic b -> finite x /\ Rabs (B2R x) <= b.
Proof.
  intros H Hv Hb. destruct (rounds_abs_upper _ _ _ H Hv Hb) as [[_ Hf] Hr].
  split; assumption.
Qed.

Lemma Rounds_mono v1 v2 x1 x2 :
  Rounds v1 x1 -> Rounds v2 x2 -> 0 <= v1 <= v2 -> (x1 <=? x2)%float = true.
Proof.
  intros H1 H2 Hv. rewrite leb_spec. exact (rounds_mono _ _ _ _ H1 H2 Hv).
Qed.

Lemma Rounds_rel_error v x :
  Rounds v x -> finite x -> pow2 (-1022) <= v ->
  Rabs (B2R x - v) <= pow2 (-53) * v.
Proof.
  intros H Hf Hv. apply rounds_rel_error; [assumption| |assumption].
  apply finite_SFvalid. assumption.
Qed.

Lemma pow2_neg_IZR e : (0 <= e)%Z -> pow2 (- e) = / IZR (2 ^ e).
Proof. intros He. rewrite pow2_opp, pow2_IZR by assumption. reflexivity. Qed.

Lemma B2R_0 : B2R 0 = 0.
Proof. reflexivity. Qed.

Lemma B2R_1 : B2R 1 = 1.
Proof.
  unfold B2R. change (Prim2SF 1) with (S754_finite false (2 ^ 52) (-52)).
  cbn [SF2R].
  assert (pow2 (-52) = / IZR (2 ^ 52)) as -> by (apply (pow2_neg_IZR 52); lia).
  change (Zpos (2 ^ 52)) with (2 ^ 52)%Z. field.
  apply not_0_IZR. discriminate.
Qed.

Lemma finite_0 : finite 0.
Proof. reflexivity. Qed.

Lemma finite_1 : finite 1.
Proof. reflexivity. Qed.

(** What the guard [0 <= f <= 1] tells about [f]. *)
Lemma leb_0_1_finite f :
  (0 <=? f)%float = true -> (f <=? 1)%float = true ->
  finite f /\ 0 <= B2R f <= 1.
Proof.
  intros H0 H1.
  assert (Hf : finite f).
  { rewrite leb_spec in H0, H1. unfold finite.
    change (Prim2SF 0) with (S754_zero false) in H0.
    change (Prim2SF 1) with (S754_finite false (2 ^ 52) (-52)) in H1.
    destruct (Prim2SF f) as [s|[]| |s m e]; try reflexivity; discriminate. }
  split; [assumption|].
  apply (leb_B2R _ _ finite_0 Hf) in H0. apply (leb_B2R _ _ Hf finite_1) in H1.
  rewrite B2R_0 in H0. rewrite B2R_1 in H1. lra.
Qed.

End PrimFloats.

(** * The computations of [amdahl.py] *)

Import Py Amdahl.

Section Conversion.
Local Open Scope R_scope.

Lemma rval_at v r e0 :
  rval v r -> cexp_of v e0 ->
  exists K, rne (v / pow2 e0) K /\ r = IZR K * pow2 e0.
Proof.
  intros (e & K & C & N & ->) C0.
  pose proof (cexp_of_unique _ _ _ C C0). subst e0. exists K. auto.
Qed.

Lemma rval_short (k e0 : Z) :
  (0 < k < 2 ^ 53)%Z -> (-1074 <= e0)%Z ->
  rval (IZR k * pow2 e0) (IZR k * pow2 e0).
Proof.
  intros Hk He.
  destruct k as [|k|k]; try lia.
  destruct (binary_round_spec false k e0) as (e & K & C & N & _).
  assert (Hr : rval (IZR (Zpos k) * pow2 e0) (IZR K * pow2 e)) by (exists e, K; auto).
  rewrite <- (rval_exact _ _ (Zpos k) e0 Hk He eq_refl Hr) at 2. exact Hr.
Qed.

(** A finite result of rounding a positive real holds its rounded value. *)
Lemma Rounds_rval v x :
  Rounds v x -> 0 < v -> finite x -> exists r, rval v r /\ B2R x = r.
Proof.
  intros H Hv Hf.
  destruct (rounds_positive v _ Hv H) as (r & Hr & _ & [(_ & _ & Hval)|(_ & Hinf)]).
  - exists r. auto.
  - unfold finite in Hf. rewrite Hinf in Hf. discriminate.
Qed.

Lemma Rounds_overflow v x :
  Rounds v x -> 0 < v ->
  exists r, rval v r /\ (r < pow2 1024 <-> finite x).
Proof.
  intros H Hv.
  destruct (rounds_positive v _ Hv H) as (r & Hr & _ & [(Hlt & [_ Hf] & _)|(Hge & Hinf)]).
  - exists r. split; [assumption|]. split; auto.
  - exists r. split; [assumption|]. split; [lra|].
    unfold finite. rewrite Hinf. discriminate.
Qed.

Lemma float_of_int_Rounds p x :
  float_of_int p = Ok x -> Rounds (IZR p) x /\ finite x.
Proof.
  unfold float_of_int. intros H.
  pose proof (binary_normalize_spec p 0 false) as Hr.
  rewrite pow2_0, Rmult_1_r in Hr.
  pose proof (rounds_valid _ _ Hr) as Hv.
  set (z := binary_normalize prec emax p 0 false) in *.
  assert (Hx : x = SF2Prim z /\ SFfinite z = true).
  { destruct z as [s|s| |s m e]; try discriminate; inversion H; split; try reflexivity.
    (* z is not a NaN: rounding never produces one *)
    exfalso. destruct Hr as [[_ [s Hs]]|[[_ Hp]|[_ Hp]]]; try discriminate;
    destruct Hp as (e & K & _ & _ & [[_ E]|[(_ & _ & m & e' & E & _)|(_ & _ & E)]]);
    discriminate. }
  destruct Hx as [-> Hfin].
  unfold Rounds, finite. rewrite Prim2SF_SF2Prim by assumption. auto.
Qed.

Lemma float_of_int_exn p e : float_of_int p = Raise e -> e = OverflowError.
Proof.
  unfold float_of_int.
  destruct (binary_normalize prec emax p 0 false); intros H; inversion H; reflexivity.
Qed.

Lemma float_of_int_ge_1 p x :
  float_of_int p = Ok x -> (1 <= p)%Z -> 1 <= B2R x.
Proof.
  intros H Hp. destruct (float_of_int_Rounds p x H) as [Hr Hf].
  destruct (Rounds_lower _ _ 1 Hr dyadic_1 ltac:(apply IZR_le; lia)) as [[_ Hge]|Hinf].
  - exact Hge.
  - subst x. discriminate.
Qed.

End Conversion.

Section UnitInterval.
Local Open Scope R_scope.

(** The shape of a float strictly between 0 and 1. *)
Lemma unit_float_shape f :
  finite f -> 0 < B2R f < 1 ->
  exists (m : positive) (e : Z),
    (-1074 <= e < 0)%Z /\ (Zpos m < 2 ^ 53)%Z /\ B2R f = IZR (Zpos m) * pow2 e /\
    ((e < -53)%Z -> B2R f < / 2).
Proof.
  intros Hf [H0 H1]. pose proof (finite_SFvalid f Hf) as [Hv _].
  unfold B2R, finite in *.
  destruct (Prim2SF f) as [s|s| |s m e]; try discriminate; [simpl in H0; lra|].
  simpl in Hv. pose proof (pow2_pos e) as Hp.
  assert (Hm1 : 1 <= IZR (Zpos m)) by (apply IZR_le; lia).
  destruct s; [simpl in H0; nra|]. simpl in *.
  pose proof (bounded_elim _ _ Hv) as (He & Hm & _).
  assert (He0 : (e < 0)%Z).
  { apply pow2_lt_inv. rewrite pow2_0. nra. }
  exists m, e. repeat split; try lia.
  intros He53.
  apply Rlt_le_trans with (pow2 53 * pow2 e).
  - apply Rmult_lt_compat_r; [assumption|]. rewrite pow2_53. apply IZR_lt. lia.
  - rewrite <- pow2_add. replace (/ 2) with (pow2 (-1)).
    + apply pow2_le. lia.
    + change (-1)%Z with (0 - 1)%Z. rewrite pow2_pred, pow2_0. lra.
Qed.

Lemma pow2_m1 : pow2 (-1) = / 2.
Proof. change (-1)%Z with (0 - 1)%Z. rewrite pow2_pred, pow2_0. lra. Qed.

(** [1 - f] is a short multiple of a power of two when [f] is at least one
    half, so it is computed exactly. *)
Lemma one_minus_shape f :
  finite f -> / 2 <= B2R f < 1 ->
  exists k e, (0 < k < 2 ^ 53)%Z /\ (-53 <= e < 0)%Z /\
              1 - B2R f = IZR k * pow2 e.
Proof.
  intros Hf [Hlo Hhi].
  assert (H01 : 0 < B2R f < 1) by lra.
  destruct (unit_float_shape f Hf H01) as (m & e & He & Hm & HF & Hsmall).
  assert (He53 : (-53 <= e)%Z).
  { destruct (Z_le_gt_dec (-53) e); [assumption|].
    assert (e < -53)%Z as Hlt by lia. specialize (Hsmall Hlt). lra. }
  pose proof (pow2_pos e) as Hp.
  assert (H1 : 1 = IZR (2 ^ (- e)) * pow2 e).
  { rewrite <- pow2_IZR, <- pow2_add by lia. replace (- e + e)%Z with 0%Z by lia.
    rewrite pow2_0. reflexivity. }
  assert (Hv : 1 - B2R f = IZR (2 ^ (- e) - Zpos m) * pow2 e).
  { rewrite minus_IZR, Rmult_minus_distr_r, <- H1, <- HF. reflexivity. }
  assert (Hk : (0 < 2 ^ (- e) - Zpos m)%Z).
  { apply lt_IZR.
    assert (0 < IZR (2 ^ (- e) - Zpos m) * pow2 e) by (rewrite <- Hv; lra). nra. }
  exists (2 ^ (- e) - Zpos m)%Z, e. repeat split; try lia.
  - assert (2 ^ (- e) <= 2 ^ 53)%Z by (apply Z.pow_le_mono_r; lia). lia.
  - exact Hv.
Qed.

Lemma one_minus_dyadic f :
  finite f -> / 2 <= B2R f < 1 -> dyadic (1 - B2R f).
Proof.
  intros Hf HF. destruct (one_minus_shape f Hf HF) as (k & e & Hk & He & Hv).
  exists k, e. repeat split; try lia; [exact Hv|].
  apply Rlt_trans with 1; [lra|]. rewrite <- pow2_0. apply pow2_lt. lia.
Qed.

Lemma cexp_of_half v : / 2 <= v < 1 -> cexp_of v (-53).
Proof.
  intros [Hlo Hhi]. repeat split; try lia.
  - change (-53 + 53)%Z with 0%Z. rewrite pow2_0. assumption.
  - intros _. change (-53 + 52)%Z with (-1)%Z. rewrite pow2_m1. assumption.
Qed.

Lemma cexp_of_one v : 1 <= v < 2 -> cexp_of v (-52).
Proof.
  intros [Hlo Hhi]. repeat split; try lia.
  - change (-52 + 53)%Z with 1%Z. rewrite pow2_1. assumption.
  - intros _. change (-52 + 52)%Z with 0%Z. rewrite pow2_0. assumption.
Qed.

Lemma pow2_m53 : pow2 (-53) * IZR (2 ^ 53) = 1.
Proof.
  rewrite <- pow2_53, <- pow2_add. change (-53 + 53)%Z with 0%Z. apply pow2_0.
Qed.

Lemma pow2_m52 : pow2 (-52) * IZR (2 ^ 52) = 1.
Proof.
  rewrite <- pow2_52, <- pow2_add. change (-52 + 52)%Z with 0%Z. apply pow2_0.
Qed.

Lemma div_pow2 v e : v / pow2 e = v * pow2 (- e).
Proof. unfold Rdiv. rewrite pow2_opp. reflexivity. Qed.

(** The heart of [Speedup(f, 1) == 1.0]: adding back the rounded
    complement of [f] gives exactly one. *)
Lemma rval_complement F T r :
  0 < F < / 2 -> rval (1 - F) T -> rval (F + T) r -> r = 1.
Proof.
  intros [HF0 HF1] HT Hr.
  assert (HcT : / 2 <= 1 - F < 1) by lra.
  destruct (rval_at _ _ (-53) HT (cexp_of_half _ HcT)) as (Kt & [Nt _] & ->).
  rewrite div_pow2 in Nt. change (- -53)%Z with 53%Z in Nt. rewrite pow2_53 in Nt.
  pose proof (pow2_pos (-53)) as Hp53. pose proof pow2_m53 as Hq53.
  pose proof (pow2_pos (-52)) as Hp52. pose proof pow2_m52 as Hq52.
  set (a := pow2 (-53)) in *. set (b := IZR (2 ^ 53)) in *.
  assert (Hb : b = 9007199254740992) by (unfold b; simpl; lra).
  set (w := F + IZR Kt * a) in *.
  assert (Hw : w * b = F * b + IZR Kt).
  { unfold w. rewrite Rmult_plus_distr_r, Rmult_assoc, Hq53. ring. }
  assert (Hwa : forall K, w = IZR K * a <-> w * b = IZR K).
  { intros K. split; intros E.
    - rewrite E, Rmult_assoc, Hq53. ring.
    - rewrite <- E, Rmult_assoc, (Rmult_comm b a), Hq53. ring. }
  destruct (Rle_dec b (w * b)) as [Hge|Hlt].
  - (* rounded up: the sum is in [1, 1 + 2^-54] *)
    assert (Hw12 : 1 <= w < 2).
    { split.
      - apply Rmult_le_reg_r with b; lra.
      - apply Rmult_lt_reg_r with b; lra. }
    destruct (rval_at _ _ (-52) Hr (cexp_of_one _ Hw12)) as (K & N & ->).
    rewrite div_pow2 in N. change (- -52)%Z with 52%Z in N. rewrite pow2_52 in N.
    set (c := pow2 (-52)) in *. set (d := IZR (2 ^ 52)) in *.
    assert (Hd : b = 2 * d) by (unfold b, d; rewrite <- mult_IZR; reflexivity).
    assert (Hwd : w * b = 2 * (w * d)) by (rewrite Hd; ring).
    assert (HK : K = (2 ^ 52)%Z).
    { apply Z.le_antisymm.
      - assert (K < 2 ^ 52 + 1)%Z; [|lia].
        apply lt_IZR. rewrite plus_IZR. fold d. destruct N as [N _]. lra.
      - apply (rne_ge _ _ _ N). fold d. lra. }
    subst K. fold d. rewrite Rmult_comm. exact Hq52.
  - (* rounded down: the sum is in [1 - 2^-54, 1) *)
    assert (Hw1 : / 2 <= w < 1).
    { split.
      - apply Rmult_le_reg_r with b; lra.
      - apply Rmult_lt_reg_r with b; lra. }
    destruct (rval_at _ _ (-53) Hr (cexp_of_half _ Hw1)) as (K & N & ->).
    rewrite div_pow2 in N. change (- -53)%Z with 53%Z in N. rewrite pow2_53 in N.
    fold a b in N.
    assert (HK : K = (2 ^ 53)%Z).
    { assert (HKle : (K <= 2 ^ 53)%Z) by (apply (rne_le _ _ _ N); fold b; lra).
      assert (HKge : (2 ^ 53 - 1 <= K)%Z).
      { apply (rne_ge _ _ _ N). rewrite minus_IZR. fold b. lra. }
      destruct (Z.eq_dec K (2 ^ 53 - 1)) as [->|Hne]; [exfalso|lia].
      destruct N as [N E].
      rewrite minus_IZR in N, E. fold b in N, E.
      assert (Htie : w * b = b - 1 + / 2) by lra.
      specialize (E (or_intror Htie)). discriminate. }
    subst K. fold a b. rewrite Rmult_comm. exact Hq53.
Qed.

End UnitInterval.

Section SpeedupSteps.
Local Open Scope R_scope.

Lemma dyadic_2 : dyadic 2.
Proof. exact (dyadic_IZR 2 ltac:(lia)). Qed.

Lemma dyadic_half : dyadic (/ 2).
Proof. rewrite <- pow2_m1. apply dyadic_pow2. lia. Qed.

Lemma finite_lt_overflow x : finite x -> B2R x < pow2 1024.
Proof.
  intros Hf. pose proof (pow2_pos 1024).
  destruct (Rlt_dec 0 (B2R x)) as [Hpos|Hneg]; [|lra].
  destruct (finite_dyadic x Hf Hpos) as (k & e & _ & _ & _ & Hlt). exact Hlt.
Qed.

(** The complement [1 - f] and the sum [f + (1 - f)]. *)
Lemma complement_facts f :
  finite f -> 0 <= B2R f <= 1 ->
  finite (1 - f)%float /\ 0 <= B2R (1 - f)%float <= 1 /\
  (B2R f < 1 -> pow2 (-53) <= B2R (1 - f)%float) /\
  (/ 2 <= B2R f -> B2R (1 - f)%float = 1 - B2R f) /\
  (B2R f <= / 2 -> / 2 <= B2R (1 - f)%float) /\
  finite (f + (1 - f))%float /\ B2R (f + (1 - f))%float = 1.
Proof.
  intros Hf HF.
  pose proof (sub_Rounds 1 f finite_1 Hf) as Ht. rewrite B2R_1 in Ht.
  set (t := (1 - f)%float) in *.
  assert (Hv01 : 0 <= 1 - B2R f <= 1) by lra.
  destruct (Rounds_upper _ _ 1 Ht Hv01 dyadic_1) as [Hft HT].
  pose proof (add_Rounds f t Hf Hft) as Hz.
  set (z := (f + t)%float) in *.
  assert (Hexact : / 2 <= B2R f -> B2R t = 1 - B2R f).
  { intros Hhalf. destruct (Req_dec (B2R f) 1) as [E|NE].
    - rewrite E in Ht. replace (1 - 1) with 0 in Ht by lra.
      destruct (Rounds_zero _ Ht) as [_ ->]. lra.
    - assert (HF' : / 2 <= B2R f < 1) by lra.
      destruct (Rounds_exact _ _ Ht (one_minus_dyadic f Hf HF')) as [_ E]. exact E. }
  assert (Hbig : B2R f <= / 2 -> / 2 <= B2R t).
  { intros Hsmall.
    assert (Hb : / 2 <= 1 - B2R f <= 1) by lra.
    destruct (Rounds_between _ _ _ _ Ht dyadic_half dyadic_1 Hb) as [_ [H1 _]].
    exact H1. }
  assert (Hone : forall x, Rounds 1 x -> finite x /\ B2R x = 1).
  { intros x Hx. exact (Rounds_exact _ _ Hx dyadic_1). }
  split; [assumption|]. split; [assumption|].
  split.
  { intros Hlt. destruct (Rle_dec (/ 2) (B2R f)) as [Hhalf|Hsmall].
    - rewrite (Hexact Hhalf).
      assert (HF' : / 2 <= B2R f < 1) by lra.
      destruct (one_minus_shape f Hf HF') as (k & e & Hk & He & ->).
      pose proof (pow2_pos e).
      assert (pow2 (-53) <= pow2 e) by (apply pow2_le; lia).
      assert (1 <= IZR k) by (apply IZR_le; lia). nra.
    - apply Rle_trans with (/ 2); [|apply Hbig; lra].
      rewrite <- pow2_m1. apply pow2_le. lia. }
  split; [assumption|]. split; [assumption|].
  destruct (Rle_dec (/ 2) (B2R f)) as [Hhalf|Hsmall].
  - apply Hone. rewrite (Hexact Hhalf) in Hz.
    replace (B2R f + (1 - B2R f)) with 1 in Hz by lra. exact Hz.
  - destruct (Req_dec (B2R f) 0) as [E|NE].
    + rewrite E in Ht, Hz. replace (1 - 0) with 1 in Ht by lra.
      destruct (Hone _ Ht) as [_ Et]. rewrite Et in Hz.
      replace (0 + 1) with 1 in Hz by lra. apply Hone. exact Hz.
    + assert (HF' : 0 < B2R f < / 2) by lra.
      assert (Hvt : 0 < 1 - B2R f) by lra.
      destruct (Rounds_rval _ _ Ht Hvt Hft) as (rt & Hrt & Et).
      assert (Hsum : 0 <= B2R f + B2R t <= 2) by lra.
      destruct (Rounds_upper _ _ 2 Hz Hsum dyadic_2) as [Hfz _].
      assert (Hvz : 0 < B2R f + B2R t) by lra.
      destruct (Rounds_rval _ _ Hz Hvz Hfz) as (rz & Hrz & Ez).
      split; [assumption|]. rewrite Ez.
      rewrite Et in Hrz.
      exact (rval_complement _ _ _ HF' Hrt Hrz).
Qed.

Lemma Rounds_ge v x b :
  Rounds v x -> finite x -> 0 <= b <= v -> (0 < b -> dyadic b) -> b <= B2R x.
Proof.
  intros H Hf [Hb0 Hbv] Hd.
  destruct (Req_dec b 0) as [->|Hne].
  - destruct (Req_dec v 0) as [->|Hv].
    + destruct (Rounds_zero _ H) as [_ ->]. lra.
    + assert (Hvp : 0 < v) by lra.
      destruct (Rounds_rval _ _ H Hvp Hf) as (r & Hr & ->).
      exact (rval_nonneg _ _ Hvp Hr).
  - assert (Hbp : 0 < b) by lra.
    destruct (Rounds_lower _ _ _ H (Hd Hbp) Hbv) as [[_ Hge]|Hinf]; [exact Hge|].
    subst x. discriminate.
Qed.

Lemma B2R_nonneg_dyadic x : finite x -> 0 < B2R x -> dyadic (B2R x).
Proof. exact (finite_dyadic x). Qed.

(** The intermediate values of [1 / (f + (1 - f) / x)] for a fraction [f]
    below one and a processor count [x]. *)
Lemma speedup_steps f x :
  finite f -> 0 <= B2R f < 1 -> finite x -> 1 <= B2R x ->
  let t := (1 - f)%float in
  let q := (t / x)%float in
  let d := (f + q)%float in
  let s := (1 / d)%float in
  (finite t /\ pow2 (-53) <= B2R t <= 1) /\
  (finite q /\ 0 <= B2R q <= B2R t /\ Rounds (B2R t / B2R x) q) /\
  (finite d /\ 0 < B2R d <= 1 /\ B2R f <= B2R d /\ B2R q <= B2R d /\
   Rounds (B2R f + B2R q) d) /\
  (Rounds (1 / B2R d) s /\ (s = infinity \/ (finite s /\ 1 <= B2R s))).
Proof.
  intros Hf HF Hx HX t q d s.
  assert (HF01 : 0 <= B2R f <= 1) by lra.
  destruct (complement_facts f Hf HF01) as (Hft & HT & HTlo & _ & _ & Hfz & Hz).
  fold t in Hft, HT, HTlo, Hfz, Hz.
  specialize (HTlo ltac:(lra)).
  pose proof (pow2_pos (-53)) as Hp53.
  assert (HTpos : 0 < B2R t) by lra.
  (* q *)
  assert (HX0 : B2R x <> 0) by lra.
  pose proof (div_Rounds t x Hft Hx HX0) as Hq. fold q in Hq.
  assert (Hquo : 0 <= B2R t / B2R x <= B2R t).
  { split.
    - apply Rlt_le, Rdiv_lt_0_compat; lra.
    - apply Rmult_le_reg_r with (B2R x); [lra|].
      unfold Rdiv. rewrite Rmult_assoc, Rinv_l by lra. nra. }
  destruct (Rounds_upper _ _ _ Hq Hquo (finite_dyadic t Hft HTpos)) as [Hfq HQ].
  (* d *)
  pose proof (add_Rounds f q Hf Hfq) as Hd. fold d in Hd.
  assert (Hsum : 0 <= B2R f + B2R q <= 2) by lra.
  destruct (Rounds_upper _ _ 2 Hd Hsum dyadic_2) as [Hfd HD].
  assert (HFD : B2R f <= B2R d).
  { apply (Rounds_ge _ _ _ Hd Hfd); [lra|]. apply finite_dyadic. assumption. }
  assert (HQD : B2R q <= B2R d).
  { apply (Rounds_ge _ _ _ Hd Hfd); [lra|]. apply finite_dyadic. assumption. }
  assert (HD1 : B2R d <= 1).
  { pose proof (add_Rounds f t Hf Hft) as Hzr.
    assert (Hle : 0 <= B2R f + B2R q <= B2R f + B2R t) by lra.
    pose proof (Rounds_mono _ _ _ _ Hd Hzr Hle) as Hleb.
    apply (leb_B2R _ _ Hfd Hfz) in Hleb. lra. }
  assert (HDpos : 0 < B2R d).
  { destruct (Req_dec (B2R f) 0) as [E|NE]; [|lra].
    assert (HT1 : B2R t = 1).
    { pose proof (sub_Rounds 1 f finite_1 Hf) as Ht. fold t in Ht.
      rewrite B2R_1, E in Ht. replace (1 - 0) with 1 in Ht by lra.
      destruct (Rounds_exact _ _ Ht dyadic_1) as [_ Et]. exact Et. }
    rewrite HT1 in Hq.
    pose proof (finite_lt_overflow x Hx) as HXlt.
    pose proof (pow2_pos (-1074)) as Hpm. pose proof (pow2_pos 1024) as Hpo.
    assert (Hb : pow2 (-1074) <= 1 / B2R x <= 1).
    { split.
      - apply Rle_trans with (pow2 (-1024)); [apply pow2_le; lia|].
        change (-1024)%Z with (- (1024))%Z. rewrite pow2_opp.
        unfold Rdiv. rewrite Rmult_1_l.
        apply Rinv_le_contravar; lra.
      - unfold Rdiv. rewrite Rmult_1_l. rewrite <- Rinv_1.
        apply Rinv_le_contravar; lra. }
    destruct (Rounds_between _ _ _ _ Hq (dyadic_pow2 (-1074) ltac:(lia)) dyadic_1 Hb)
      as [_ [Hlo _]].
    lra. }
  (* s *)
  assert (HD0 : B2R d <> 0) by lra.
  pose proof (div_Rounds 1 d finite_1 Hfd HD0) as Hs. fold s in Hs.
  rewrite B2R_1 in Hs.
  assert (Hinv : 1 <= 1 / B2R d).
  { unfold Rdiv. rewrite Rmult_1_l. rewrite <- Rinv_1 at 1.
    apply Rinv_le_contravar; lra. }
  repeat split; try assumption; try lra.
  destruct (Rounds_lower _ _ 1 Hs dyadic_1 Hinv) as [Hfin|Hinf]; [right|left]; assumption.
Qed.

End SpeedupSteps.

Section Overflow.
Local Open Scope R_scope.

Lemma pow2_1024_split :
  pow2 1024 = IZR (2 ^ 54) * pow2 970 /\ pow2 971 = 2 * pow2 970 /\
  pow2 1023 = IZR (2 ^ 53) * pow2 970.
Proof.
  split; [|split].
  - rewrite <- pow2_IZR, <- pow2_add by lia. reflexivity.
  - change 971%Z with (970 + 1)%Z. apply pow2_succ.
  - rewrite <- pow2_IZR, <- pow2_add by lia. reflexivity.
Qed.

(** The rounded value of an integer is below [2^1024] exactly when the
    integer is below [2^1024 - 2^970], the midpoint past the largest double. *)
Lemma rval_int_overflow p r :
  (1 <= p)%Z -> rval (IZR p) r ->
  (r < pow2 1024 <-> (p < 2 ^ 1024 - 2 ^ 970)%Z).
Proof.
  intros Hp Hr.
  destruct pow2_1024_split as (E1024 & E971 & E1023).
  pose proof (pow2_pos 970) as HA. set (A := pow2 970) in *.
  assert (Hpp : 0 < IZR p) by (apply IZR_lt; lia).
  assert (H54 : IZR (2 ^ 54) = 2 * IZR (2 ^ 53)) by (rewrite <- mult_IZR; reflexivity).
  set (b := IZR (2 ^ 53)) in *.
  assert (Hb : b = 9007199254740992) by (unfold b; simpl; lra).
  assert (Hp0 : IZR (2 ^ 1024 - 2 ^ 970) = (2 * b - 1) * A).
  { rewrite minus_IZR, <- !pow2_IZR by lia. fold A. rewrite E1024, H54. ring. }
  assert (Hscale : forall z : Z, IZR z / pow2 971 * (2 * A) = IZR z).
  { intros z. rewrite E971. field. lra. }
  split.
  - (* a result below 2^1024 needs an integer below the midpoint *)
    intros Hlt. destruct (Z_lt_le_dec p (2 ^ 1024 - 2 ^ 970)) as [|Hge]; [assumption|].
    exfalso.
    destruct (binary_round_spec false (Z.to_pos (2 ^ 1024 - 2 ^ 970)) 0)
      as (e0 & K0 & C0 & N0 & _).
    rewrite pow2_0, Rmult_1_r in C0, N0.
    change (Zpos (Z.to_pos (2 ^ 1024 - 2 ^ 970))) with (2 ^ 1024 - 2 ^ 970)%Z in C0, N0.
    assert (Hr0 : rval (IZR (2 ^ 1024 - 2 ^ 970)) (IZR K0 * pow2 e0))
      by (exists e0, K0; auto).
    assert (Hc : cexp_of (IZR (2 ^ 1024 - 2 ^ 970)) 971).
    { rewrite Hp0. repeat split; try lia.
      - change (971 + 53)%Z with 1024%Z. rewrite E1024, H54. nra.
      - intros _. change (971 + 52)%Z with 1023%Z. rewrite E1023. fold b. nra. }
    destruct (rval_at _ _ 971 Hr0 Hc) as (K & N & EK).
    assert (Hu : IZR (2 ^ 1024 - 2 ^ 970) / pow2 971 = b - / 2).
    { rewrite Hp0, E971. field. lra. }
    rewrite Hu in N.
    assert (HK : (2 ^ 53 <= K)%Z).
    { assert (HKge : (2 ^ 53 - 1 <= K)%Z).
      { apply (rne_ge _ _ _ N). rewrite minus_IZR. fold b. lra. }
      destruct (Z.eq_dec K (2 ^ 53 - 1)) as [->|Hne]; [exfalso|lia].
      destruct N as [_ E]. rewrite minus_IZR in E. fold b in E.
      assert (Htie : b - / 2 = b - 1 + / 2) by lra.
      specialize (E (or_intror Htie)). discriminate. }
    assert (Hle : IZR K0 * pow2 e0 <= r).
    { apply (rval_mono (IZR (2 ^ 1024 - 2 ^ 970)) (IZR p)); try assumption.
      - rewrite Hp0. nra.
      - apply IZR_le. lia. }
    rewrite EK, E971 in Hle. apply IZR_le in HK. fold b in HK.
    rewrite E1024, H54 in Hlt. nra.
  - (* an integer below the midpoint does not overflow *)
    intros Hlt.
    destruct (Z_lt_le_dec p (2 ^ 1023)) as [Hsmall|Hbig].
    + apply Rle_lt_trans with (pow2 1023); [|apply pow2_lt; lia].
      apply (rval_mono (IZR p) (pow2 1023)); try assumption.
      * rewrite pow2_IZR by lia. apply IZR_le. lia.
      * apply dyadic_rval, dyadic_pow2. lia.
    + assert (Hc : cexp_of (IZR p) 971).
      { repeat split; try lia.
        - change (971 + 53)%Z with 1024%Z. rewrite pow2_IZR by lia. apply IZR_lt. lia.
        - intros _. change (971 + 52)%Z with 1023%Z. rewrite pow2_IZR by lia.
          apply IZR_le. lia. }
      destruct (rval_at _ _ 971 Hr Hc) as (K & [N _] & ->).
      assert (Hpb : IZR p <= (2 * b - 1) * A - 1).
      { rewrite <- Hp0, <- minus_IZR. apply IZR_le. lia. }
      pose proof (Hscale p) as Hs.
      assert (HK : (K <= 2 ^ 53 - 1)%Z).
      { assert (K < 2 ^ 53)%Z; [|lia].
        apply lt_IZR. fold b.
        assert (IZR p / pow2 971 < b - / 2).
        { apply Rmult_lt_reg_r with (2 * A); [lra|]. rewrite Hs. nra. }
        lra. }
      apply IZR_le in HK. rewrite minus_IZR in HK. fold b in HK.
      rewrite E971, E1024, H54. nra.
Qed.

Lemma float_of_int_returns p :
  (1 <= p)%Z ->
  (returns (float_of_int p) = true <-> (p < 2 ^ 1024 - 2 ^ 970)%Z).
Proof.
  intros Hp. unfold float_of_int.
  pose proof (binary_normalize_spec p 0 false) as Hr.
  rewrite pow2_0, Rmult_1_r in Hr.
  assert (Hpp : 0 < IZR p) by (apply IZR_lt; lia).
  destruct (rounds_positive _ _ Hpp Hr) as (r & Hrv & _ & Hc).
  pose proof (rval_int_overflow p r Hp Hrv) as Hiff.
  destruct Hc as [(Hlt & [_ Hfin] & _)|(Hge & ->)].
  - split; [intros _; apply Hiff; assumption|intros _].
    destruct (binary_normalize prec emax p 0 false); try discriminate; reflexivity.
  - split; [discriminate|]. intros Hlt. apply Hiff in Hlt. lra.
Qed.

End Overflow.

Section Scalar.
Local Open Scope R_scope.

Lemma in_unit_spec f : in_unit f = true -> finite f /\ 0 <= B2R f <= 1.
Proof.
  unfold in_unit. intros H. apply andb_prop in H. destruct H as [H0 H1].
  apply leb_0_1_finite; assumption.
Qed.

Lemma in_unit_intro f : finite f -> 0 <= B2R f <= 1 -> in_unit f = true.
Proof.
  intros Hf [H0 H1]. unfold in_unit. apply andb_true_intro. split.
  - apply (leb_B2R _ _ finite_0 Hf). rewrite B2R_0. assumption.
  - apply (leb_B2R _ _ Hf finite_1). rewrite B2R_1. assumption.
Qed.

Lemma eqb_1_false f : finite f -> ((f =? 1)%float = false <-> B2R f <> 1).
Proof.
  intros Hf. pose proof (eqb_B2R f 1 Hf finite_1) as H. rewrite B2R_1 in H.
  destruct (f =? 1)%float; split; intros E; try discriminate; try reflexivity.
  - exfalso. apply E, H. reflexivity.
  - intros E'. apply H in E'. discriminate.
Qed.

Lemma eqb_1_true f : (f =? 1)%float = true -> f = 1%float.
Proof.
  intros H.
  assert (Hf : finite f).
  { rewrite eqb_spec in H. unfold finite.
    change (Prim2SF 1) with (S754_finite false (2 ^ 52) (-52)) in H.
    destruct (Prim2SF f) as [s|[]| |s m e]; try reflexivity; discriminate. }
  apply (eqb_B2R f 1 Hf finite_1) in H.
  apply B2R_inj; try assumption; [exact finite_1|]. rewrite H, B2R_1. lra.
Qed.

Lemma eqb_0_false x : finite x -> B2R x <> 0 -> (x =? 0)%float = false.
Proof.
  intros Hf Hne. pose proof (eqb_B2R x 0 Hf finite_0) as H. rewrite B2R_0 in H.
  destruct (x =? 0)%float; [|reflexivity]. exfalso. apply Hne, H. reflexivity.
Qed.

Lemma truediv_Ok a b : finite b -> B2R b <> 0 -> truediv a b = Ok (a / b)%float.
Proof. intros Hf Hne. unfold truediv. rewrite eqb_0_false by assumption. reflexivity. Qed.

Lemma truediv_int_Ok a p x :
  float_of_int p = Ok x -> (1 <= p)%Z -> truediv_int a p = Ok (a / x)%float.
Proof.
  intros Hx Hp. unfold truediv_int. rewrite Hx. simpl.
  destruct (float_of_int_Rounds p x Hx) as [_ Hf].
  pose proof (float_of_int_ge_1 p x Hx Hp).
  apply truediv_Ok; [assumption|lra].
Qed.

(** [calculate_speedup] on its division path. *)
Lemma calculate_speedup_div f p x :
  in_unit f = true -> (1 <= p)%Z -> (f =? 1)%float = false ->
  float_of_int p = Ok x ->
  calculate_speedup f p = Ok (1 / (f + (1 - f) / x))%float.
Proof.
  intros Hu Hp Hne Hx.
  destruct (in_unit_spec f Hu) as [Hf HF].
  pose proof (proj1 (eqb_1_false f Hf) Hne) as HF1.
  destruct (float_of_int_Rounds p x Hx) as [_ Hfx].
  pose proof (float_of_int_ge_1 p x Hx Hp) as HX.
  assert (HF' : 0 <= B2R f < 1) by lra.
  destruct (speedup_steps f x Hf HF' Hfx HX) as (_ & _ & (Hfd & HD & _) & _).
  unfold calculate_speedup. rewrite Hu. simpl negb. cbv iota.
  assert (Hp' : (p <? 1)%Z = false) by (apply Z.ltb_ge; lia).
  rewrite Hp', Hne.
  rewrite (truediv_int_Ok _ p x Hx Hp). simpl bind.
  apply truediv_Ok; [assumption|lra].
Qed.

Lemma calculate_speedup_overflow f p :
  in_unit f = true -> (1 <= p)%Z -> (f =? 1)%float = false ->
  returns (float_of_int p) = false ->
  calculate_speedup f p = Raise OverflowError.
Proof.
  intros Hu Hp Hne Hx.
  unfold calculate_speedup. rewrite Hu. simpl negb. cbv iota.
  assert (Hp' : (p <? 1)%Z = false) by (apply Z.ltb_ge; lia).
  rewrite Hp', Hne. unfold truediv_int.
  destruct (float_of_int p) as [x|e] eqn:E; [discriminate|].
  apply float_of_int_exn in E. subst e. reflexivity.
Qed.

Lemma calculate_speedup_one f p :
  in_unit f = true -> (1 <= p)%Z -> (f =? 1)%float = true ->
  calculate_speedup f p = Ok 1%float.
Proof.
  intros Hu Hp He. unfold calculate_speedup. rewrite Hu. simpl negb. cbv iota.
  assert (Hp' : (p <? 1)%Z = false) by (apply Z.ltb_ge; lia).
  rewrite Hp', He. reflexivity.
Qed.

End Scalar.

Section Arrays.
Local Open Scope R_scope.

Lemma nth_map_lt {A B : Type} (g : A -> B) (l : list A) (i : nat) (d : A) (d' : B) :
  (i < List.length l)%nat -> nth i (map g l) d' = g (nth i l d).
Proof.
  intros Hi. rewrite (nth_indep (map g l) d' (g d)) by (rewrite length_map; exact Hi).
  apply map_nth.
Qed.

Lemma nth_map2_lt {A B C : Type} (g : A -> B -> C) (xs : list A) (ys : list B)
      (i : nat) (dx : A) (dy : B) (d : C) :
  List.length xs = List.length ys -> (i < List.length xs)%nat ->
  nth i (Np.map2 g xs ys) d = g (nth i xs dx) (nth i ys dy).
Proof.
  intros Hlen Hi. unfold Np.map2.
  rewrite (nth_map_lt _ _ i (dx, dy)).
  - rewrite combine_nth by assumption. reflexivity.
  - rewrite length_combine, <- Hlen, Nat.min_id. exact Hi.
Qed.

Lemma length_map2 {A B C : Type} (g : A -> B -> C) (xs : list A) (ys : list B) :
  List.length xs = List.length ys -> List.length (Np.map2 g xs ys) = List.length xs.
Proof.
  intros Hlen. unfold Np.map2.
  rewrite length_map, length_combine, <- Hlen, Nat.min_id. reflexivity.
Qed.

Lemma length_arange1 n : List.length (Np.cells n) = Z.to_nat n.
Proof. unfold Np.cells. rewrite length_map, length_seq. reflexivity. Qed.

Lemma nth_arange1 n i d :
  (i < Z.to_nat n)%nat -> nth i (Np.cells n) d = Np.int32 (1 + Z.of_nat i).
Proof.
  intros Hi. unfold Np.cells.
  rewrite (nth_map_lt _ _ i 0%nat) by (rewrite length_seq; exact Hi).
  rewrite seq_nth by exact Hi. reflexivity.
Qed.

Lemma int32_id z : (- 2 ^ 31 <= z < 2 ^ 31)%Z -> Np.int32 z = z.
Proof.
  intros Hz. unfold Np.int32. rewrite Z.mod_small by lia. lia.
Qed.

(** A cell of [processors] converts to the float the scalar code divides by. *)
Lemma float_of_int_float64 p :
  returns (float_of_int p) = true -> float_of_int p = Ok (Np.float64 p).
Proof.
  unfold float_of_int, Np.float64.
  destruct (binary_normalize prec emax p 0 false); try discriminate; reflexivity.
Qed.

Lemma float_of_int32 p :
  (1 <= p < 2 ^ 31)%Z -> float_of_int p = Ok (Np.float64 p).
Proof.
  intros Hp. apply float_of_int_float64, float_of_int_returns; [lia|].
  assert (2 ^ 31 < 2 ^ 1024 - 2 ^ 970)%Z by reflexivity. lia.
Qed.

End Arrays.

Section Finiteness.
Local Open Scope R_scope.

Lemma Rinv_le_1 x : 1 <= x -> 0 < 1 / x <= 1.
Proof.
  intros Hx. unfold Rdiv. rewrite Rmult_1_l. split.
  - apply Rinv_0_lt_compat. lra.
  - rewrite <- Rinv_1. apply Rinv_le_contravar; lra.
Qed.

Lemma Rinv_ge_1 x : 0 < x <= 1 -> 1 <= 1 / x.
Proof.
  intros Hx. unfold Rdiv. rewrite Rmult_1_l. rewrite <- Rinv_1 at 1.
  apply Rinv_le_contravar; lra.
Qed.

Lemma Rinv_pow2_le x M : 0 < x <= pow2 M -> pow2 (- M) <= 1 / x.
Proof.
  intros [H0 H1]. rewrite pow2_opp. unfold Rdiv. rewrite Rmult_1_l.
  apply Rinv_le_contravar; assumption.
Qed.

Lemma Rinv_pow2_ge x M : pow2 (- M) <= x -> 1 / x <= pow2 M.
Proof.
  intros H. pose proof (pow2_pos (- M)) as Hp.
  replace (pow2 M) with (/ pow2 (- M)).
  - unfold Rdiv. rewrite Rmult_1_l. apply Rinv_le_contravar; assumption.
  - rewrite pow2_opp, Rinv_inv. reflexivity.
Qed.

(** With at most [2^M] processors the speedup, the efficiency and the time
    ratio are finite floats. *)
Lemma derived_finite f x M :
  finite f -> 0 <= B2R f < 1 -> finite x -> 1 <= B2R x <= pow2 M ->
  (0 <= M <= 1022)%Z ->
  let s := (1 / (f + (1 - f) / x))%float in
  (finite s /\ 1 <= B2R s <= pow2 (M + 1)) /\
  (finite (s / x)%float /\ pow2 (- M) <= B2R (s / x)%float <= pow2 (M + 1)) /\
  (finite (1 / s)%float /\ pow2 (- (M + 1)) <= B2R (1 / s)%float <= 1).
Proof.
  intros Hf HF Hx [HX1 HXM] HM s.
  destruct (speedup_steps f x Hf HF Hx HX1)
    as ((Hft & HT) & (Hfq & HQ & Hq) & (Hfd & HD & HFD & HQD & _) & (Hs & _)).
  fold s in Hs.
  assert (HF01 : 0 <= B2R f <= 1) by lra.
  destruct (complement_facts f Hf HF01) as (_ & _ & _ & _ & HThalf & _).
  pose proof (pow2_pos (- (M + 1))) as Hpm.
  pose proof (pow2_pos M) as HpM.
  set (q := ((1 - f) / x)%float) in *. set (d := (f + q)%float) in *.
  assert (Hhalf : pow2 (- (M + 1)) <= / 2).
  { rewrite <- pow2_m1. apply pow2_le. lia. }
  assert (HDlo : pow2 (- (M + 1)) <= B2R d).
  { destruct (Rle_dec (/ 2) (B2R f)) as [Hbig|Hsmall]; [lra|].
    apply Rle_trans with (B2R q); [|assumption].
    apply (Rounds_ge _ _ _ Hq Hfq); [|intros _; apply dyadic_pow2; lia].
    split; [lra|].
    assert (HT2 : / 2 <= B2R (1 - f)%float) by (apply HThalf; lra).
    replace (- (M + 1))%Z with (-1 + - M)%Z by lia.
    rewrite pow2_add, pow2_m1, pow2_opp. unfold Rdiv.
    apply Rmult_le_compat; try lra.
    - apply Rlt_le, Rinv_0_lt_compat. assumption.
    - apply Rinv_le_contravar; lra. }
  assert (HS : finite s /\ 1 <= B2R s <= pow2 (M + 1)).
  { apply (Rounds_between _ _ _ _ Hs dyadic_1); [apply dyadic_pow2; lia|].
    split; [apply Rinv_ge_1; lra | apply Rinv_pow2_ge; assumption]. }
  destruct HS as [Hfs HS].
  split; [split; assumption|].
  assert (HX0 : B2R x <> 0) by lra. assert (HS0 : B2R s <> 0) by lra.
  pose proof (div_Rounds s x Hfs Hx HX0) as He.
  pose proof (div_Rounds 1 s finite_1 Hfs HS0) as Hr. rewrite B2R_1 in Hr.
  split.
  - apply (Rounds_between _ _ _ _ He); try (apply dyadic_pow2; lia).
    split.
    + apply Rle_trans with (1 / B2R x); [apply Rinv_pow2_le; lra|].
      unfold Rdiv. apply Rmult_le_compat_r; [|lra].
      apply Rlt_le, Rinv_0_lt_compat. lra.
    + apply Rle_trans with (B2R s); [|lra].
      apply Rmult_le_reg_r with (B2R x); [lra|].
      unfold Rdiv. rewrite Rmult_assoc, Rinv_l by lra. nra.
  - apply (Rounds_between _ _ _ _ Hr); try (apply dyadic_pow2; lia); [exact dyadic_1|].
    split; [apply Rinv_pow2_le; lra | apply (Rinv_le_1 (B2R s)); lra].
Qed.

Lemma abs_B2R x : finite x -> finite (abs x) /\ B2R (abs x) = Rabs (B2R x).
Proof.
  unfold finite, B2R. rewrite abs_spec.
  destruct (Prim2SF x) as [s|s| |s m e]; try discriminate; intros _; simpl.
  - split; [reflexivity|]. rewrite Rabs_R0. reflexivity.
  - split; [reflexivity|].
    pose proof (pow2_pos e). assert (0 < IZR (Zpos m)) by (apply IZR_lt; lia).
    destruct s; [rewrite Rabs_left by nra | rewrite Rabs_pos_eq by nra]; lra.
Qed.

Lemma tol_pos : finite tol /\ 0 < B2R tol.
Proof.
  split; [reflexivity|].
  unfold B2R. change (Prim2SF tol) with (S754_finite false 7737125245533627 (-86)).
  cbn [SF2R]. pose proof (pow2_pos (-86)).
  assert (0 < IZR 7737125245533627) by (apply IZR_lt; lia). nra.
Qed.

(** A finite float is within the tolerance of itself. *)
Lemma close_refl x : finite x -> close x x = true.
Proof.
  intros Hf. unfold close.
  pose proof (sub_Rounds x x Hf Hf) as H. replace (B2R x - B2R x) with 0 in H by lra.
  destruct (Rounds_zero _ H) as [Hfd Hd].
  destruct (abs_B2R _ Hfd) as [Hfa Ha].
  destruct tol_pos as [Hft Ht].
  apply (ltb_B2R _ _ Hfa Hft). rewrite Ha, Hd, Rabs_R0. assumption.
Qed.

End Finiteness.

Section Simulation.
Local Open Scope R_scope.

Lemma B2R_2p63 : finite 0x1p+63 /\ B2R 0x1p+63 = pow2 63.
Proof.
  split; [reflexivity|].
  unfold B2R. change (Prim2SF 0x1p+63) with (S754_finite false (2 ^ 52) 11).
  cbn [SF2R]. change (Z.pos (2 ^ 52)) with (2 ^ 52)%Z.
  rewrite <- pow2_52, <- pow2_add. reflexivity.
Qed.

(** Up to [2^31] cells NumPy builds the three kinds of array. *)
Lemma arange1_cells n : (1 <= n <= 2 ^ 31)%Z -> Np.arange1 n = Ok (Np.cells n).
Proof.
  intros Hn. unfold Np.arange1.
  assert (Hlt : (n < 2 ^ 1024 - 2 ^ 970)%Z).
  { assert (2 ^ 31 < 2 ^ 1024 - 2 ^ 970)%Z by reflexivity. lia. }
  pose proof (proj2 (float_of_int_returns n ltac:(lia)) Hlt) as Hr.
  destruct (float_of_int n) as [x|e] eqn:Ex; [|discriminate].
  destruct (float_of_int_Rounds n x Ex) as [Rx _].
  destruct (Rounds_exact _ _ Rx (dyadic_IZR n ltac:(lia))) as [Fx HX].
  destruct B2R_2p63 as [F63 H63].
  assert (Hsmall : B2R x < pow2 63).
  { rewrite HX, pow2_IZR by lia. apply IZR_lt. lia. }
  destruct (0x1p+63 <? x)%float eqn:E1.
  { apply (ltb_B2R _ _ F63 Fx) in E1. lra. }
  destruct (x =? 0x1p+63)%float eqn:E2.
  { apply (eqb_B2R _ _ Fx F63) in E2. lra. }
  assert (Hfit : Np.fits 4 n = true).
  { unfold Np.fits, Np.max_intp. apply Z.leb_le. lia. }
  rewrite Hfit. reflexivity.
Qed.

Lemma astype_float64_cells n :
  (1 <= n <= 2 ^ 31)%Z ->
  Np.astype_float64 (Np.cells n) = Ok (map Np.float64 (Np.cells n)).
Proof.
  intros Hn. unfold Np.astype_float64. rewrite length_arange1.
  assert (Hfit : Np.fits 8 (Z.of_nat (Z.to_nat n)) = true).
  { unfold Np.fits, Np.max_intp. apply Z.leb_le. lia. }
  rewrite Hfit. reflexivity.
Qed.

Lemma ones_repeat n :
  (1 <= n <= 2 ^ 31)%Z -> Np.ones n = Ok (repeat 1%float (Z.to_nat n)).
Proof.
  intros Hn. unfold Np.ones.
  assert (Hfit : Np.fits 8 n = true).
  { unfold Np.fits, Np.max_intp. apply Z.leb_le. lia. }
  rewrite Hfit. reflexivity.
Qed.

(** The table [simulate_scaling] returns on valid input, up to [2^31]
    rows. *)
Lemma simulate_scaling_value f n :
  in_unit f = true -> (1 <= n <= 2 ^ 31)%Z ->
  simulate_scaling f n =
    Ok (let speedups :=
          if (f =? 1)%float then repeat 1%float (Z.to_nat n)
          else map (fun d => (1 / d)%float)
                 (map (fun p => (f + (1 - f) / Np.float64 p)%float) (Np.cells n)) in
        {| processors := Np.cells n;
           speedups := speedups;
           efficiencies :=
             Np.map2 (fun s p => (s / Np.float64 p)%float) speedups (Np.cells n);
           time_ratios := map (fun s => (1 / s)%float) speedups |}).
Proof.
  intros Hu Hn. unfold simulate_scaling. rewrite Hu. simpl negb. cbv iota.
  assert (Hn' : (n <? 1)%Z = false) by (apply Z.ltb_ge; lia).
  rewrite Hn', (arange1_cells n Hn). cbn [bind].
  destruct (f =? 1)%float.
  - rewrite (ones_repeat n Hn). reflexivity.
  - rewrite (astype_float64_cells n Hn). cbn [bind]. cbv zeta.
    rewrite (map_map Np.float64 (fun x => (f + (1 - f) / x)%float)).
    reflexivity.
Qed.

(** What [simulate_scaling] returns on valid input, cell by cell. *)
Lemma simulate_scaling_cells f n :
  in_unit f = true -> (1 <= n <= 2 ^ 31)%Z ->
  exists r, simulate_scaling f n = Ok r /\
    processors r = Np.cells n /\
    List.length (processors r) = Z.to_nat n /\
    List.length (speedups r) = Z.to_nat n /\
    List.length (efficiencies r) = Z.to_nat n /\
    List.length (time_ratios r) = Z.to_nat n /\
    forall i, (i < Z.to_nat n)%nat ->
      let p := nth i (processors r) 0%Z in
      let s := nth i (speedups r) 0%float in
      s = (if (f =? 1)%float then 1 else 1 / (f + (1 - f) / Np.float64 p))%float /\
      nth i (efficiencies r) 0%float = (s / Np.float64 p)%float /\
      nth i (time_ratios r) 0%float = (1 / s)%float.
Proof.
  intros Hu Hn. rewrite (simulate_scaling_value f n Hu Hn). cbv zeta.
  eexists. split; [reflexivity|]. cbn [processors speedups efficiencies time_ratios].
  set (sp := if (f =? 1)%float then repeat 1%float (Z.to_nat n)
             else map (fun d => (1 / d)%float)
                    (map (fun p => (f + (1 - f) / Np.float64 p)%float) (Np.cells n))).
  assert (Hlen : List.length sp = Z.to_nat n).
  { unfold sp. destruct (f =? 1)%float.
    - apply repeat_length.
    - rewrite !length_map. apply length_arange1. }
  assert (Hlen2 : List.length sp = List.length (Np.cells n))
    by (rewrite length_arange1; exact Hlen).
  split; [reflexivity|]. split; [apply length_arange1|]. split; [exact Hlen|].
  split; [rewrite length_map2 by exact Hlen2; exact Hlen|].
  split; [rewrite length_map; exact Hlen|].
  intros i Hi. cbv zeta.
  split; [|split].
  - unfold sp. destruct (f =? 1)%float.
    + apply nth_repeat_lt. exact Hi.
    + rewrite (nth_map_lt _ _ i 0%float) by (rewrite length_map, length_arange1; exact Hi).
      rewrite (nth_map_lt _ _ i 0%Z) by (rewrite length_arange1; exact Hi).
      reflexivity.
  - apply (nth_map2_lt (fun s p => (s / Np.float64 p)%float));
      [exact Hlen2 | rewrite Hlen; exact Hi].
  - apply (nth_map_lt (fun s => (1 / s)%float)). rewrite Hlen; exact Hi.
Qed.

(** Below [2^31] cells every cell of the result is the float the scalar
    function returns for that processor count. *)
Lemma simulate_scaling_scalar f n :
  in_unit f = true -> (1 <= n <= 2 ^ 31 - 1)%Z ->
  exists r, simulate_scaling f n = Ok r /\
    List.length (processors r) = Z.to_nat n /\
    List.length (speedups r) = Z.to_nat n /\
    List.length (efficiencies r) = Z.to_nat n /\
    List.length (time_ratios r) = Z.to_nat n /\
    forall i, (i < Z.to_nat n)%nat ->
      nth i (processors r) 0%Z = (1 + Z.of_nat i)%Z /\
      calculate_speedup f (1 + Z.of_nat i) = Ok (nth i (speedups r) 0%float) /\
      calculate_efficiency f (1 + Z.of_nat i) = Ok (nth i (efficiencies r) 0%float) /\
      calculate_execution_time_ratio f (1 + Z.of_nat i)
        = Ok (nth i (time_ratios r) 0%float) /\
      finite (nth i (speedups r) 0%float) /\
      finite (nth i (efficiencies r) 0%float) /\
      finite (nth i (time_ratios r) 0%float).
Proof.
  intros Hu Hn.
  destruct (simulate_scaling_cells f n Hu ltac:(lia))
    as (r & Hr & Hproc & L1 & L2 & L3 & L4 & Hcells).
  exists r. repeat (split; [assumption|]).
  intros i Hi. specialize (Hcells i Hi). cbv zeta in Hcells.
  destruct Hcells as (Hs & He & Ht).
  assert (Hp : nth i (processors r) 0%Z = (1 + Z.of_nat i)%Z).
  { rewrite Hproc, nth_arange1 by exact Hi. apply int32_id. lia. }
  rewrite Hp in Hs, He.
  set (p := (1 + Z.of_nat i)%Z) in *.
  assert (Hp1 : (1 <= p < 2 ^ 31)%Z) by (unfold p; lia).
  pose proof (float_of_int32 p Hp1) as Hx.
  set (x := Np.float64 p) in *.
  destruct (float_of_int_Rounds p x Hx) as [HxR Hfx].
  pose proof (float_of_int_ge_1 p x Hx ltac:(lia)) as HX1.
  assert (HX31 : B2R x <= pow2 31).
  { assert (Hd : dyadic (IZR p)) by (apply dyadic_IZR; lia).
    destruct (Rounds_exact _ _ HxR Hd) as [_ ->].
    rewrite pow2_IZR by lia. apply IZR_le. lia. }
  destruct (in_unit_spec f Hu) as [Hf HF].
  split; [exact Hp|].
  set (s := nth i (speedups r) 0%float) in *.
  destruct (f =? 1)%float eqn:E1.
  - (* fully sequential: the vector of ones *)
    subst s. rewrite Hs in *.
    assert (Hsp : calculate_speedup f p = Ok 1%float)
      by (apply calculate_speedup_one; [assumption|lia|assumption]).
    assert (Hone : 1 <= B2R 1 <= pow2 31).
    { rewrite B2R_1. split; [lra|]. apply pow2_ge_1. lia. }
    assert (HX0 : B2R x <> 0) by lra.
    pose proof (div_Rounds 1 x finite_1 Hfx HX0) as Hq. rewrite B2R_1 in Hq.
    assert (Hquo : pow2 (-31) <= 1 / B2R x <= 1).
    { split; [apply (Rinv_pow2_le _ 31); lra | apply (Rinv_le_1 (B2R x)); lra]. }
    destruct (Rounds_between _ _ _ _ Hq (dyadic_pow2 (-31) ltac:(lia)) dyadic_1 Hquo)
      as [Hfe _].
    split; [exact Hsp|].
    split.
    { unfold calculate_efficiency. rewrite Hsp. simpl bind.
      rewrite (truediv_int_Ok _ p x Hx ltac:(lia)), He. reflexivity. }
    split.
    { unfold calculate_execution_time_ratio. rewrite Hsp. simpl bind.
      rewrite Ht. reflexivity. }
    split; [exact finite_1|]. split; [rewrite He; exact Hfe|].
    rewrite Ht. reflexivity.
  - (* the division path *)
    pose proof (proj1 (eqb_1_false f Hf) E1) as HF1.
    assert (HF' : 0 <= B2R f < 1) by lra.
    assert (HXb : 1 <= B2R x <= pow2 31) by lra.
    destruct (derived_finite f x 31 Hf HF' Hfx HXb ltac:(lia))
      as ((Hfs & HS) & (Hfe & _) & (Hft & _)).
    rewrite <- Hs in Hfs, HS, Hfe, Hft.
    assert (Hsp : calculate_speedup f p = Ok s).
    { rewrite Hs. apply calculate_speedup_div; [assumption|lia|assumption|assumption]. }
    split; [exact Hsp|].
    split.
    { unfold calculate_efficiency. rewrite Hsp. simpl bind.
      rewrite (truediv_int_Ok _ p x Hx ltac:(lia)), He. reflexivity. }
    split.
    { unfold calculate_execution_time_ratio. rewrite Hsp. simpl bind.
      rewrite truediv_Ok by (try assumption; lra). rewrite Ht. reflexivity. }
    rewrite He, Ht. auto.
Qed.

End Simulation.

(** * The claims about [amdahl.py] *)

Section Claims.
Local Open Scope Z_scope.

(** C1 (as amended). For every [f] with [0 <= f <= 1] and every integer
    [p >= 1]: when [f == 1] the call returns exactly [1.0]; otherwise, for
    [p] below [2^1024 - 2^970] (the integers [float(p)] can hold) it returns
    [1 / (f + (1 - f) / p)] evaluated in binary64 arithmetic, and for larger
    [p] it raises [OverflowError]. *)
Theorem calculate_speedup_formula (f : float) (p : Z) :
  in_unit f = true -> 1 <= p ->
  if (f =? 1)%float then calculate_speedup f p = Ok 1%float
  else if p <? 2 ^ 1024 - 2 ^ 970
       then exists x, float_of_int p = Ok x /\
              calculate_speedup f p = Ok (1 / (f + (1 - f) / x))%float
       else calculate_speedup f p = Raise OverflowError.
Proof.
  intros Hu Hp. destruct (f =? 1)%float eqn:E1.
  - apply calculate_speedup_one; assumption.
  - destruct (Z.ltb_spec p (2 ^ 1024 - 2 ^ 970)) as [Hlt|Hge].
    + apply (float_of_int_returns p Hp) in Hlt.
      destruct (float_of_int p) as [x|e] eqn:Ex; [|discriminate].
      exists x. split; [reflexivity|].
      apply calculate_speedup_div; assumption.
    + apply calculate_speedup_overflow; try assumption.
      destruct (returns (float_of_int p)) eqn:Er; [|reflexivity].
      apply (float_of_int_returns p Hp) in Er. lia.
Qed.

Lemma calculate_speedup_formula_witness :
  in_unit 0.5 = true /\ 1 <= 2 /\
  exists x, float_of_int 2 = Ok x /\
    calculate_speedup 0.5 2 = Ok (1 / (0.5 + (1 - 0.5) / x))%float.
Proof.
  split; [reflexivity|]. split; [lia|].
  exact (calculate_speedup_formula 0.5 2 eq_refl ltac:(lia)).
Defined.

(** C1 fails as stated for [p] too large for a double: Python raises
    [OverflowError] when it converts [p]. *)
Lemma calculate_speedup_huge_p :
  in_unit 0.5 = true /\ 1 <= 2 ^ 1024 /\ (0.5 =? 1)%float = false /\
  calculate_speedup 0.5 (2 ^ 1024) = Raise OverflowError.
Proof.
  split; [reflexivity|]. split; [apply Z.leb_le; reflexivity|].
  split; reflexivity.
Qed.

(** C5. For every [f] with [0 <= f <= 1], [Speedup(f, 1)] is exactly
    [1.0]. *)
Theorem speedup_single_processor (f : float) :
  in_unit f = true -> calculate_speedup f 1 = Ok 1%float.
Proof.
  intros Hu. destruct (f =? 1)%float eqn:E1.
  - apply calculate_speedup_one; [assumption|lia|assumption].
  - rewrite (calculate_speedup_div f 1 1%float Hu ltac:(lia) E1 eq_refl).
    destruct (in_unit_spec f Hu) as [Hf HF].
    pose proof (proj1 (eqb_1_false f Hf) E1) as HF1.
    destruct (complement_facts f Hf HF) as (Hft & HT & HTlo & _ & _ & Hfz & Hz).
    assert (Hlt : (B2R f < 1)%R) by lra.
    specialize (HTlo Hlt). pose proof (pow2_pos (-53)) as Hp53.
    assert (HTpos : (0 < B2R (1 - f)%float)%R) by lra.
    (* dividing by one is exact *)
    assert (Hq : ((1 - f) / 1)%float = (1 - f)%float).
    { assert (H10 : B2R 1 <> 0%R) by (rewrite B2R_1; lra).
      pose proof (div_Rounds (1 - f)%float 1 Hft finite_1 H10) as Hq.
      rewrite B2R_1 in Hq. unfold Rdiv in Hq. rewrite Rinv_1, Rmult_1_r in Hq.
      destruct (Rounds_exact _ _ Hq (finite_dyadic _ Hft HTpos)) as [Hfq Eq].
      apply B2R_inj; try assumption. lra. }
    rewrite Hq.
    assert (Hd : (f + (1 - f))%float = 1%float).
    { apply B2R_inj; try assumption; [exact finite_1| |].
      - rewrite Hz, B2R_1. reflexivity.
      - rewrite Hz. lra. }
    rewrite Hd. reflexivity.
Qed.

Lemma speedup_single_processor_witness :
  in_unit 0.3125 = true /\ calculate_speedup 0.3125 1 = Ok 1%float.
Proof.
  split; [reflexivity|]. exact (speedup_single_processor 0.3125 eq_refl).
Defined.

Lemma calculate_speedup_not_ValueError f p m :
  in_unit f = true -> 1 <= p -> calculate_speedup f p <> Raise (ValueError m).
Proof.
  intros Hu Hp. unfold calculate_speedup. rewrite Hu. simpl negb. cbv iota.
  assert (Hp' : (p <? 1) = false) by (apply Z.ltb_ge; lia).
  rewrite Hp'. destruct (f =? 1)%float; [discriminate|].
  unfold truediv_int. destruct (float_of_int p) as [x|e] eqn:E; simpl.
  - unfold truediv. destruct (x =? 0)%float; simpl; [discriminate|].
    destruct (_ =? 0)%float; discriminate.
  - apply float_of_int_exn in E. subst e. discriminate.
Qed.

(** C3 (as amended). [Speedup(f, p)] raises [ValueError] (the spec's
    InvalidArgument) if and only if [f] fails [0 <= f <= 1] or [p < 1].
    [SimulateScaling(f, max_procs)] raises [ValueError] whenever [f] fails
    [0 <= f <= 1] or [max_procs < 1], and for [max_procs <= 2^31 - 1] only
    then.  The error is decided by the guards alone, before anything is
    computed, and a raising call carries no output.  In particular the calls
    with [f = -0.1], [f = 1.1], [p = 0] and [p = -1] raise it. *)
Theorem invalid_argument_iff (f : float) (p : Z) :
  ((exists m, calculate_speedup f p = Raise (ValueError m)) <->
   in_unit f = false \/ p < 1) /\
  (in_unit f = false \/ p < 1 ->
   exists m, simulate_scaling f p = Raise (ValueError m)) /\
  (p <= 2 ^ 31 - 1 ->
   (exists m, simulate_scaling f p = Raise (ValueError m)) ->
   in_unit f = false \/ p < 1) /\
  calculate_speedup f p =
    (if negb (in_unit f) then Raise (ValueError FractionOutOfRange)
     else if p <? 1 then Raise (ValueError ProcessorsTooSmall)
     else calculate_speedup f p) /\
  simulate_scaling f p =
    (if negb (in_unit f) then Raise (ValueError FractionOutOfRange)
     else if p <? 1 then Raise (ValueError MaxProcsTooSmall)
     else simulate_scaling f p) /\
  calculate_speedup (-0x1.999999999999ap-4) 10 = Raise (ValueError FractionOutOfRange) /\
  calculate_speedup 0x1.199999999999ap+0 10 = Raise (ValueError FractionOutOfRange) /\
  calculate_speedup 0.5 0 = Raise (ValueError ProcessorsTooSmall) /\
  calculate_speedup 0.5 (-1) = Raise (ValueError ProcessorsTooSmall).
Proof.
  split; [|split; [|split; [|split; [|split]]]].
  - split.
    + intros [m Hm].
      destruct (in_unit f) eqn:Hu; [|left; reflexivity].
      destruct (Z_lt_le_dec p 1) as [Hlt|Hge]; [right; assumption|].
      exfalso. exact (calculate_speedup_not_ValueError f p m Hu Hge Hm).
    + unfold calculate_speedup. intros [Hu|Hp].
      * rewrite Hu. eexists; reflexivity.
      * destruct (in_unit f); simpl; [|eexists; reflexivity].
        apply Z.ltb_lt in Hp. rewrite Hp. eexists; reflexivity.
  - unfold simulate_scaling. intros [Hu|Hp].
    + rewrite Hu. eexists; reflexivity.
    + destruct (in_unit f); simpl; [|eexists; reflexivity].
      apply Z.ltb_lt in Hp. rewrite Hp. eexists; reflexivity.
  - intros Hmax [m Hm].
    destruct (in_unit f) eqn:Hu; [|left; reflexivity].
    destruct (Z_lt_le_dec p 1) as [Hlt|Hge]; [right; assumption|].
    exfalso. destruct (simulate_scaling_cells f p Hu ltac:(lia)) as (r & Hr & _).
    rewrite Hr in Hm. discriminate.
  - unfold calculate_speedup. destruct (negb (in_unit f)); [reflexivity|].
    destruct (p <? 1); reflexivity.
  - unfold simulate_scaling. destruct (negb (in_unit f)); [reflexivity|].
    destruct (p <? 1); reflexivity.
  - repeat split.
Qed.

Lemma invalid_argument_iff_witness :
  (in_unit 0x1.8p+0 = false \/ 10 < 1) /\
  (exists m, simulate_scaling 0x1.8p+0 10 = Raise (ValueError m)) /\
  10 <= 2 ^ 31 - 1 /\
  (in_unit 0x1.8p+0 = false \/ 10 < 1).
Proof.
  assert (H : in_unit 0x1.8p+0 = false \/ 10 < 1) by (left; reflexivity).
  assert (H10 : 10 <= 2 ^ 31 - 1) by lia.
  split; [exact H|].
  assert (Hr : exists m, simulate_scaling 0x1.8p+0 10 = Raise (ValueError m))
    by exact (proj1 (proj2 (invalid_argument_iff 0x1.8p+0 10)) H).
  split; [exact Hr|]. split; [exact H10|].
  exact (proj1 (proj2 (proj2 (invalid_argument_iff 0x1.8p+0 10))) H10 Hr).
Defined.

(** C3 fails as stated for [SimulateScaling]: with the valid arguments
    [f = 0.5] and [max_procs = 2^64] the call raises [ValueError], NumPy's
    "Maximum allowed size exceeded", from [np.arange]. *)
Lemma simulate_scaling_huge_max_procs :
  in_unit 0.5 = true /\ 1 <= 2 ^ 64 /\
  simulate_scaling 0.5 (2 ^ 64) = Raise (ValueError NumpySize).
Proof.
  split; [reflexivity|]. split; [apply Z.leb_le; reflexivity|]. reflexivity.
Qed.

(** C6 (as amended). For every integer [p >= 1], [Speedup(1, p)] is
    exactly [1.0], whatever the size of [p], and for
    [1 <= max_procs <= 2^31 - 1], [SimulateScaling(1, max_procs)] returns the
    speedup vector of ones: both take the [f == 1] branch, not the division
    path. *)
Theorem speedup_fully_sequential (f : float) (p n : Z) :
  (f =? 1)%float = true -> 1 <= p -> 1 <= n <= 2 ^ 31 - 1 ->
  calculate_speedup f p = Ok 1%float /\
  exists r, simulate_scaling f n = Ok r /\
            speedups r = repeat 1%float (Z.to_nat n).
Proof.
  intros E1 Hp Hn. apply eqb_1_true in E1. subst f.
  split.
  - apply calculate_speedup_one; [reflexivity|assumption|reflexivity].
  - rewrite (simulate_scaling_value 1 n eq_refl ltac:(lia)).
    eexists. split; [reflexivity|]. reflexivity.
Qed.

Lemma speedup_fully_sequential_witness :
  (1 =? 1)%float = true /\ 1 <= 2 ^ 2000 /\ 1 <= 3 <= 2 ^ 31 - 1 /\
  calculate_speedup 1 (2 ^ 2000) = Ok 1%float /\
  exists r, simulate_scaling 1 3 = Ok r /\
            speedups r = repeat 1%float (Z.to_nat 3).
Proof.
  split; [reflexivity|]. split; [apply Z.leb_le; reflexivity|]. split; [lia|].
  exact (speedup_fully_sequential 1 (2 ^ 2000) 3 eq_refl
           (proj1 (Z.leb_le 1 (2 ^ 2000)) eq_refl) ltac:(lia)).
Defined.

(** C6 fails as stated for a huge [max_procs]: [np.arange] runs before the
    [f == 1] branch and raises [ValueError] at [max_procs = 2^2000]. *)
Lemma simulate_scaling_fully_sequential_huge :
  (1 =? 1)%float = true /\ 1 <= 2 ^ 2000 /\
  simulate_scaling 1 (2 ^ 2000) = Raise (ValueError NumpySize).
Proof.
  split; [reflexivity|]. split; [apply Z.leb_le; reflexivity|]. reflexivity.
Qed.

Lemma calculate_speedup_nonzero f p s :
  in_unit f = true -> 1 <= p -> calculate_speedup f p = Ok s ->
  (s =? 0)%float = false /\ (1 <=? s)%float = true.
Proof.
  intros Hu Hp Hs. destruct (f =? 1)%float eqn:E1.
  - rewrite (calculate_speedup_one f p Hu Hp E1) in Hs. inversion Hs. split; reflexivity.
  - destruct (float_of_int p) as [x|e] eqn:Ex.
    + rewrite (calculate_speedup_div f p x Hu Hp E1 Ex) in Hs. inversion Hs as [Es].
      destruct (in_unit_spec f Hu) as [Hf HF].
      pose proof (proj1 (eqb_1_false f Hf) E1) as HF1.
      destruct (float_of_int_Rounds p x Ex) as [_ Hfx].
      pose proof (float_of_int_ge_1 p x Ex Hp) as HX.
      assert (HF' : (0 <= B2R f < 1)%R) by lra.
      destruct (speedup_steps f x Hf HF' Hfx HX) as (_ & _ & _ & _ & [Hinf|[Hfs HS]]).
      * rewrite Hinf. split; reflexivity.
      * split.
        -- apply eqb_0_false; [assumption|lra].
        -- apply (leb_B2R _ _ finite_1 Hfs). rewrite B2R_1. assumption.
    + rewrite calculate_speedup_overflow in Hs; try assumption; [discriminate|].
      rewrite Ex. reflexivity.
Qed.

(** C8. For every valid pair, [Efficiency(f, p)] is [Speedup(f, p) / p] and
    [ExecutionTimeRatio(f, p)] is [1 / Speedup(f, p)]: the same float
    divisions, which never meet a zero divisor, and the same error when the
    speedup or the conversion of [p] raises. *)
Theorem efficiency_and_ratio_from_speedup (f : float) (p : Z) :
  in_unit f = true -> 1 <= p ->
  calculate_efficiency f p =
    (s <- calculate_speedup f p ;; x <- float_of_int p ;; Ok (s / x)%float) /\
  calculate_execution_time_ratio f p =
    (s <- calculate_speedup f p ;; Ok (1 / s)%float).
Proof.
  intros Hu Hp. unfold calculate_efficiency, calculate_execution_time_ratio.
  destruct (calculate_speedup f p) as [s|e] eqn:Es; simpl; [|split; reflexivity].
  split.
  - unfold truediv_int. destruct (float_of_int p) as [x|e] eqn:Ex; simpl; [|reflexivity].
    destruct (float_of_int_Rounds p x Ex) as [_ Hfx].
    pose proof (float_of_int_ge_1 p x Ex Hp) as HX.
    apply truediv_Ok; [assumption|lra].
  - destruct (calculate_speedup_nonzero f p s Hu Hp Es) as [H0 _].
    unfold truediv. rewrite H0. reflexivity.
Qed.

Lemma efficiency_and_ratio_from_speedup_witness :
  in_unit 0.5 = true /\ 1 <= 4 /\
  calculate_efficiency 0.5 4 =
    (s <- calculate_speedup 0.5 4 ;; x <- float_of_int 4 ;; Ok (s / x)%float) /\
  calculate_execution_time_ratio 0.5 4 =
    (s <- calculate_speedup 0.5 4 ;; Ok (1 / s)%float).
Proof.
  split; [reflexivity|]. split; [lia|].
  exact (efficiency_and_ratio_from_speedup 0.5 4 eq_refl ltac:(lia)).
Defined.

(** C2 (as amended). For every [f] with [0 <= f <= 1] and every integer
    [n] with [1 <= n <= 2^31 - 1] (the counts an [int32] cell holds),
    [SimulateScaling(f, n)] returns four sequences of length exactly [n], with
    [processors[0] = 1] and [processors[n-1] = n], and at every index the
    speedup, efficiency and time ratio are within [1e-10] of what the scalar
    calls return for [processors[i]] (they are the same floats). *)
Theorem simulate_scaling_matches_scalar (f : float) (n : Z) :
  in_unit f = true -> 1 <= n <= 2 ^ 31 - 1 ->
  exists r, simulate_scaling f n = Ok r /\
    List.length (processors r) = Z.to_nat n /\
    List.length (speedups r) = Z.to_nat n /\
    List.length (efficiencies r) = Z.to_nat n /\
    List.length (time_ratios r) = Z.to_nat n /\
    nth 0 (processors r) 0 = 1 /\
    nth (Z.to_nat (n - 1)) (processors r) 0 = n /\
    forall i, (i < Z.to_nat n)%nat ->
      exists s e t,
        calculate_speedup f (nth i (processors r) 0) = Ok s /\
        calculate_efficiency f (nth i (processors r) 0) = Ok e /\
        calculate_execution_time_ratio f (nth i (processors r) 0) = Ok t /\
        close (nth i (speedups r) 0%float) s = true /\
        close (nth i (efficiencies r) 0%float) e = true /\
        close (nth i (time_ratios r) 0%float) t = true.
Proof.
  intros Hu Hn.
  destruct (simulate_scaling_scalar f n Hu Hn) as (r & Hr & L1 & L2 & L3 & L4 & Hcells).
  exists r. repeat (split; [assumption|]).
  split; [|split].
  - destruct (Hcells 0%nat ltac:(lia)) as (Hp & _). rewrite Hp. reflexivity.
  - destruct (Hcells (Z.to_nat (n - 1)) ltac:(lia)) as (Hp & _). rewrite Hp. lia.
  - intros i Hi. destruct (Hcells i Hi) as (Hp & Hs & He & Ht & Fs & Fe & Ft).
    rewrite Hp.
    exists (nth i (speedups r) 0%float), (nth i (efficiencies r) 0%float),
           (nth i (time_ratios r) 0%float).
    repeat (split; [assumption|]).
    split; [|split]; apply close_refl; assumption.
Qed.

Lemma simulate_scaling_matches_scalar_witness :
  in_unit 0.25 = true /\ 1 <= 5 <= 2 ^ 31 - 1 /\
  exists r, simulate_scaling 0.25 5 = Ok r /\
    List.length (processors r) = Z.to_nat 5 /\
    List.length (speedups r) = Z.to_nat 5 /\
    List.length (efficiencies r) = Z.to_nat 5 /\
    List.length (time_ratios r) = Z.to_nat 5 /\
    nth 0 (processors r) 0 = 1 /\
    nth (Z.to_nat (5 - 1)) (processors r) 0 = 5 /\
    forall i, (i < Z.to_nat 5)%nat ->
      exists s e t,
        calculate_speedup 0.25 (nth i (processors r) 0) = Ok s /\
        calculate_efficiency 0.25 (nth i (processors r) 0) = Ok e /\
        calculate_execution_time_ratio 0.25 (nth i (processors r) 0) = Ok t /\
        close (nth i (speedups r) 0%float) s = true /\
        close (nth i (efficiencies r) 0%float) e = true /\
        close (nth i (time_ratios r) 0%float) t = true.
Proof.
  split; [reflexivity|]. split; [lia|].
  exact (simulate_scaling_matches_scalar 0.25 5 eq_refl ltac:(lia)).
Defined.

(** C2 fails as stated once [n] does not fit an [int32] cell: with
    [n = 2^31] the last cell of [processors] wraps to [-2^31]. *)
Lemma simulate_scaling_int32_wraps :
  in_unit 0.5 = true /\ 1 <= 2 ^ 31 /\
  exists r, simulate_scaling 0.5 (2 ^ 31) = Ok r /\
    nth (Z.to_nat (2 ^ 31 - 1)) (processors r) 0 = - 2 ^ 31 /\
    nth (Z.to_nat (2 ^ 31 - 1)) (processors r) 0 <> 2 ^ 31.
Proof.
  split; [reflexivity|]. split; [lia|].
  destruct (simulate_scaling_cells 0.5 (2 ^ 31) eq_refl ltac:(lia))
    as (r & Hr & Hproc & _).
  exists r. split; [exact Hr|].
  assert (Hlast : nth (Z.to_nat (2 ^ 31 - 1)) (processors r) 0 = - 2 ^ 31).
  { rewrite Hproc, nth_arange1.
    - rewrite Z2Nat.id by lia. reflexivity.
    - apply Z2Nat.inj_lt; lia. }
  split; [exact Hlast|]. rewrite Hlast. lia.
Qed.

End Claims.

(** * Accuracy of the floating-point results *)

Section Approx.
Local Open Scope R_scope.

Variable u : R.
Hypothesis u_pos : 0 < u.
Hypothesis u_small : u <= / 1024.

Lemma Rabs_le_both x y : Rabs x <= y -> - y <= x <= y.
Proof. unfold Rabs. destruct (Rcase_abs x); lra. Qed.

Lemma approx_bounds c a A :
  approx c a A -> a - c * a <= A <= a + c * a.
Proof. unfold approx. intros H. apply Rabs_le_both in H. lra. Qed.

Lemma approx_intro c a A :
  a - c * a <= A <= a + c * a -> approx c a A.
Proof. unfold approx. intros H. apply Rabs_le. lra. Qed.

Lemma approx_weaken c c' a A :
  0 <= a -> c <= c' -> approx c a A -> approx c' a A.
Proof.
  intros Ha Hc H. apply approx_bounds in H. apply approx_intro. nra.
Qed.

Lemma approx_refl c a : 0 <= a -> 0 <= c -> approx c a a.
Proof. intros Ha Hc. apply approx_intro. nra. Qed.

(** One more rounding. *)
Lemma approx_round (k : R) a A B :
  0 < a -> 0 <= k -> k * u <= 1 ->
  approx (k * u) a A -> Rabs (B - A) <= u * A ->
  approx ((k + 2) * u) a B.
Proof.
  intros Ha Hk Hku H HB. apply approx_bounds in H.
  assert (HA : 0 <= A) by nra.
  apply Rabs_le_both in HB. apply approx_intro.
  assert (H1 : A <= a * (1 + k * u)) by lra.
  assert (H2 : a * (1 - k * u) <= A) by lra.
  assert (H3 : k * u * u <= u) by nra.
  split.
  - apply Rle_trans with (A - u * A); [|lra].
    assert (a - (k + 2) * u * a <= a * (1 - k * u) * (1 - u)) by nra.
    assert (a * (1 - k * u) * (1 - u) <= A * (1 - u)) by nra.
    lra.
  - apply Rle_trans with (A + u * A); [lra|].
    assert (A * (1 + u) <= a * (1 + k * u) * (1 + u)) by nra.
    assert (a * (1 + k * u) * (1 + u) <= a + (k + 2) * u * a) by nra.
    lra.
Qed.

(** The reciprocal. *)
Lemma approx_inv (k : R) a A :
  0 < a -> 0 <= k -> k * (k + 1) * u <= 1 ->
  approx (k * u) a A -> approx ((k + 1) * u) (/ a) (/ A).
Proof.
  intros Ha Hk Hku H. apply approx_bounds in H.
  assert (Hku1 : k * u <= / 2).
  { destruct (Rle_dec k 1) as [Hle|Hgt].
    - assert (k * u <= u) by nra. lra.
    - assert (k * u * 2 <= k * (k + 1) * u) by nra. lra. }
  assert (HA : 0 < A) by nra.
  pose proof (Rinv_0_lt_compat a Ha) as Hia.
  pose proof (Rinv_0_lt_compat A HA) as HiA.
  apply approx_intro.
  assert (Haa : a * / a = 1) by (apply Rinv_r; lra).
  assert (HAA : A * / A = 1) by (apply Rinv_r; lra).
  split.
  - (* / A >= / a * (1 - (k+1) u) since A <= a (1 + k u) *)
    apply Rmult_le_reg_r with (A * a); [nra|].
    replace (/ A * (A * a)) with (a * (A * / A)) by ring. rewrite HAA.
    replace ((/ a - (k + 1) * u * / a) * (A * a))
      with ((1 - (k + 1) * u) * A * (a * / a)) by ring. rewrite Haa.
    assert ((1 - (k + 1) * u) * (1 + k * u) <= 1) by nra.
    assert (0 <= 1 - (k + 1) * u).
    { assert ((k + 1) * u <= 1); [|lra].
      destruct (Rle_dec k 1) as [Hle|Hgt]; nra. }
    nra.
  - apply Rmult_le_reg_r with (A * a); [nra|].
    replace (/ A * (A * a)) with (a * (A * / A)) by ring. rewrite HAA.
    replace ((/ a + (k + 1) * u * / a) * (A * a))
      with ((1 + (k + 1) * u) * A * (a * / a)) by ring. rewrite Haa.
    assert (1 <= (1 + (k + 1) * u) * (1 - k * u)) by nra.
    nra.
Qed.

(** The product of two approximations. *)
Lemma approx_mul (k1 k2 : R) a A b B :
  0 < a -> 0 < b -> 0 <= k1 -> 0 <= k2 -> k1 * k2 * u <= 1 ->
  k1 * u <= 1 -> k2 * u <= 1 ->
  approx (k1 * u) a A -> approx (k2 * u) b B ->
  approx ((k1 + k2 + 1) * u) (a * b) (A * B).
Proof.
  intros Ha Hb Hk1 Hk2 Hkk Hk1u Hk2u HA HB.
  apply approx_bounds in HA. apply approx_bounds in HB.
  assert (HA0 : 0 <= A) by nra. assert (HB0 : 0 <= B) by nra.
  apply approx_intro.
  assert (Hab : 0 < a * b) by nra.
  assert (Hc : k1 * u * (k2 * u) <= u) by nra.
  split.
  - apply Rle_trans with (a * (1 - k1 * u) * (b * (1 - k2 * u))).
    + assert (a * b * ((1 - k1 * u) * (1 - k2 * u)) >=
              a * b * (1 - (k1 + k2 + 1) * u)).
      { apply Rle_ge, Rmult_le_compat_l; [lra|]. nra. }
      nra.
    + apply Rmult_le_compat; nra.
  - apply Rle_trans with (a * (1 + k1 * u) * (b * (1 + k2 * u))).
    + apply Rmult_le_compat; nra.
    + assert (a * b * ((1 + k1 * u) * (1 + k2 * u)) <=
              a * b * (1 + (k1 + k2 + 1) * u)).
      { apply Rmult_le_compat_l; [lra|]. nra. }
      nra.
Qed.

(** Adding an exact non-negative term. *)
Lemma approx_add_exact c z a A :
  0 <= z -> 0 <= c -> approx c a A -> approx c (z + a) (z + A).
Proof.
  intros Hz Hc H. apply approx_bounds in H. apply approx_intro. nra.
Qed.

End Approx.

Section Accuracy.
Local Open Scope R_scope.

Lemma u53_pos : 0 < u53.
Proof. apply pow2_pos. Qed.

Lemma u53_small : u53 <= / 1024.
Proof.
  unfold u53. apply Rle_trans with (pow2 (-10)); [apply pow2_le; lia|].
  change (-10)%Z with (- (10))%Z. rewrite pow2_opp, pow2_IZR by lia.
  apply Rinv_le_contravar; [lra|]. simpl. lra.
Qed.

Lemma u53_16 : 16 * u53 = pow2 (-49).
Proof.
  unfold u53. replace 16 with (pow2 4) by (rewrite pow2_IZR by lia; simpl; lra).
  rewrite <- pow2_add. reflexivity.
Qed.

Lemma Rounds_approx v x :
  Rounds v x -> finite x -> pow2 (-1022) <= v -> approx (1 * u53) v (B2R x).
Proof.
  intros H Hf Hv. unfold approx. rewrite Rmult_1_l.
  exact (Rounds_rel_error v x H Hf Hv).
Qed.

Lemma one_minus_lower f :
  finite f -> 0 <= B2R f < 1 -> pow2 (-53) <= 1 - B2R f.
Proof.
  intros Hf HF. assert (HF01 : 0 <= B2R f <= 1) by lra.
  destruct (complement_facts f Hf HF01) as (_ & _ & HTlo & Hexact & _).
  destruct (Rle_dec (/ 2) (B2R f)) as [Hbig|Hsmall].
  - rewrite <- (Hexact Hbig). apply HTlo. lra.
  - apply Rle_trans with (/ 2); [|lra]. rewrite <- pow2_m1. apply pow2_le. lia.
Qed.

(** The floating-point speedup, efficiency and time ratio against Amdahl's
    law over the reals, on the division path. *)
Lemma accuracy_div f x p :
  finite f -> 0 <= B2R f < 1 ->
  float_of_int p = Ok x -> (1 <= p <= 2 ^ 969)%Z ->
  let s := (1 / (f + (1 - f) / x))%float in
  (finite s /\ approx (11 * u53) (Ideal.speedup (B2R f) (IZR p)) (B2R s)) /\
  (finite (s / x)%float /\
   approx (16 * u53) (Ideal.efficiency (B2R f) (IZR p)) (B2R (s / x)%float)) /\
  (finite (1 / s)%float /\
   approx (14 * u53) (Ideal.time_ratio (B2R f) (IZR p)) (B2R (1 / s)%float)).
Proof.
  intros Hf HF Hx Hp s.
  pose proof u53_pos as Hu0. pose proof u53_small as Hu1.
  set (F := B2R f) in *. set (P := IZR p).
  assert (HP1 : 1 <= P) by (apply IZR_le; lia).
  assert (HPM : P <= pow2 969) by (rewrite pow2_IZR by lia; apply IZR_le; lia).
  pose proof (pow2_pos (-1022)) as Hpm. pose proof (pow2_pos (-53)) as Hp53.
  pose proof (pow2_pos 969) as Hp969.
  assert (Hnorm1 : pow2 (-1022) <= 1).
  { rewrite <- pow2_0. apply pow2_le. lia. }
  (* the processor count *)
  destruct (float_of_int_Rounds p x Hx) as [HxR Hfx]. fold P in HxR.
  pose proof (float_of_int_ge_1 p x Hx ltac:(lia)) as HX1.
  assert (HXM : B2R x <= pow2 969).
  { assert (Hb : 0 <= P <= pow2 969) by lra.
    destruct (Rounds_upper _ _ _ HxR Hb (dyadic_pow2 969 ltac:(lia))) as [_ H]. lra. }
  assert (AX : approx (1 * u53) P (B2R x)).
  { apply Rounds_approx; [assumption|assumption|lra]. }
  assert (AiX : approx ((1 + 1) * u53) (/ P) (/ B2R x)).
  { apply (approx_inv u53 Hu0 Hu1 1); try lra. exact AX. }
  (* the steps of the formula *)
  destruct (speedup_steps f x Hf HF Hfx HX1)
    as ((Hft & HT) & (Hfq & HQ & Hq) & (Hfd & HD & _ & HQD & Hd) & (Hs & _)).
  fold s in Hs.
  set (t := (1 - f)%float) in *. set (q := (t / x)%float) in *.
  set (d := (f + q)%float) in *.
  assert (HXb : 1 <= B2R x <= pow2 969) by lra.
  destruct (derived_finite f x 969 Hf HF Hfx HXb ltac:(lia))
    as ((Hfs & HS) & (Hfe & HE) & (Hfr & HR)).
  fold t q d s in Hfs, HS, Hfe, HE, Hfr, HR.
  pose proof (sub_Rounds 1 f finite_1 Hf) as Ht. rewrite B2R_1 in Ht.
  fold t F in Ht.
  pose proof (one_minus_lower f Hf HF) as HcF. fold F in HcF.
  assert (AT : approx (1 * u53) (1 - F) (B2R t)).
  { apply Rounds_approx; [assumption|assumption|].
    apply Rle_trans with (pow2 (-53)); [apply pow2_le; lia|assumption]. }
  assert (HiP : 0 < / P) by (apply Rinv_0_lt_compat; lra).
  assert (HiX : 0 < / B2R x) by (apply Rinv_0_lt_compat; lra).
  assert (AQ0 : approx ((1 + (1 + 1) + 1) * u53) ((1 - F) * / P) (B2R t * / B2R x)).
  { apply (approx_mul u53 Hu0 1 (1 + 1)); try lra; assumption. }
  assert (HTX : pow2 (-1022) <= B2R t / B2R x).
  { replace (-1022)%Z with (-53 + - (969))%Z by lia.
    rewrite pow2_add, pow2_opp. unfold Rdiv.
    apply Rmult_le_compat; try lra.
    - apply Rlt_le, Rinv_0_lt_compat. assumption.
    - apply Rinv_le_contravar; lra. }
  assert (Hqs : 0 < (1 - F) * / P) by nra.
  assert (AQ : approx ((4 + 2) * u53) ((1 - F) * / P) (B2R q)).
  { apply (approx_round u53 Hu0 Hu1 4 _ (B2R t / B2R x)); try lra.
    - replace 4 with (1 + (1 + 1) + 1) by ring. exact AQ0.
    - fold (approx u53 (B2R t / B2R x) (B2R q)).
      rewrite <- (Rmult_1_l u53). apply Rounds_approx; assumption. }
  assert (HQn : pow2 (-1022) <= B2R q).
  { apply (Rounds_ge _ _ _ Hq Hfq); [lra|]. intros _. apply dyadic_pow2. lia. }
  set (ds := F + (1 - F) * / P).
  assert (Hds : 0 < ds) by (unfold ds; lra).
  assert (AD0 : approx ((4 + 2) * u53) ds (F + B2R q)).
  { apply approx_add_exact; try lra. exact AQ. }
  assert (AD : approx ((6 + 2) * u53) ds (B2R d)).
  { apply (approx_round u53 Hu0 Hu1 6 _ (F + B2R q)); try lra.
    - replace 6 with (4 + 2) by ring. exact AD0.
    - fold (approx u53 (F + B2R q) (B2R d)).
      rewrite <- (Rmult_1_l u53). apply Rounds_approx; [assumption|assumption|lra]. }
  assert (AS0 : approx ((8 + 1) * u53) (/ ds) (/ B2R d)).
  { apply (approx_inv u53 Hu0 Hu1 8); try lra.
    replace 8 with (6 + 2) by ring. exact AD. }
  assert (Hsp : Ideal.speedup F P = / ds).
  { unfold Ideal.speedup, ds, Rdiv. rewrite Rmult_1_l. reflexivity. }
  assert (Hids : 0 < / ds) by (apply Rinv_0_lt_compat; assumption).
  assert (AS : approx ((9 + 2) * u53) (/ ds) (B2R s)).
  { apply (approx_round u53 Hu0 Hu1 9 _ (/ B2R d)); try lra.
    - replace 9 with (8 + 1) by ring. exact AS0.
    - fold (approx u53 (/ B2R d) (B2R s)).
      rewrite <- (Rmult_1_l u53). apply Rounds_approx; [|assumption|].
      + unfold Rdiv in Hs. rewrite Rmult_1_l in Hs. exact Hs.
      + apply Rle_trans with 1; [assumption|].
        rewrite <- Rinv_1. apply Rinv_le_contravar; lra. }
  assert (HX0 : B2R x <> 0) by lra. assert (HS0 : B2R s <> 0) by lra.
  pose proof (div_Rounds s x Hfs Hfx HX0) as He.
  pose proof (div_Rounds 1 s finite_1 Hfs HS0) as Hr. rewrite B2R_1 in Hr.
  split; [|split].
  - split; [assumption|]. rewrite Hsp. replace 11 with (9 + 2) by ring. exact AS.
  - split; [assumption|].
    assert (AE0 : approx ((11 + (1 + 1) + 1) * u53) (/ ds * / P) (B2R s * / B2R x)).
    { apply (approx_mul u53 Hu0 11 (1 + 1)); try lra; [|exact AiX].
      replace 11 with (9 + 2) by ring. exact AS. }
    unfold Ideal.efficiency. rewrite Hsp. unfold Rdiv at 1.
    replace 16 with (14 + 2) by ring.
    apply (approx_round u53 Hu0 Hu1 14 _ (B2R s / B2R x)); try lra.
    + nra.
    + replace 14 with (11 + (1 + 1) + 1) by ring. exact AE0.
    + fold (approx u53 (B2R s / B2R x) (B2R (s / x)%float)).
      rewrite <- (Rmult_1_l u53). apply Rounds_approx; [assumption|assumption|].
      apply Rle_trans with (pow2 (- (969))); [apply pow2_le; lia|].
      apply Rle_trans with (1 / B2R x); [apply Rinv_pow2_le; lra|].
      unfold Rdiv. apply Rmult_le_compat_r; lra.
  - split; [assumption|].
    unfold Ideal.time_ratio. rewrite Hsp. unfold Rdiv at 1. rewrite Rmult_1_l.
    replace 14 with (12 + 2) by ring.
    apply (approx_round u53 Hu0 Hu1 12 _ (/ B2R s)); try lra.
    + apply Rinv_0_lt_compat. assumption.
    + replace 12 with (11 + 1) by ring.
      apply (approx_inv u53 Hu0 Hu1 11); try lra.
      replace 11 with (9 + 2) by ring. exact AS.
    + fold (approx u53 (/ B2R s) (B2R (1 / s)%float)).
      rewrite <- (Rmult_1_l u53). apply Rounds_approx; [|assumption|].
      * unfold Rdiv in Hr. rewrite Rmult_1_l in Hr. exact Hr.
      * apply Rle_trans with (pow2 (- (969 + 1))); [apply pow2_le; lia|].
        rewrite pow2_opp. apply Rinv_le_contravar; lra.
Qed.

End Accuracy.

Section IdealLaw.
Local Open Scope R_scope.

Lemma ideal_denominator f p :
  0 <= f <= 1 -> 1 <= p ->
  / p <= f + (1 - f) / p <= 1 /\ 0 < f + (1 - f) / p.
Proof.
  intros Hf Hp.
  assert (Hip : 0 < / p <= 1).
  { split; [apply Rinv_0_lt_compat; lra|].
    rewrite <- Rinv_1. apply Rinv_le_contravar; lra. }
  unfold Rdiv. nra.
Qed.

Lemma ideal_speedup_bounds f p :
  0 <= f <= 1 -> 1 <= p -> 1 <= Ideal.speedup f p <= p.
Proof.
  intros Hf Hp. destruct (ideal_denominator f p Hf Hp) as [[Hlo Hhi] Hpos].
  unfold Ideal.speedup. set (d := f + (1 - f) / p) in *.
  unfold Rdiv. rewrite Rmult_1_l. split.
  - rewrite <- Rinv_1 at 1. apply Rinv_le_contravar; lra.
  - rewrite <- (Rinv_inv p). apply Rinv_le_contravar; [|assumption].
    apply Rinv_0_lt_compat. lra.
Qed.

Lemma ideal_efficiency_eq f p :
  0 <= f <= 1 -> 1 <= p -> Ideal.efficiency f p = / (f * p + (1 - f)).
Proof.
  intros Hf Hp. destruct (ideal_denominator f p Hf Hp) as [_ Hpos].
  unfold Ideal.efficiency, Ideal.speedup.
  replace (f * p + (1 - f)) with ((f + (1 - f) / p) * p) by (field; lra).
  unfold Rdiv. rewrite Rmult_1_l, Rinv_mult. reflexivity.
Qed.

Lemma ideal_efficiency_bounds f p :
  0 <= f <= 1 -> 1 <= p -> 0 < Ideal.efficiency f p <= 1.
Proof.
  intros Hf Hp. rewrite ideal_efficiency_eq by assumption.
  assert (1 <= f * p + (1 - f)) by nra.
  split; [apply Rinv_0_lt_compat; lra|].
  rewrite <- Rinv_1. apply Rinv_le_contravar; lra.
Qed.

Lemma ideal_efficiency_mono f p1 p2 :
  0 <= f <= 1 -> 1 <= p1 <= p2 ->
  Ideal.efficiency f p2 <= Ideal.efficiency f p1.
Proof.
  intros Hf Hp. rewrite !ideal_efficiency_eq by lra.
  apply Rinv_le_contravar; nra.
Qed.

Lemma ideal_time_ratio_bounds f p :
  0 <= f <= 1 -> 1 <= p -> / p <= Ideal.time_ratio f p <= 1.
Proof.
  intros Hf Hp. destruct (ideal_denominator f p Hf Hp) as [[Hlo Hhi] Hpos].
  assert (E : Ideal.time_ratio f p = f + (1 - f) / p).
  { unfold Ideal.time_ratio, Ideal.speedup.
    generalize (f + (1 - f) / p). intros d.
    unfold Rdiv. rewrite !Rmult_1_l, Rinv_inv. reflexivity. }
  rewrite E. lra.
Qed.

Lemma ideal_fully_parallel p :
  1 <= p -> Ideal.speedup 0 p = p /\ Ideal.efficiency 0 p = 1.
Proof.
  intros Hp. unfold Ideal.efficiency, Ideal.speedup.
  replace (0 + (1 - 0) / p) with (/ p) by (field; lra).
  unfold Rdiv. rewrite Rmult_1_l, Rinv_inv. split; [reflexivity|].
  apply Rinv_r. lra.
Qed.

Lemma ideal_fully_sequential p :
  1 <= p -> Ideal.speedup 1 p = 1 /\ Ideal.efficiency 1 p = / p /\
            Ideal.time_ratio 1 p = 1.
Proof.
  intros Hp. unfold Ideal.time_ratio, Ideal.efficiency, Ideal.speedup.
  replace (1 + (1 - 1) / p) with 1 by (field; lra).
  unfold Rdiv. rewrite !Rmult_1_l, !Rinv_1, !Rmult_1_l.
  split; [reflexivity|]. split; reflexivity.
Qed.

End IdealLaw.

Section AccuracyPy.
Local Open Scope R_scope.

Lemma float_of_int_969 p :
  (1 <= p <= 2 ^ 969)%Z -> exists x, float_of_int p = Ok x.
Proof.
  intros Hp.
  assert (Hr : returns (float_of_int p) = true).
  { apply float_of_int_returns; [lia|].
    assert (2 ^ 969 < 2 ^ 1024 - 2 ^ 970)%Z by reflexivity. lia. }
  destruct (float_of_int p) as [x|e]; [exists x; reflexivity|discriminate].
Qed.

(** Every result of the three scalar functions is finite and within the
    relative error [2^-49] of Amdahl's law over the reals, for processor
    counts up to [2^969]. *)
Lemma accuracy f p :
  in_unit f = true -> (1 <= p <= 2 ^ 969)%Z ->
  exists s e r,
    calculate_speedup f p = Ok s /\
    calculate_efficiency f p = Ok e /\
    calculate_execution_time_ratio f p = Ok r /\
    finite s /\ finite e /\ finite r /\
    1 <= B2R s /\ 0 < B2R e /\ B2R r <= 1 /\
    approx (pow2 (-49)) (Ideal.speedup (B2R f) (IZR p)) (B2R s) /\
    approx (pow2 (-49)) (Ideal.efficiency (B2R f) (IZR p)) (B2R e) /\
    approx (pow2 (-49)) (Ideal.time_ratio (B2R f) (IZR p)) (B2R r).
Proof.
  intros Hu Hp. rewrite <- u53_16.
  pose proof u53_pos as Hu0. pose proof u53_small as Hu1.
  destruct (in_unit_spec f Hu) as [Hf HF].
  destruct (float_of_int_969 p Hp) as [x Hx].
  assert (Hp1 : (1 <= p)%Z) by lia.
  destruct (float_of_int_Rounds p x Hx) as [HxR Hfx].
  pose proof (float_of_int_ge_1 p x Hx Hp1) as HX1.
  assert (HP1 : 1 <= IZR p) by (apply IZR_le; lia).
  assert (HPM : IZR p <= pow2 969) by (rewrite pow2_IZR by lia; apply IZR_le; lia).
  assert (HXM : B2R x <= pow2 969).
  { assert (Hb : 0 <= IZR p <= pow2 969) by lra.
    destruct (Rounds_upper _ _ _ HxR Hb (dyadic_pow2 969 ltac:(lia))) as [_ H]. lra. }
  assert (HX0 : B2R x <> 0) by lra.
  destruct (ideal_speedup_bounds (B2R f) (IZR p) HF HP1) as [HI1 HI2].
  destruct (ideal_efficiency_bounds (B2R f) (IZR p) HF HP1) as [HE1 HE2].
  destruct (ideal_time_ratio_bounds (B2R f) (IZR p) HF HP1) as [HR1 HR2].
  assert (HiP : 0 < / IZR p) by (apply Rinv_0_lt_compat; lra).
  destruct (f =? 1)%float eqn:E1.
  - (* fully sequential *)
    pose proof (calculate_speedup_one f p Hu Hp1 E1) as Hs.
    apply eqb_1_true in E1. subst f.
    pose proof (div_Rounds 1 x finite_1 Hfx HX0) as He. rewrite B2R_1 in He.
    assert (Hquo : pow2 (- (969)) <= 1 / B2R x <= 1).
    { split; [apply Rinv_pow2_le; lra | apply (Rinv_le_1 (B2R x)); lra]. }
    destruct (Rounds_between _ _ _ _ He (dyadic_pow2 (- (969)) ltac:(lia)) dyadic_1 Hquo)
      as [Hfe HE].
    pose proof (pow2_pos (- (969))) as Hpm.
    exists 1%float, (1 / x)%float, (1 / 1)%float.
    split; [exact Hs|].
    split.
    { unfold calculate_efficiency. rewrite Hs. simpl bind.
      apply truediv_int_Ok; assumption. }
    split.
    { unfold calculate_execution_time_ratio. rewrite Hs. reflexivity. }
    split; [exact finite_1|]. split; [exact Hfe|]. split; [reflexivity|].
    change (1 / 1)%float with 1%float. rewrite B2R_1 in *.
    destruct (ideal_fully_sequential (IZR p) HP1) as (-> & -> & ->).
    split; [lra|]. split; [lra|]. split; [lra|].
    split; [apply approx_refl; lra|]. split; [|apply approx_refl; lra].
    apply (approx_weaken ((2 + 2) * u53)); [lra|lra|].
    apply (approx_round u53 Hu0 Hu1 2 _ (/ B2R x)); try lra.
    + replace 2 with (1 + 1) by ring.
      apply (approx_inv u53 Hu0 Hu1 1); try lra.
      apply Rounds_approx; [assumption|assumption|].
      apply Rle_trans with 1; [|assumption]. rewrite <- pow2_0. apply pow2_le. lia.
    + fold (approx u53 (/ B2R x) (B2R (1 / x)%float)).
      rewrite <- (Rmult_1_l u53). apply Rounds_approx; [|assumption|].
      * unfold Rdiv in He. rewrite Rmult_1_l in He. exact He.
      * apply Rle_trans with (pow2 (- (969))); [apply pow2_le; lia|].
        unfold Rdiv in Hquo. rewrite Rmult_1_l in Hquo. lra.
  - (* the division path *)
    pose proof (proj1 (eqb_1_false f Hf) E1) as HF1.
    assert (HF' : 0 <= B2R f < 1) by lra.
    destruct (accuracy_div f x p Hf HF' Hx Hp) as ((Hfs & AS) & (Hfe & AE) & (Hfr & AR)).
    assert (HXb : 1 <= B2R x <= pow2 969) by lra.
    destruct (derived_finite f x 969 Hf HF' Hfx HXb ltac:(lia))
      as ((_ & HS) & (_ & HE) & (_ & HR)).
    set (s := (1 / (f + (1 - f) / x))%float) in *.
    pose proof (calculate_speedup_div f p x Hu Hp1 E1 Hx) as Hs. fold s in Hs.
    pose proof (pow2_pos (- (969))) as Hpm.
    exists s, (s / x)%float, (1 / s)%float.
    split; [exact Hs|].
    split.
    { unfold calculate_efficiency. rewrite Hs. simpl bind.
      apply truediv_int_Ok; assumption. }
    split.
    { unfold calculate_execution_time_ratio. rewrite Hs. simpl bind.
      apply truediv_Ok; [assumption|lra]. }
    repeat (split; [assumption|]).
    split; [lra|]. split; [lra|]. split; [lra|].
    split; [|split].
    + apply (approx_weaken (11 * u53)); [lra|lra|assumption].
    + exact AE.
    + apply (approx_weaken (14 * u53)); [lra|lra|assumption].
Qed.

End AccuracyPy.

Section Monotone.
Local Open Scope R_scope.

Lemma leb_infinity_finite x : finite x -> (infinity <=? x)%float = false.
Proof.
  unfold finite. rewrite leb_spec.
  change (Prim2SF infinity) with (S754_infinity false).
  destruct (Prim2SF x) as [s|s| |s m e]; try discriminate; reflexivity.
Qed.

(** More processors never lower the computed speedup and never raise the
    computed time ratio. *)
Lemma speedup_mono_div f x1 x2 :
  finite f -> 0 <= B2R f < 1 -> finite x1 -> finite x2 ->
  1 <= B2R x1 <= B2R x2 ->
  let s1 := (1 / (f + (1 - f) / x1))%float in
  let s2 := (1 / (f + (1 - f) / x2))%float in
  (s1 <=? s2)%float = true /\ (1 / s2 <=? 1 / s1)%float = true.
Proof.
  intros Hf HF Hx1 Hx2 [HX1 HX12] s1 s2.
  assert (HX2 : 1 <= B2R x2) by lra.
  destruct (speedup_steps f x1 Hf HF Hx1 HX1)
    as ((Hft & HT) & (Hfq1 & HQ1 & Hq1) & (Hfd1 & HD1 & _ & _ & Hd1) & (Hs1 & Hc1)).
  destruct (speedup_steps f x2 Hf HF Hx2 HX2)
    as (_ & (Hfq2 & HQ2 & Hq2) & (Hfd2 & HD2 & _ & _ & Hd2) & (Hs2 & Hc2)).
  fold s1 in Hs1, Hc1. fold s2 in Hs2, Hc2.
  set (t := (1 - f)%float) in *.
  pose proof (pow2_pos (-53)) as Hp53.
  (* the quotients *)
  assert (HQ21 : B2R (t / x2)%float <= B2R (t / x1)%float).
  { apply (leb_B2R _ _ Hfq2 Hfq1).
    apply (Rounds_mono _ _ _ _ Hq2 Hq1). split.
    - apply Rlt_le, Rdiv_lt_0_compat; lra.
    - unfold Rdiv. apply Rmult_le_compat_l; [lra|].
      apply Rinv_le_contravar; lra. }
  (* the denominators *)
  assert (HD21 : B2R (f + t / x2)%float <= B2R (f + t / x1)%float).
  { apply (leb_B2R _ _ Hfd2 Hfd1).
    apply (Rounds_mono _ _ _ _ Hd2 Hd1). lra. }
  (* the speedups *)
  assert (Hs12 : (s1 <=? s2)%float = true).
  { apply (Rounds_mono _ _ _ _ Hs1 Hs2). split.
    - apply Rlt_le, Rdiv_lt_0_compat; lra.
    - unfold Rdiv. rewrite !Rmult_1_l. apply Rinv_le_contravar; lra. }
  split; [exact Hs12|].
  (* the time ratios *)
  destruct Hc2 as [Hinf2|[Hfs2 HS2]].
  - rewrite Hinf2. change (1 / infinity)%float with 0%float.
    destruct Hc1 as [Hinf1|[Hfs1 HS1]].
    + rewrite Hinf1. reflexivity.
    + assert (HS0 : B2R s1 <> 0) by lra.
      pose proof (div_Rounds 1 s1 finite_1 Hfs1 HS0) as Hr1. rewrite B2R_1 in Hr1.
      assert (Hb : 0 <= 1 / B2R s1 <= 1).
      { destruct (Rinv_le_1 (B2R s1) HS1). lra. }
      destruct (Rounds_upper _ _ _ Hr1 Hb dyadic_1) as [Hfr1 HR1].
      apply (leb_B2R _ _ finite_0 Hfr1). rewrite B2R_0. lra.
  - destruct Hc1 as [Hinf1|[Hfs1 HS1]].
    + rewrite Hinf1 in Hs12. rewrite leb_infinity_finite in Hs12 by assumption.
      discriminate.
    + apply (leb_B2R _ _ Hfs1 Hfs2) in Hs12.
      assert (HS01 : B2R s1 <> 0) by lra. assert (HS02 : B2R s2 <> 0) by lra.
      pose proof (div_Rounds 1 s1 finite_1 Hfs1 HS01) as Hr1.
      pose proof (div_Rounds 1 s2 finite_1 Hfs2 HS02) as Hr2.
      rewrite B2R_1 in Hr1, Hr2.
      apply (Rounds_mono _ _ _ _ Hr2 Hr1). split.
      * apply Rlt_le, Rdiv_lt_0_compat; lra.
      * unfold Rdiv. rewrite !Rmult_1_l. apply Rinv_le_contravar; lra.
Qed.

Lemma float_of_int_mono p1 p2 x1 x2 :
  float_of_int p1 = Ok x1 -> float_of_int p2 = Ok x2 -> (1 <= p1 <= p2)%Z ->
  1 <= B2R x1 <= B2R x2.
Proof.
  intros H1 H2 Hp.
  destruct (float_of_int_Rounds p1 x1 H1) as [R1 F1].
  destruct (float_of_int_Rounds p2 x2 H2) as [R2 F2].
  split; [apply (float_of_int_ge_1 p1 x1 H1); lia|].
  apply (leb_B2R _ _ F1 F2). apply (Rounds_mono _ _ _ _ R1 R2).
  split; [apply IZR_le; lia | apply IZR_le; lia].
Qed.

End Monotone.

Section NumericClaims.
Local Open Scope R_scope.

Lemma accuracy_in_range f p s e r :
  0 <= B2R f <= 1 -> 1 <= IZR p ->
  finite s -> finite e -> finite r ->
  1 <= B2R s -> 0 < B2R e -> B2R r <= 1 ->
  approx (pow2 (-49)) (Ideal.speedup (B2R f) (IZR p)) (B2R s) ->
  approx (pow2 (-49)) (Ideal.efficiency (B2R f) (IZR p)) (B2R e) ->
  approx (pow2 (-49)) (Ideal.time_ratio (B2R f) (IZR p)) (B2R r) ->
  Ideal.in_range (IZR p) s e r.
Proof.
  intros HF HP Hfs Hfe Hfr HS HE HR AS AE AR.
  pose proof (pow2_pos (-49)) as Hc.
  assert (Hc1 : pow2 (-49) <= 1) by (rewrite <- pow2_0; apply pow2_le; lia).
  destruct (ideal_speedup_bounds _ _ HF HP) as [HI1 HI2].
  destruct (ideal_efficiency_bounds _ _ HF HP) as [HE1 HE2].
  destruct (ideal_time_ratio_bounds _ _ HF HP) as [HR1 HR2].
  apply approx_bounds in AS. apply approx_bounds in AE. apply approx_bounds in AR.
  assert (HiP : 0 < / IZR p) by (apply Rinv_0_lt_compat; lra).
  unfold Ideal.in_range. repeat (split; [assumption|]).
  split; [split; [assumption|nra]|].
  split; [split; [assumption|nra]|].
  split; [nra|assumption].
Qed.

(** C10 (as amended). For every [f] with [0 <= f <= 1] and every integer
    [p] with [1 <= p <= 2^969], the three scalar functions return finite
    floats with [1 <= S <= p (1 + 2^-49)], [0 < E <= 1 + 2^-49] and
    [(1/p) (1 - 2^-49) <= T <= 1]; and for [1 <= n <= 2^31 - 1] the same
    bounds hold at every index of the sequences of [SimulateScaling(f, n)],
    with [p = processors[i]]. *)
Theorem results_in_range (f : float) (p n : Z) :
  in_unit f = true -> (1 <= p <= 2 ^ 969)%Z -> (1 <= n <= 2 ^ 31 - 1)%Z ->
  (exists s e r,
     calculate_speedup f p = Ok s /\
     calculate_efficiency f p = Ok e /\
     calculate_execution_time_ratio f p = Ok r /\
     Ideal.in_range (IZR p) s e r) /\
  (exists res,
     simulate_scaling f n = Ok res /\
     forall i, (i < Z.to_nat n)%nat ->
       Ideal.in_range (IZR (nth i (processors res) 0%Z))
         (nth i (speedups res) 0%float)
         (nth i (efficiencies res) 0%float)
         (nth i (time_ratios res) 0%float)).
Proof.
  intros Hu Hp Hn.
  destruct (in_unit_spec f Hu) as [_ HF].
  assert (Hscalar : forall q, (1 <= q <= 2 ^ 969)%Z ->
            exists s e r,
              calculate_speedup f q = Ok s /\
              calculate_efficiency f q = Ok e /\
              calculate_execution_time_ratio f q = Ok r /\
              Ideal.in_range (IZR q) s e r).
  { intros q Hq.
    destruct (accuracy f q Hu Hq)
      as (s & e & r & Hs & He & Hr & Fs & Fe & Fr & HS & HE & HR & AS & AE & AR).
    exists s, e, r. repeat (split; [assumption|]).
    apply (accuracy_in_range f q); try assumption. apply IZR_le. lia. }
  split; [apply Hscalar; assumption|].
  destruct (simulate_scaling_scalar f n Hu Hn) as (res & Hres & _ & _ & _ & _ & Hcells).
  exists res. split; [assumption|].
  intros i Hi. destruct (Hcells i Hi) as (Hpi & Hs & He & Hr & _).
  rewrite Hpi.
  assert (Hq : (1 <= 1 + Z.of_nat i <= 2 ^ 969)%Z).
  { assert (2 ^ 31 <= 2 ^ 969)%Z by (apply Z.pow_le_mono_r; lia). lia. }
  destruct (Hscalar _ Hq) as (s & e & r & Hs' & He' & Hr' & Hrange).
  rewrite Hs in Hs'. rewrite He in He'. rewrite Hr in Hr'.
  inversion Hs'. inversion He'. inversion Hr'. subst. exact Hrange.
Qed.

Lemma results_in_range_witness :
  in_unit 0.25 = true /\ (1 <= 8 <= 2 ^ 969)%Z /\ (1 <= 4 <= 2 ^ 31 - 1)%Z /\
  (exists s e r,
     calculate_speedup 0.25 8 = Ok s /\
     calculate_efficiency 0.25 8 = Ok e /\
     calculate_execution_time_ratio 0.25 8 = Ok r /\
     Ideal.in_range (IZR 8) s e r) /\
  (exists res,
     simulate_scaling 0.25 4 = Ok res /\
     forall i, (i < Z.to_nat 4)%nat ->
       Ideal.in_range (IZR (nth i (processors res) 0%Z))
         (nth i (speedups res) 0%float)
         (nth i (efficiencies res) 0%float)
         (nth i (time_ratios res) 0%float)).
Proof.
  split; [reflexivity|].
  assert (H8 : (1 <= 8 <= 2 ^ 969)%Z).
  { split; [lia|]. apply Z.leb_le. reflexivity. }
  split; [exact H8|]. split; [lia|].
  exact (results_in_range 0.25 8 4 eq_refl H8 ltac:(lia)).
Defined.

(** C10 fails as stated at [f = 0], [p = 49]: the speedup is above [p] and
    the efficiency is above 1. *)
Lemma results_out_of_range_at_49 :
  in_unit 0 = true /\
  exists s e,
    calculate_speedup 0 49 = Ok s /\ calculate_efficiency 0 49 = Ok e /\
    (Np.float64 49 <? s)%float = true /\ (1 <? e)%float = true.
Proof.
  split; [reflexivity|].
  exists 0x1.8800000000001p+5%float, 0x1.0000000000001p+0%float.
  repeat split.
Qed.

(** C7 (as amended). For [f = 0] and every integer [p] with
    [1 <= p <= 2^969], [Speedup(0, p)] is a finite float within the relative
    error [2^-49] of [p], and [Efficiency(0, p)] is within [2^-49] of 1. *)
Theorem fully_parallel_accuracy (p : Z) :
  (1 <= p <= 2 ^ 969)%Z ->
  exists s e,
    calculate_speedup 0 p = Ok s /\ calculate_efficiency 0 p = Ok e /\
    finite s /\ finite e /\
    Rabs (B2R s - IZR p) <= pow2 (-49) * IZR p /\
    Rabs (B2R e - 1) <= pow2 (-49).
Proof.
  intros Hp.
  destruct (accuracy 0 p eq_refl Hp)
    as (s & e & r & Hs & He & _ & Fs & Fe & _ & _ & _ & _ & AS & AE & _).
  exists s, e. repeat (split; [assumption|]).
  assert (HP : 1 <= IZR p) by (apply IZR_le; lia).
  rewrite B2R_0 in AS, AE.
  destruct (ideal_fully_parallel (IZR p) HP) as [E1 E2].
  rewrite E1 in AS. rewrite E2 in AE. unfold approx in AS, AE.
  split; [exact AS|]. rewrite Rmult_1_r in AE. exact AE.
Qed.

Lemma fully_parallel_accuracy_witness :
  (1 <= 49 <= 2 ^ 969)%Z /\
  exists s e,
    calculate_speedup 0 49 = Ok s /\ calculate_efficiency 0 49 = Ok e /\
    finite s /\ finite e /\
    Rabs (B2R s - IZR 49) <= pow2 (-49) * IZR 49 /\
    Rabs (B2R e - 1) <= pow2 (-49).
Proof.
  assert (H : (1 <= 49 <= 2 ^ 969)%Z).
  { split; [lia|]. apply Z.leb_le. reflexivity. }
  split; [exact H|]. exact (fully_parallel_accuracy 49 H).
Defined.

(** C7 fails as stated at [p = 49]: the efficiency is not 1.0 but the next
    float above it, and the speedup is not the float 49. *)
Lemma fully_parallel_efficiency_at_49 :
  calculate_efficiency 0 49 = Ok 0x1.0000000000001p+0%float /\
  (0x1.0000000000001p+0 =? 1)%float = false /\
  calculate_speedup 0 49 = Ok 0x1.8800000000001p+5%float /\
  (0x1.8800000000001p+5 =? Np.float64 49)%float = false.
Proof. repeat split. Qed.

(** C4 (as amended). For every fixed [f] with [0 <= f < 1] and integers
    [1 <= p1 <= p2] that convert to floats, [Speedup(f, p1) <= Speedup(f, p2)]
    and [ExecutionTimeRatio(f, p2) <= ExecutionTimeRatio(f, p1)] as floats
    (the speedup is non-decreasing: rounding can make neighbours equal); and
    for [p2 <= 2^969], [Efficiency(f, p2) <= Efficiency(f, p1) (1 + 2^-47)]:
    the efficiency is non-increasing up to rounding. *)
Theorem monotone_in_processors (f : float) (p1 p2 : Z) :
  in_unit f = true -> (f =? 1)%float = false ->
  (1 <= p1 <= p2)%Z -> (p2 < 2 ^ 1024 - 2 ^ 970)%Z ->
  (exists s1 s2 r1 r2,
     calculate_speedup f p1 = Ok s1 /\ calculate_speedup f p2 = Ok s2 /\
     calculate_execution_time_ratio f p1 = Ok r1 /\
     calculate_execution_time_ratio f p2 = Ok r2 /\
     (s1 <=? s2)%float = true /\ (r2 <=? r1)%float = true) /\
  ((p2 <= 2 ^ 969)%Z ->
   exists e1 e2,
     calculate_efficiency f p1 = Ok e1 /\ calculate_efficiency f p2 = Ok e2 /\
     finite e1 /\ finite e2 /\
     B2R e2 <= B2R e1 * (1 + pow2 (-47))).
Proof.
  intros Hu E1 Hp Hp2.
  destruct (in_unit_spec f Hu) as [Hf HF].
  pose proof (proj1 (eqb_1_false f Hf) E1) as HF1.
  assert (HF' : 0 <= B2R f < 1) by lra.
  split.
  - assert (Hr1 : returns (float_of_int p1) = true)
      by (apply float_of_int_returns; lia).
    assert (Hr2 : returns (float_of_int p2) = true)
      by (apply float_of_int_returns; lia).
    destruct (float_of_int p1) as [x1|] eqn:Hx1; [|discriminate].
    destruct (float_of_int p2) as [x2|] eqn:Hx2; [|discriminate].
    destruct (float_of_int_Rounds p1 x1 Hx1) as [_ Hfx1].
    destruct (float_of_int_Rounds p2 x2 Hx2) as [_ Hfx2].
    pose proof (float_of_int_mono p1 p2 x1 x2 Hx1 Hx2 Hp) as HX.
    destruct (speedup_mono_div f x1 x2 Hf HF' Hfx1 Hfx2 HX) as [Hs Hr].
    pose proof (calculate_speedup_div f p1 x1 Hu ltac:(lia) E1 Hx1) as Hs1.
    pose proof (calculate_speedup_div f p2 x2 Hu ltac:(lia) E1 Hx2) as Hs2.
    destruct (calculate_speedup_nonzero f p1 _ Hu ltac:(lia) Hs1) as [Hz1 _].
    destruct (calculate_speedup_nonzero f p2 _ Hu ltac:(lia) Hs2) as [Hz2 _].
    eexists _, _, _, _.
    split; [exact Hs1|]. split; [exact Hs2|].
    split.
    { unfold calculate_execution_time_ratio. rewrite Hs1. simpl bind.
      unfold truediv. rewrite Hz1. reflexivity. }
    split.
    { unfold calculate_execution_time_ratio. rewrite Hs2. simpl bind.
      unfold truediv. rewrite Hz2. reflexivity. }
    split; assumption.
  - intros Hp969.
    destruct (accuracy f p1 Hu ltac:(lia))
      as (_ & e1 & _ & _ & He1 & _ & _ & Fe1 & _ & _ & HE1 & _ & _ & AE1 & _).
    destruct (accuracy f p2 Hu ltac:(lia))
      as (_ & e2 & _ & _ & He2 & _ & _ & Fe2 & _ & _ & HE2 & _ & _ & AE2 & _).
    exists e1, e2. repeat (split; [assumption|]).
    assert (HP1 : 1 <= IZR p1 <= IZR p2) by (split; apply IZR_le; lia).
    pose proof (ideal_efficiency_mono (B2R f) _ _ HF HP1) as Hmono.
    destruct (ideal_efficiency_bounds (B2R f) (IZR p1) HF ltac:(lra)) as [Hb1 _].
    destruct (ideal_efficiency_bounds (B2R f) (IZR p2) HF ltac:(lra)) as [Hb2 _].
    apply approx_bounds in AE1. apply approx_bounds in AE2.
    pose proof (pow2_pos (-49)) as Hc.
    assert (Hc4 : pow2 (-47) = 4 * pow2 (-49)).
    { replace 4 with (pow2 2) by (rewrite pow2_IZR by lia; simpl; lra).
      rewrite <- pow2_add. reflexivity. }
    assert (Hcs : pow2 (-49) <= / 1024).
    { apply Rle_trans with (pow2 (-10)); [apply pow2_le; lia|].
      change (-10)%Z with (- (10))%Z. rewrite pow2_opp, pow2_IZR by lia.
      apply Rinv_le_contravar; [lra|]. simpl. lra. }
    rewrite Hc4.
    set (c := pow2 (-49)) in *.
    set (a1 := Ideal.efficiency (B2R f) (IZR p1)) in *.
    set (a2 := Ideal.efficiency (B2R f) (IZR p2)) in *.
    apply Rle_trans with (a1 * (1 + c)); [nra|].
    apply Rle_trans with (a1 * (1 - c) * (1 + 4 * c)); [|nra].
    assert ((1 + c) <= (1 - c) * (1 + 4 * c)) by nra.
    nra.
Qed.

Lemma monotone_in_processors_witness :
  in_unit 0.25 = true /\ (0.25 =? 1)%float = false /\
  (1 <= 3 <= 7)%Z /\ (7 < 2 ^ 1024 - 2 ^ 970)%Z /\
  (exists s1 s2 r1 r2,
     calculate_speedup 0.25 3 = Ok s1 /\ calculate_speedup 0.25 7 = Ok s2 /\
     calculate_execution_time_ratio 0.25 3 = Ok r1 /\
     calculate_execution_time_ratio 0.25 7 = Ok r2 /\
     (s1 <=? s2)%float = true /\ (r2 <=? r1)%float = true) /\
  (7 <= 2 ^ 969)%Z /\
  (exists e1 e2,
     calculate_efficiency 0.25 3 = Ok e1 /\ calculate_efficiency 0.25 7 = Ok e2 /\
     finite e1 /\ finite e2 /\
     B2R e2 <= B2R e1 * (1 + pow2 (-47))).
Proof.
  assert (H7 : (7 < 2 ^ 1024 - 2 ^ 970)%Z) by (apply Z.ltb_lt; reflexivity).
  assert (H9 : (7 <= 2 ^ 969)%Z) by (apply Z.leb_le; reflexivity).
  split; [reflexivity|]. split; [reflexivity|]. split; [lia|]. split; [exact H7|].
  destruct (monotone_in_processors 0.25 3 7 eq_refl eq_refl ltac:(lia) H7)
    as [Hsr He].
  split; [exact Hsr|]. split; [exact H9|]. exact (He H9).
Defined.

(** C4 fails as stated.  At [f = 0.9999999999999999] the speedup is 1.0 for
    one processor and for two, so it is not strictly increasing; and at
    [f = 0] the efficiency rises from 48 processors to 49. *)
Lemma speedup_not_strictly_increasing :
  in_unit 0x1.fffffffffffffp-1 = true /\
  (0x1.fffffffffffffp-1 =? 1)%float = false /\
  calculate_speedup 0x1.fffffffffffffp-1 1 = Ok 1%float /\
  calculate_speedup 0x1.fffffffffffffp-1 2 = Ok 1%float /\
  calculate_efficiency 0 48 = Ok 1%float /\
  calculate_efficiency 0 49 = Ok 0x1.0000000000001p+0%float /\
  (1 <? 0x1.0000000000001p+0)%float = true.
Proof. repeat split. Qed.

End NumericClaims.

(** * The claims about [cli.py] *)

Section CliClaims.
Import Utils Cli.
Local Open Scope string_scope.
Local Open Scope Z_scope.

Lemma validate_fraction_exn f e :
  validate_fraction f = Utils.Raise e -> e = ValueError.
Proof.
  destruct f as [|b|z|x|s]; simpl; try discriminate; try congruence.
  - destruct ((0 <=? z) && (z <=? 1))%bool; congruence.
  - destruct (Amdahl.in_unit x); congruence.
Qed.

Lemma validate_processors_exn p e :
  validate_processors p = Utils.Raise e -> e = ValueError.
Proof.
  destruct p as [|b|z|x|s]; simpl; try discriminate; try congruence.
  - destruct b; congruence.
  - destruct (z <? 1); congruence.
  - destruct (float_to_int x) as [z|]; [destruct (z <? 1)|]; congruence.
Qed.

(** C9 (as amended). The process exits with code 0 when the body of [main]
    completes, with code 130 when a [KeyboardInterrupt] reaches [main], and
    with code 1 when any [Exception] does: every failure of
    [validate_fraction] or [validate_processors], and every failure to load a
    configuration file given with [--config].  When the fraction is given
    neither on the command line nor in the configuration, [parser.error]
    exits with code 2. *)
Theorem main_exit_codes (w : world) (args : namespace) :
  (main_body w args = Utils.Ok tt -> main w args = 0) /\
  (main_body w args = Utils.Raise KeyboardInterrupt -> main w args = 130) /\
  (forall e, main_body w args = Utils.Raise e -> is_Exception e = true ->
             main w args = 1) /\
  (forall e, explicit_config args = true ->
             load_config (fs w) (arg_config args) = Utils.Raise e ->
             is_Exception e = true -> main w args = 1) /\
  (forall f n g e, get_config_values w args = Utils.Ok (f, n, g) ->
             validate_fraction f = Utils.Raise e -> main w args = 1) /\
  (forall f n g e, get_config_values w args = Utils.Ok (f, n, g) ->
             validate_fraction f = Utils.Ok tt ->
             validate_processors n = Utils.Raise e -> main w args = 1) /\
  (forall d, arg_fraction args = None ->
             loaded_config w args = Utils.Ok (YMap d) ->
             assoc "fraction" d = None \/ assoc "fraction" d = Some PyNone ->
             main w args = 2).
Proof.
  unfold main.
  split; [intros ->; reflexivity|].
  split; [intros ->; reflexivity|].
  split; [intros e -> He; destruct e; try discriminate; reflexivity|].
  split.
  { intros e Hex Hload He. unfold main_body, get_config_values, loaded_config.
    rewrite Hex, Hload, He. reflexivity. }
  split.
  { intros f n g e Hcfg Hv. unfold main_body. rewrite Hcfg. simpl.
    rewrite Hv. apply validate_fraction_exn in Hv. subst e. reflexivity. }
  split.
  { intros f n g e Hcfg Hv Hp. unfold main_body. rewrite Hcfg. simpl.
    rewrite Hv. simpl. rewrite Hp.
    apply validate_processors_exn in Hp. subst e. reflexivity. }
  intros d Hfr Hload Hmiss. unfold main_body, get_config_values.
  rewrite Hload, Hfr. simpl.
  destruct Hmiss as [-> | ->]; reflexivity.
Qed.

Lemma main_exit_codes_witness :
  get_config_values quiet_world (fraction_args 1.5) =
    Utils.Ok (PyFloat 1.5, PyInt 100, PyBool true) /\
  validate_fraction (PyFloat 1.5) = Utils.Raise ValueError /\
  main quiet_world (fraction_args 1.5) = 1 /\
  main_body quiet_world (fraction_args 0.25) = Utils.Ok tt /\
  main quiet_world (fraction_args 0.25) = 0.
Proof.
  split; [reflexivity|]. split; [reflexivity|].
  split.
  - exact (proj1 (proj2 (proj2 (proj2 (proj2
             (main_exit_codes quiet_world (fraction_args 1.5))))))
             _ _ _ _ eq_refl eq_refl).
  - split; [reflexivity|].
    exact (proj1 (main_exit_codes quiet_world (fraction_args 0.25)) eq_refl).
Defined.

(** C9 fails as stated when the fraction is missing: the exit code is 2. *)
Lemma main_missing_fraction_exits_2 :
  arg_fraction bare_args = None /\
  loaded_config quiet_world bare_args = Utils.Ok (YMap []) /\
  main quiet_world bare_args = 2 /\ main quiet_world bare_args <> 1.
Proof. repeat split. discriminate. Qed.

End CliClaims.

(** * Further properties of [amdahl.py] *)

Section AmdahlProperties.
Local Open Scope R_scope.

(** With one processor the division path gives exactly [1.0]. *)
Lemma speedup_expr_at_1 f :
  finite f -> 0 <= B2R f < 1 -> (1 / (f + (1 - f) / 1))%float = 1%float.
Proof.
  intros Hf HF.
  destruct (complement_facts f Hf ltac:(lra)) as (Hft & HT & HTlo & _ & _ & Hfz & Hz).
  specialize (HTlo ltac:(lra)). pose proof (pow2_pos (-53)) as Hp53.
  assert (HTpos : 0 < B2R (1 - f)%float) by lra.
  assert (Hq : ((1 - f) / 1)%float = (1 - f)%float).
  { assert (H10 : B2R 1 <> 0) by (rewrite B2R_1; lra).
    pose proof (div_Rounds (1 - f)%float 1 Hft finite_1 H10) as Hq.
    rewrite B2R_1 in Hq. unfold Rdiv in Hq. rewrite Rinv_1, Rmult_1_r in Hq.
    destruct (Rounds_exact _ _ Hq (finite_dyadic _ Hft HTpos)) as [Hfq Eq].
    apply B2R_inj; try assumption. lra. }
  rewrite Hq.
  assert (Hd : (f + (1 - f))%float = 1%float).
  { apply B2R_inj; try assumption; [exact finite_1| |].
    - rewrite Hz, B2R_1. reflexivity.
    - rewrite Hz. lra. }
  rewrite Hd. reflexivity.
Qed.

Lemma in_unit_lt_1 f :
  in_unit f = true -> (f =? 1)%float = false -> finite f /\ 0 <= B2R f < 1.
Proof.
  intros Hu E1. destruct (in_unit_spec f Hu) as [Hf HF].
  pose proof (proj1 (eqb_1_false f Hf) E1). split; [assumption|lra].
Qed.

(** The five ways a call of [calculate_speedup] ends. *)
Lemma calculate_speedup_cases f p :
  (in_unit f = false /\
   calculate_speedup f p = Raise (ValueError FractionOutOfRange)) \/
  (in_unit f = true /\ (p < 1)%Z /\
   calculate_speedup f p = Raise (ValueError ProcessorsTooSmall)) \/
  (in_unit f = true /\ (1 <= p)%Z /\ (f =? 1)%float = true /\
   calculate_speedup f p = Ok 1%float) \/
  (in_unit f = true /\ (1 <= p < 2 ^ 1024 - 2 ^ 970)%Z /\
   (f =? 1)%float = false /\
   exists x, float_of_int p = Ok x /\
             calculate_speedup f p = Ok (1 / (f + (1 - f) / x))%float) \/
  (in_unit f = true /\ (2 ^ 1024 - 2 ^ 970 <= p)%Z /\ (1 <= p)%Z /\
   (f =? 1)%float = false /\
   float_of_int p = Raise OverflowError /\
   calculate_speedup f p = Raise OverflowError).
Proof.
  destruct (in_unit f) eqn:Hu.
  2:{ left. split; [reflexivity|]. unfold calculate_speedup. rewrite Hu. reflexivity. }
  right. destruct (Z_lt_le_dec p 1) as [Hlt|Hge].
  { left. repeat split; try assumption. unfold calculate_speedup. rewrite Hu.
    simpl. apply Z.ltb_lt in Hlt. rewrite Hlt. reflexivity. }
  right. destruct (f =? 1)%float eqn:E1.
  { left. repeat split; try assumption. apply calculate_speedup_one; assumption. }
  right. destruct (Z_lt_le_dec p (2 ^ 1024 - 2 ^ 970)) as [Hlt|Hge'].
  - left. split; [reflexivity|]. split; [lia|]. split; [reflexivity|].
    pose proof (proj2 (float_of_int_returns p Hge) Hlt) as Hr.
    destruct (float_of_int p) as [x|e] eqn:Ex; [|discriminate].
    exists x. split; [reflexivity|]. apply calculate_speedup_div; assumption.
  - right. split; [reflexivity|]. split; [assumption|]. split; [assumption|].
    split; [reflexivity|].
    assert (Hr : returns (float_of_int p) = false).
    { destruct (returns (float_of_int p)) eqn:Er; [|reflexivity].
      apply (float_of_int_returns p Hge) in Er. lia. }
    split.
    + destruct (float_of_int p) as [x|e] eqn:Ex; [discriminate|].
      apply float_of_int_exn in Ex. subst e. reflexivity.
    + apply calculate_speedup_overflow; assumption.
Qed.

(** X1. How every call of the three scalar functions ends, for every float [f]
    and every integer [p]: [calculate_speedup] and
    [calculate_execution_time_ratio] return exactly when [0 <= f <= 1],
    [p >= 1] and either [f == 1] or [p < 2^1024 - 2^970];
    [calculate_efficiency] returns exactly when [0 <= f <= 1] and
    [1 <= p < 2^1024 - 2^970] (for [f == 1] and a larger [p] its own division
    by [p] raises [OverflowError]); none of the three ever raises
    [ZeroDivisionError]. *)
Theorem scalar_call_outcomes (f : float) (p : Z) :
  (returns (calculate_speedup f p) = true <->
   in_unit f = true /\ (1 <= p)%Z /\
   ((f =? 1)%float = true \/ (p < 2 ^ 1024 - 2 ^ 970)%Z)) /\
  (returns (calculate_execution_time_ratio f p) = true <->
   returns (calculate_speedup f p) = true) /\
  (returns (calculate_efficiency f p) = true <->
   in_unit f = true /\ (1 <= p < 2 ^ 1024 - 2 ^ 970)%Z) /\
  (calculate_efficiency f p = Raise OverflowError <->
   in_unit f = true /\ (1 <= p)%Z /\ (2 ^ 1024 - 2 ^ 970 <= p)%Z) /\
  calculate_speedup f p <> Raise ZeroDivisionError /\
  calculate_efficiency f p <> Raise ZeroDivisionError /\
  calculate_execution_time_ratio f p <> Raise ZeroDivisionError.
Proof.
  unfold calculate_efficiency, calculate_execution_time_ratio.
  destruct (calculate_speedup_cases f p)
    as [[Hu Hs]|[(Hu & Hp & Hs)|[(Hu & Hp & E1 & Hs)|
        [(Hu & Hp & E1 & x & Hx & Hs)|(Hu & Hp & Hp1 & E1 & Hx & Hs)]]]];
    rewrite Hs; simpl.
  - repeat split; intros; try discriminate; intuition congruence.
  - repeat split; intros; try discriminate; intuition (try congruence; lia).
  - unfold truediv. change (1 =? 0)%float with false. cbv iota.
    destruct (Z_lt_le_dec p (2 ^ 1024 - 2 ^ 970)) as [Hlt|Hge].
    + pose proof (proj2 (float_of_int_returns p Hp) Hlt) as Hr.
      destruct (float_of_int p) as [x|e] eqn:Ex; [|discriminate].
      rewrite (truediv_int_Ok _ p x Ex Hp). simpl.
      repeat split; intros; try discriminate; intuition (try congruence; lia).
    + assert (Hr : returns (float_of_int p) = false).
      { destruct (returns (float_of_int p)) eqn:Er; [|reflexivity].
        apply (float_of_int_returns p Hp) in Er. lia. }
      unfold truediv_int.
      destruct (float_of_int p) as [x|e] eqn:Ex; [discriminate|].
      apply float_of_int_exn in Ex. subst e. simpl.
      repeat split; intros; try discriminate; intuition (try congruence; lia).
  - rewrite (truediv_int_Ok _ p x Hx ltac:(lia)).
    destruct (calculate_speedup_nonzero f p _ Hu ltac:(lia) Hs) as [Hz _].
    unfold truediv. rewrite Hz. simpl.
    repeat split; intros; try discriminate; intuition (try congruence; lia).
  - repeat split; intros; try discriminate; intuition (try congruence; lia).
Qed.

(** X2. Amdahl's limit holds exactly in floating point: for [0 < f <= 1] and
    every [p >= 1] that converts to a float, the computed speedup never
    exceeds the float [1 / f]. *)
Theorem speedup_below_limit (f : float) (p : Z) :
  in_unit f = true -> (0 <? f)%float = true ->
  (1 <= p < 2 ^ 1024 - 2 ^ 970)%Z ->
  exists s, calculate_speedup f p = Ok s /\ (s <=? 1 / f)%float = true.
Proof.
  intros Hu H0 Hp.
  destruct (in_unit_spec f Hu) as [Hf HF].
  assert (HF0 : 0 < B2R f).
  { apply (ltb_B2R _ _ finite_0 Hf) in H0. rewrite B2R_0 in H0. exact H0. }
  assert (Hne : B2R f <> 0) by lra.
  pose proof (div_Rounds 1 f finite_1 Hf Hne) as HL. rewrite B2R_1 in HL.
  destruct (f =? 1)%float eqn:E1.
  - exists 1%float. split; [apply calculate_speedup_one; [assumption|lia|assumption]|].
    apply eqb_1_true in E1. subst f. reflexivity.
  - destruct (in_unit_lt_1 f Hu E1) as [_ HF1].
    pose proof (proj2 (float_of_int_returns p ltac:(lia)) ltac:(lia)) as Hr.
    destruct (float_of_int p) as [x|e] eqn:Ex; [|discriminate].
    destruct (float_of_int_Rounds p x Ex) as [_ Hfx].
    pose proof (float_of_int_ge_1 p x Ex ltac:(lia)) as HX.
    destruct (speedup_steps f x Hf HF1 Hfx HX)
      as (_ & _ & (Hfd & HD & HfD & _) & (Hs & _)).
    eexists. split; [apply calculate_speedup_div; try eassumption; lia|].
    apply (Rounds_mono _ _ _ _ Hs HL). split.
    + apply Rlt_le, Rdiv_lt_0_compat; lra.
    + unfold Rdiv. rewrite !Rmult_1_l. apply Rinv_le_contravar; lra.
Qed.

Lemma speedup_below_limit_witness :
  in_unit 0.25 = true /\ (0 <? 0.25)%float = true /\
  (1 <= 1000 < 2 ^ 1024 - 2 ^ 970)%Z /\
  exists s, calculate_speedup 0.25 1000 = Ok s /\ (s <=? 1 / 0.25)%float = true.
Proof.
  assert (H : (1 <= 1000 < 2 ^ 1024 - 2 ^ 970)%Z).
  { split; [lia|]. apply Z.ltb_lt. reflexivity. }
  split; [reflexivity|]. split; [reflexivity|]. split; [exact H|].
  exact (speedup_below_limit 0.25 1000 eq_refl eq_refl H).
Defined.

Lemma div_infinity_pos x :
  finite x -> 0 < B2R x -> (infinity / x)%float = infinity.
Proof.
  unfold finite, B2R. intros Hf Hx. apply Prim2SF_inj. rewrite div_spec.
  change (Prim2SF infinity) with (S754_infinity false).
  destruct (Prim2SF x) as [s|s| |s m e]; simpl in *; try discriminate; try lra.
  destruct s; [|reflexivity].
  pose proof (pow2_pos e). assert (0 < IZR (Zpos m)) by (apply IZR_lt; lia).
  nra.
Qed.

(** A quotient of two floats that are at least 1 is positive: it cannot
    underflow to zero. *)
Lemma quotient_positive a x :
  a = infinity \/ (finite a /\ 1 <= B2R a) -> finite x -> 1 <= B2R x ->
  (0 <? a / x)%float = true.
Proof.
  intros [->|[Ha HA]] Hx HX.
  - rewrite div_infinity_pos by (assumption || lra). reflexivity.
  - pose proof (div_Rounds a x Ha Hx ltac:(lra)) as Hq.
    pose proof (finite_lt_overflow x Hx) as Hmax.
    assert (Hb : pow2 (-1024) <= B2R a / B2R x).
    { apply Rle_trans with (1 / B2R x).
      - apply (Rinv_pow2_le (B2R x) 1024). lra.
      - unfold Rdiv. apply Rmult_le_compat_r; [|lra].
        apply Rlt_le, Rinv_0_lt_compat. lra. }
    pose proof (pow2_pos (-1024)) as Hpos.
    destruct (Rounds_lower _ _ _ Hq (dyadic_pow2 (-1024) ltac:(lia)) Hb)
      as [[Hfq HQ]| ->]; [|reflexivity].
    apply (ltb_B2R _ _ finite_0 Hfq). rewrite B2R_0. lra.
Qed.

(** The reciprocal of a float that is at least 1 lies in [0, 1]. *)
Lemma reciprocal_in_unit s :
  s = infinity \/ (finite s /\ 1 <= B2R s) ->
  (0 <=? 1 / s)%float = true /\ (1 / s <=? 1)%float = true.
Proof.
  intros [->|[Hs HS]].
  - change (1 / infinity)%float with 0%float. split; reflexivity.
  - pose proof (div_Rounds 1 s finite_1 Hs ltac:(lra)) as Hr. rewrite B2R_1 in Hr.
    assert (Hb : 0 <= 1 / B2R s <= 1) by (destruct (Rinv_le_1 (B2R s) HS); lra).
    destruct (Rounds_upper _ _ _ Hr Hb dyadic_1) as [Hfr HR].
    split.
    + apply (leb_B2R _ _ finite_0 Hfr). rewrite B2R_0. lra.
    + apply (leb_B2R _ _ Hfr finite_1). rewrite B2R_1. lra.
Qed.

(** X3. On the whole domain on which the three scalar functions return
    ([0 <= f <= 1], [1 <= p < 2^1024 - 2^970]) the results are never NaN and
    never leave the sign of their range: the speedup is at least [1.0], the
    efficiency is strictly positive, and the time ratio lies in [0, 1]. *)
Theorem results_never_nan (f : float) (p : Z) :
  in_unit f = true -> (1 <= p < 2 ^ 1024 - 2 ^ 970)%Z ->
  exists s e r,
    calculate_speedup f p = Ok s /\
    calculate_efficiency f p = Ok e /\
    calculate_execution_time_ratio f p = Ok r /\
    (1 <=? s)%float = true /\ (0 <? e)%float = true /\
    (0 <=? r)%float = true /\ (r <=? 1)%float = true.
Proof.
  intros Hu Hp.
  pose proof (proj2 (float_of_int_returns p ltac:(lia)) ltac:(lia)) as Hr.
  destruct (float_of_int p) as [x|e] eqn:Ex; [|discriminate].
  destruct (float_of_int_Rounds p x Ex) as [_ Hfx].
  pose proof (float_of_int_ge_1 p x Ex ltac:(lia)) as HX.
  assert (Hs : exists s, calculate_speedup f p = Ok s /\
                 (s = infinity \/ (finite s /\ 1 <= B2R s))).
  { destruct (f =? 1)%float eqn:E1.
    - exists 1%float. split; [apply calculate_speedup_one; [assumption|lia|assumption]|].
      right. split; [exact finite_1|rewrite B2R_1; lra].
    - destruct (in_unit_lt_1 f Hu E1) as [Hf HF].
      eexists. split; [apply calculate_speedup_div; try eassumption; lia|].
      destruct (speedup_steps f x Hf HF Hfx HX) as (_ & _ & _ & (_ & Hc)).
      exact Hc. }
  destruct Hs as (s & Hs & Hc).
  destruct (calculate_speedup_nonzero f p s Hu ltac:(lia) Hs) as [Hz H1].
  destruct (reciprocal_in_unit s Hc) as [Hr0 Hr1].
  exists s, (s / x)%float, (1 / s)%float.
  split; [exact Hs|]. split.
  { unfold calculate_efficiency. rewrite Hs. simpl.
    apply truediv_int_Ok; [assumption|lia]. }
  split.
  { unfold calculate_execution_time_ratio. rewrite Hs. simpl.
    unfold truediv. rewrite Hz. reflexivity. }
  split; [exact H1|]. split; [apply quotient_positive; assumption|].
  split; assumption.
Qed.

Lemma results_never_nan_witness :
  in_unit 0 = true /\ (1 <= 2 ^ 1023 < 2 ^ 1024 - 2 ^ 970)%Z /\
  exists s e r,
    calculate_speedup 0 (2 ^ 1023) = Ok s /\
    calculate_efficiency 0 (2 ^ 1023) = Ok e /\
    calculate_execution_time_ratio 0 (2 ^ 1023) = Ok r /\
    (1 <=? s)%float = true /\ (0 <? e)%float = true /\
    (0 <=? r)%float = true /\ (r <=? 1)%float = true.
Proof.
  assert (H : (1 <= 2 ^ 1023 < 2 ^ 1024 - 2 ^ 970)%Z).
  { split; [apply Z.leb_le|apply Z.ltb_lt]; reflexivity. }
  split; [reflexivity|]. split; [exact H|].
  exact (results_never_nan 0 (2 ^ 1023) eq_refl H).
Defined.

(** X4. The three results are accurate: for [0 <= f <= 1] and
    [1 <= p <= 2^969] each function returns a finite float within the
    relative error [2^-49] of the value Amdahl's law gives over the reals,
    [1 / (f + (1 - f) / p)], that value over [p], and its reciprocal. *)
Theorem results_accurate (f : float) (p : Z) :
  in_unit f = true -> (1 <= p <= 2 ^ 969)%Z ->
  exists s e r,
    calculate_speedup f p = Ok s /\
    calculate_efficiency f p = Ok e /\
    calculate_execution_time_ratio f p = Ok r /\
    finite s /\ finite e /\ finite r /\
    Rabs (B2R s - Ideal.speedup (B2R f) (IZR p))
      <= pow2 (-49) * Ideal.speedup (B2R f) (IZR p) /\
    Rabs (B2R e - Ideal.efficiency (B2R f) (IZR p))
      <= pow2 (-49) * Ideal.efficiency (B2R f) (IZR p) /\
    Rabs (B2R r - Ideal.time_ratio (B2R f) (IZR p))
      <= pow2 (-49) * Ideal.time_ratio (B2R f) (IZR p).
Proof.
  intros Hu Hp.
  destruct (accuracy f p Hu Hp)
    as (s & e & r & Hs & He & Hr & Fs & Fe & Fr & _ & _ & _ & AS & AE & AR).
  exists s, e, r. repeat (split; [assumption|]). exact AR.
Qed.

Lemma results_accurate_witness :
  in_unit 0x1.999999999999ap-5 = true /\ (1 <= 100 <= 2 ^ 969)%Z /\
  exists s e r,
    calculate_speedup 0x1.999999999999ap-5 100 = Ok s /\
    calculate_efficiency 0x1.999999999999ap-5 100 = Ok e /\
    calculate_execution_time_ratio 0x1.999999999999ap-5 100 = Ok r /\
    finite s /\ finite e /\ finite r /\
    Rabs (B2R s - Ideal.speedup (B2R 0x1.999999999999ap-5) (IZR 100))
      <= pow2 (-49) * Ideal.speedup (B2R 0x1.999999999999ap-5) (IZR 100) /\
    Rabs (B2R e - Ideal.efficiency (B2R 0x1.999999999999ap-5) (IZR 100))
      <= pow2 (-49) * Ideal.efficiency (B2R 0x1.999999999999ap-5) (IZR 100) /\
    Rabs (B2R r - Ideal.time_ratio (B2R 0x1.999999999999ap-5) (IZR 100))
      <= pow2 (-49) * Ideal.time_ratio (B2R 0x1.999999999999ap-5) (IZR 100).
Proof.
  assert (H : (1 <= 100 <= 2 ^ 969)%Z).
  { split; [lia|]. apply Z.leb_le. reflexivity. }
  split; [reflexivity|]. split; [exact H|].
  exact (results_accurate 0x1.999999999999ap-5 100 eq_refl H).
Defined.

(** X6. With a single processor every result is exactly [1.0]: the scalar
    efficiency and time ratio, and the first row of every table
    [simulate_scaling] builds, for [1 <= max_procs <= 2^31 - 1]. *)
Theorem single_processor_row (f : float) (n : Z) :
  in_unit f = true -> (1 <= n <= 2 ^ 31 - 1)%Z ->
  calculate_efficiency f 1 = Ok 1%float /\
  calculate_execution_time_ratio f 1 = Ok 1%float /\
  exists r, simulate_scaling f n = Ok r /\
    nth 0 (processors r) 0%Z = 1%Z /\
    nth 0 (speedups r) 0%float = 1%float /\
    nth 0 (efficiencies r) 0%float = 1%float /\
    nth 0 (time_ratios r) 0%float = 1%float.
Proof.
  intros Hu Hn.
  assert (Hs : calculate_speedup f 1 = Ok 1%float).
  { destruct (f =? 1)%float eqn:E1.
    - apply calculate_speedup_one; [assumption|lia|assumption].
    - rewrite (calculate_speedup_div f 1 1%float Hu ltac:(lia) E1 eq_refl).
      destruct (in_unit_lt_1 f Hu E1) as [Hf HF].
      rewrite (speedup_expr_at_1 f Hf HF). reflexivity. }
  split; [unfold calculate_efficiency; rewrite Hs; reflexivity|].
  split; [unfold calculate_execution_time_ratio; rewrite Hs; reflexivity|].
  destruct (simulate_scaling_cells f n Hu ltac:(lia))
    as (r & Hr & Hproc & _ & _ & _ & _ & Hcells).
  exists r. split; [exact Hr|].
  destruct (Hcells 0%nat ltac:(lia)) as (Hs0 & He0 & Hr0).
  assert (Hp0 : nth 0 (processors r) 0%Z = 1%Z).
  { rewrite Hproc, nth_arange1 by lia. reflexivity. }
  rewrite Hp0 in Hs0, He0.
  change (Np.float64 1) with 1%float in Hs0, He0.
  assert (Hs1 : nth 0 (speedups r) 0%float = 1%float).
  { rewrite Hs0. destruct (f =? 1)%float eqn:E1; [reflexivity|].
    destruct (in_unit_lt_1 f Hu E1) as [Hf HF].
    apply speedup_expr_at_1; assumption. }
  rewrite Hs1 in He0, Hr0.
  repeat split; assumption.
Qed.

Lemma single_processor_row_witness :
  in_unit 0x1.999999999999ap-5 = true /\ (1 <= 100 <= 2 ^ 31 - 1)%Z /\
  calculate_efficiency 0x1.999999999999ap-5 1 = Ok 1%float /\
  calculate_execution_time_ratio 0x1.999999999999ap-5 1 = Ok 1%float /\
  exists r, simulate_scaling 0x1.999999999999ap-5 100 = Ok r /\
    nth 0 (processors r) 0%Z = 1%Z /\
    nth 0 (speedups r) 0%float = 1%float /\
    nth 0 (efficiencies r) 0%float = 1%float /\
    nth 0 (time_ratios r) 0%float = 1%float.
Proof.
  split; [reflexivity|]. split; [lia|].
  exact (single_processor_row 0x1.999999999999ap-5 100 eq_refl ltac:(lia)).
Defined.

(** X7. For a fully sequential program ([f == 1]) every time ratio is exactly
    [1.0] and every efficiency is exactly [1.0 / p]: in the scalar calls
    for every [p >= 1] that converts to a float, and in every row of the
    table of [simulate_scaling] for [1 <= max_procs <= 2^31 - 1]. *)
Theorem fully_sequential_rows (f : float) (p n : Z) :
  (f =? 1)%float = true -> (1 <= p < 2 ^ 1024 - 2 ^ 970)%Z ->
  (1 <= n <= 2 ^ 31 - 1)%Z ->
  calculate_execution_time_ratio f p = Ok 1%float /\
  (exists x, float_of_int p = Ok x /\
             calculate_efficiency f p = Ok (1 / x)%float) /\
  exists r, simulate_scaling f n = Ok r /\
    time_ratios r = repeat 1%float (Z.to_nat n) /\
    forall i, (i < Z.to_nat n)%nat ->
      nth i (efficiencies r) 0%float
        = (1 / Np.float64 (nth i (processors r) 0%Z))%float.
Proof.
  intros E1 Hp Hn. pose proof (eqb_1_true f E1) as ->.
  assert (Hs : calculate_speedup 1 p = Ok 1%float)
    by (apply calculate_speedup_one; [reflexivity|lia|reflexivity]).
  split; [unfold calculate_execution_time_ratio; rewrite Hs; reflexivity|].
  split.
  { pose proof (proj2 (float_of_int_returns p ltac:(lia)) ltac:(lia)) as Hr.
    destruct (float_of_int p) as [x|e] eqn:Ex; [|discriminate].
    exists x. split; [reflexivity|].
    unfold calculate_efficiency. rewrite Hs. simpl.
    apply truediv_int_Ok; [assumption|lia]. }
  destruct (simulate_scaling_cells 1 n eq_refl ltac:(lia))
    as (r & Hr & _ & _ & _ & _ & _ & Hcells).
  exists r. split; [exact Hr|]. split.
  - rewrite (simulate_scaling_value 1 n eq_refl ltac:(lia)) in Hr.
    change (1 =? 1)%float with true in Hr. cbv iota zeta in Hr.
    inversion Hr as [Er]. cbn [time_ratios].
    clear. induction (Z.to_nat n) as [|k IH]; [reflexivity|].
    simpl. rewrite IH. reflexivity.
  - intros i Hi. destruct (Hcells i Hi) as (Hs0 & He0 & _).
    change (1 =? 1)%float with true in Hs0. cbv iota in Hs0.
    rewrite He0, Hs0. reflexivity.
Qed.

Lemma fully_sequential_rows_witness :
  (1 =? 1)%float = true /\ (1 <= 10 < 2 ^ 1024 - 2 ^ 970)%Z /\
  (1 <= 10 <= 2 ^ 31 - 1)%Z /\
  calculate_execution_time_ratio 1 10 = Ok 1%float /\
  (exists x, float_of_int 10 = Ok x /\
             calculate_efficiency 1 10 = Ok (1 / x)%float) /\
  exists r, simulate_scaling 1 10 = Ok r /\
    time_ratios r = repeat 1%float (Z.to_nat 10) /\
    forall i, (i < Z.to_nat 10)%nat ->
      nth i (efficiencies r) 0%float
        = (1 / Np.float64 (nth i (processors r) 0%Z))%float.
Proof.
  assert (H : (1 <= 10 < 2 ^ 1024 - 2 ^ 970)%Z).
  { split; [lia|]. apply Z.ltb_lt. reflexivity. }
  split; [reflexivity|]. split; [exact H|]. split; [lia|].
  exact (fully_sequential_rows 1 10 10 eq_refl H ltac:(lia)).
Defined.

Lemma firstn_seq_le a n m : (n <= m)%nat -> firstn n (seq a m) = seq a n.
Proof.
  revert a m. induction n as [|n IH]; intros a m Hnm; [reflexivity|].
  destruct m as [|m]; [lia|]. simpl. rewrite IH by lia. reflexivity.
Qed.

Lemma firstn_repeat_le {A : Type} (x : A) n m :
  (n <= m)%nat -> firstn n (repeat x m) = repeat x n.
Proof.
  revert m. induction n as [|n IH]; intros m Hnm; [reflexivity|].
  destruct m as [|m]; [lia|]. simpl. rewrite IH by lia. reflexivity.
Qed.

(** X8. The rows of the table do not depend on its length: for
    [1 <= n <= m <= 2^31 - 1] the table [simulate_scaling(f, n)] is the
    first [n] rows of [simulate_scaling(f, m)], in all four columns. *)
Theorem simulate_scaling_prefix (f : float) (n m : Z) :
  in_unit f = true -> (1 <= n <= m)%Z -> (m <= 2 ^ 31 - 1)%Z ->
  exists rn rm,
    simulate_scaling f n = Ok rn /\ simulate_scaling f m = Ok rm /\
    processors rn = firstn (Z.to_nat n) (processors rm) /\
    speedups rn = firstn (Z.to_nat n) (speedups rm) /\
    efficiencies rn = firstn (Z.to_nat n) (efficiencies rm) /\
    time_ratios rn = firstn (Z.to_nat n) (time_ratios rm).
Proof.
  intros Hu Hnm Hm.
  rewrite (simulate_scaling_value f n Hu ltac:(lia)).
  rewrite (simulate_scaling_value f m Hu ltac:(lia)). cbv zeta.
  eexists _, _.
  split; [reflexivity|]. split; [reflexivity|].
  cbn [processors speedups efficiencies time_ratios].
  assert (HN : (Z.to_nat n <= Z.to_nat m)%nat) by lia.
  assert (Hproc : Np.cells n = firstn (Z.to_nat n) (Np.cells m)).
  { unfold Np.cells. rewrite firstn_map, firstn_seq_le by assumption.
    reflexivity. }
  assert (Hsp : (if (f =? 1)%float then repeat 1%float (Z.to_nat n)
                 else map (fun d => (1 / d)%float)
                        (map (fun p => (f + (1 - f) / Np.float64 p)%float)
                           (Np.cells n)))
                = firstn (Z.to_nat n)
                    (if (f =? 1)%float then repeat 1%float (Z.to_nat m)
                     else map (fun d => (1 / d)%float)
                            (map (fun p => (f + (1 - f) / Np.float64 p)%float)
                               (Np.cells m)))).
  { destruct (f =? 1)%float.
    - rewrite firstn_repeat_le by assumption. reflexivity.
    - rewrite !firstn_map, <- Hproc. reflexivity. }
  split; [exact Hproc|]. split; [exact Hsp|]. split.
  - unfold Np.map2. rewrite firstn_map, combine_firstn, <- Hsp, <- Hproc.
    reflexivity.
  - rewrite firstn_map, <- Hsp. reflexivity.
Qed.

Lemma simulate_scaling_prefix_witness :
  in_unit 0.25 = true /\ (1 <= 3 <= 5)%Z /\ (5 <= 2 ^ 31 - 1)%Z /\
  exists rn rm,
    simulate_scaling 0.25 3 = Ok rn /\ simulate_scaling 0.25 5 = Ok rm /\
    processors rn = firstn (Z.to_nat 3) (processors rm) /\
    speedups rn = firstn (Z.to_nat 3) (speedups rm) /\
    efficiencies rn = firstn (Z.to_nat 3) (efficiencies rm) /\
    time_ratios rn = firstn (Z.to_nat 3) (time_ratios rm).
Proof.
  split; [reflexivity|]. split; [lia|]. split; [lia|].
  exact (simulate_scaling_prefix 0.25 3 5 eq_refl ltac:(lia) ltac:(lia)).
Defined.

(** X9. The columns of the table are ordered: for [n <= 2^31 - 1] and rows
    [i <= j], [speedups[i] <= speedups[j]] and
    [time_ratios[j] <= time_ratios[i]]. *)
Theorem simulate_scaling_sorted (f : float) (n : Z) (i j : nat) :
  in_unit f = true -> (1 <= n <= 2 ^ 31 - 1)%Z ->
  (i <= j < Z.to_nat n)%nat ->
  exists r, simulate_scaling f n = Ok r /\
    (nth i (speedups r) 0 <=? nth j (speedups r) 0)%float = true /\
    (nth j (time_ratios r) 0 <=? nth i (time_ratios r) 0)%float = true.
Proof.
  intros Hu Hn Hij.
  destruct (simulate_scaling_cells f n Hu ltac:(lia))
    as (r & Hr & Hproc & _ & _ & _ & _ & Hcells).
  exists r. split; [exact Hr|].
  destruct (Hcells i ltac:(lia)) as (Hsi & _ & Hri).
  destruct (Hcells j ltac:(lia)) as (Hsj & _ & Hrj).
  rewrite Hri, Hrj, Hsi, Hsj. clear Hri Hrj Hsi Hsj Hcells.
  rewrite Hproc, !nth_arange1 by lia.
  rewrite !int32_id by lia.
  destruct (f =? 1)%float eqn:E1; [split; reflexivity|].
  destruct (in_unit_lt_1 f Hu E1) as [Hf HF].
  pose proof (float_of_int32 (1 + Z.of_nat i) ltac:(lia)) as Hxi.
  pose proof (float_of_int32 (1 + Z.of_nat j) ltac:(lia)) as Hxj.
  destruct (float_of_int_Rounds _ _ Hxi) as [_ Fi].
  destruct (float_of_int_Rounds _ _ Hxj) as [_ Fj].
  pose proof (float_of_int_mono _ _ _ _ Hxi Hxj ltac:(lia)) as HX.
  exact (speedup_mono_div f _ _ Hf HF Fi Fj HX).
Qed.

Lemma simulate_scaling_sorted_witness :
  in_unit 0.25 = true /\ (1 <= 8 <= 2 ^ 31 - 1)%Z /\
  (2 <= 6 < Z.to_nat 8)%nat /\
  exists r, simulate_scaling 0.25 8 = Ok r /\
    (nth 2 (speedups r) 0 <=? nth 6 (speedups r) 0)%float = true /\
    (nth 6 (time_ratios r) 0 <=? nth 2 (time_ratios r) 0)%float = true.
Proof.
  split; [reflexivity|]. split; [lia|].
  assert (H : (2 <= 6 < Z.to_nat 8)%nat) by (simpl; lia).
  split; [exact H|].
  exact (simulate_scaling_sorted 0.25 8 2 6 eq_refl ltac:(lia) H).
Defined.

(** X10. Every row of the table is accurate: for [n <= 2^31 - 1], row [i] holds
    [p = i + 1] and finite floats within the relative error [2^-49] of the
    speedup, efficiency and time ratio Amdahl's law gives over the reals for
    [p] processors. *)
Theorem simulate_scaling_accurate (f : float) (n : Z) (i : nat) :
  in_unit f = true -> (1 <= n <= 2 ^ 31 - 1)%Z -> (i < Z.to_nat n)%nat ->
  exists r, simulate_scaling f n = Ok r /\
    nth i (processors r) 0%Z = (1 + Z.of_nat i)%Z /\
    approx (pow2 (-49)) (Ideal.speedup (B2R f) (IZR (1 + Z.of_nat i)))
      (B2R (nth i (speedups r) 0%float)) /\
    approx (pow2 (-49)) (Ideal.efficiency (B2R f) (IZR (1 + Z.of_nat i)))
      (B2R (nth i (efficiencies r) 0%float)) /\
    approx (pow2 (-49)) (Ideal.time_ratio (B2R f) (IZR (1 + Z.of_nat i)))
      (B2R (nth i (time_ratios r) 0%float)).
Proof.
  intros Hu Hn Hi.
  destruct (simulate_scaling_scalar f n Hu Hn) as (r & Hr & _ & _ & _ & _ & Hcells).
  exists r. split; [exact Hr|].
  destruct (Hcells i Hi) as (Hp & Hs & He & Ht & _).
  split; [exact Hp|].
  assert (Hq : (1 <= 1 + Z.of_nat i <= 2 ^ 969)%Z).
  { assert (2 ^ 31 <= 2 ^ 969)%Z by (apply Z.pow_le_mono_r; lia). lia. }
  destruct (accuracy f _ Hu Hq)
    as (s & e & t & Hs' & He' & Ht' & _ & _ & _ & _ & _ & _ & AS & AE & AT).
  rewrite Hs in Hs'. rewrite He in He'. rewrite Ht in Ht'.
  inversion Hs'. inversion He'. inversion Ht'. subst.
  repeat split; assumption.
Qed.

Lemma simulate_scaling_accurate_witness :
  in_unit 0x1.999999999999ap-5 = true /\ (1 <= 100 <= 2 ^ 31 - 1)%Z /\
  (99 < Z.to_nat 100)%nat /\
  exists r, simulate_scaling 0x1.999999999999ap-5 100 = Ok r /\
    nth 99 (processors r) 0%Z = (1 + Z.of_nat 99)%Z /\
    approx (pow2 (-49))
      (Ideal.speedup (B2R 0x1.999999999999ap-5) (IZR (1 + Z.of_nat 99)))
      (B2R (nth 99 (speedups r) 0%float)) /\
    approx (pow2 (-49))
      (Ideal.efficiency (B2R 0x1.999999999999ap-5) (IZR (1 + Z.of_nat 99)))
      (B2R (nth 99 (efficiencies r) 0%float)) /\
    approx (pow2 (-49))
      (Ideal.time_ratio (B2R 0x1.999999999999ap-5) (IZR (1 + Z.of_nat 99)))
      (B2R (nth 99 (time_ratios r) 0%float)).
Proof.
  split; [reflexivity|]. split; [lia|].
  assert (H : (99 < Z.to_nat 100)%nat) by (apply Nat.ltb_lt; reflexivity).
  split; [exact H|].
  exact (simulate_scaling_accurate 0x1.999999999999ap-5 100 99 eq_refl ltac:(lia) H).
Defined.

End AmdahlProperties.

(** * Further properties of [utils.py] and [cli.py] *)

Section CliProperties.
Import Utils Cli Samples.
Local Open Scope string_scope.
Local Open Scope Z_scope.

(** [float_to_int] returns the integer a float holds, and nothing for a
    float that is not a whole number. *)
Lemma float_to_int_spec x :
  match float_to_int x with
  | Some z => finite x /\ B2R x = IZR z
  | None => ~ (finite x /\ exists z, B2R x = IZR z)
  end.
Proof.
  unfold float_to_int, finite, B2R.
  destruct (Prim2SF x) as [s|s| |s m e]; cbn [SF2R SFfinite].
  - split; reflexivity.
  - intros [H _]; discriminate.
  - intros [H _]; discriminate.
  - destruct (Z.leb_spec 0 e) as [He|He].
    + split; [reflexivity|]. rewrite pow2_IZR by lia.
      destruct s; cbn [cond_Zopp]; rewrite ?opp_IZR, mult_IZR; reflexivity.
    + assert (Hk : 0 <= - e) by lia.
      assert (H2 : 0 < 2 ^ (- e)) by (apply Z.pow_pos_nonneg; lia).
      assert (Hpe : pow2 e = (/ IZR (2 ^ (- e)))%R).
      { rewrite <- (pow2_neg_IZR (- e)) by lia. rewrite Z.opp_involutive.
        reflexivity. }
      assert (Hnz : IZR (2 ^ (- e)) <> 0%R) by (apply not_0_IZR; lia).
      destruct (Z.eqb_spec (Z.pos m mod 2 ^ (- e)) 0) as [Hm|Hm].
      * split; [reflexivity|].
        assert (Hd : Z.pos m = 2 ^ (- e) * (Z.pos m / 2 ^ (- e))).
        { apply Z.div_exact; [lia|assumption]. }
        assert (HR : (IZR (Z.pos m) * pow2 e = IZR (Z.pos m / 2 ^ (- e)))%R).
        { rewrite Hpe. rewrite Hd at 1. rewrite mult_IZR. field. assumption. }
        destruct s; cbn [cond_Zopp]; rewrite ?opp_IZR, HR; reflexivity.
      * intros [_ [z Hz]]. apply Hm.
        assert (HR : (IZR (Z.pos m) = IZR (Z.abs z * 2 ^ (- e)))%R).
        { rewrite mult_IZR, abs_IZR.
          assert (Hpos : (0 < IZR (Z.pos m) * pow2 e)%R).
          { apply Rmult_lt_0_compat; [apply IZR_lt; lia|apply pow2_pos]. }
          assert (Habs : (Rabs (IZR z) = IZR (Z.pos m) * pow2 e)%R).
          { destruct s.
            - rewrite <- Hz, Rabs_Ropp. apply Rabs_pos_eq. lra.
            - rewrite <- Hz. apply Rabs_pos_eq. lra. }
          rewrite Habs, Hpe. field. assumption. }
        apply eq_IZR in HR. rewrite HR. apply Z.mod_mul. lia.
Qed.

(** X11. [validate_processors] accepts a float exactly when it is finite and
    holds a whole number that is at least 1 (such as [4.0]); it rejects NaN,
    the infinities, every fraction and every float below 1. *)
Theorem validate_processors_float (x : float) :
  validate_processors (PyFloat x) = Utils.Ok tt <->
  finite x /\ exists z, 1 <= z /\ B2R x = IZR z.
Proof.
  cbn [validate_processors]. pose proof (float_to_int_spec x) as H.
  destruct (float_to_int x) as [z|].
  - destruct H as [Hf Hz]. destruct (Z.ltb_spec z 1) as [Hlt|Hge].
    + split; [discriminate|]. intros [_ [z' [Hz' E]]].
      rewrite Hz in E. apply eq_IZR in E. lia.
    + split; [|reflexivity]. intros _. split; [assumption|].
      exists z. split; assumption.
  - split; [discriminate|]. intros [Hf [z [_ E]]]. exfalso. apply H.
    split; [assumption|]. exists z. assumption.
Qed.

(** X12. The validators of [utils.py] and the guards of [amdahl.py] agree:
    for a float fraction and an integer count, [simulate_scaling] returns a
    table only if both validators pass, and for a count of at most
    [2^31 - 1] it returns one whenever both pass. *)
Theorem validated_inputs_run (f : float) (n : Z) :
  (Py.returns (simulate_scaling f n) = true ->
   validate_fraction (PyFloat f) = Utils.Ok tt /\
   validate_processors (PyInt n) = Utils.Ok tt) /\
  (n <= 2 ^ 31 - 1 ->
   validate_fraction (PyFloat f) = Utils.Ok tt ->
   validate_processors (PyInt n) = Utils.Ok tt ->
   Py.returns (simulate_scaling f n) = true).
Proof.
  cbn [validate_fraction validate_processors]. split.
  - unfold simulate_scaling.
    destruct (in_unit f); cbn [negb]; [|discriminate].
    destruct (n <? 1); [discriminate|]. intros _. split; reflexivity.
  - intros Hn Hf Hp.
    destruct (in_unit f) eqn:Hu; [|discriminate].
    destruct (Z.ltb_spec n 1) as [Hlt|Hge]; [discriminate|].
    destruct (simulate_scaling_cells f n Hu ltac:(lia)) as (r & Hr & _).
    rewrite Hr. reflexivity.
Qed.

Lemma validated_inputs_run_witness :
  100 <= 2 ^ 31 - 1 /\
  validate_fraction (PyFloat 0x1.999999999999ap-5) = Utils.Ok tt /\
  validate_processors (PyInt 100) = Utils.Ok tt /\
  Py.returns (simulate_scaling 0x1.999999999999ap-5 100) = true.
Proof.
  assert (H : 100 <= 2 ^ 31 - 1) by lia.
  split; [exact H|]. split; [reflexivity|]. split; [reflexivity|].
  exact (proj2 (validated_inputs_run 0x1.999999999999ap-5 100) H eq_refl eq_refl).
Defined.

(** X13. When [load_config] returns, what it returns is never [None] (an empty
    document is returned as the empty mapping) and it is the document of a
    file that exists: the given path, or [./config.yaml], or -- only when
    that one does not exist -- the [config.yaml] next to the scripts. *)
Theorem load_config_result (fs : files) (cp : option string) (c : yaml) :
  load_config fs cp = Utils.Ok c ->
  c <> YNull /\
  exists path,
    path_exists fs path = true /\
    (safe_load fs path = Utils.Ok c \/
     (safe_load fs path = Utils.Ok YNull /\ c = YMap [])) /\
    match cp with
    | Some p => path = p
    | None => path = cwd_config \/
              (path_exists fs cwd_config = false /\ path = root_config)
    end.
Proof.
  unfold load_config.
  set (path := match cp with
               | Some p => p
               | None => if path_exists fs cwd_config then cwd_config
                         else root_config
               end).
  intros H.
  destruct (path_exists fs path) eqn:Hex; cbn [negb] in H; [|discriminate].
  destruct (safe_load fs path) as [doc|e] eqn:Hsl; cbn [Utils.bind] in H;
    [|discriminate].
  assert (Hc : c = match doc with YNull => YMap [] | d => d end)
    by (inversion H; reflexivity).
  clear H. split; [subst c; destruct doc; discriminate|].
  exists path. split; [exact Hex|]. split.
  - rewrite Hsl. subst c.
    destruct doc; [right; split; reflexivity|left; reflexivity..].
  - subst path. destruct cp as [p|]; [reflexivity|].
    destruct (path_exists fs cwd_config); [left; reflexivity|].
    right. split; reflexivity.
Qed.

Lemma load_config_result_witness :
  load_config (one_file root_config YNull) None = Utils.Ok (YMap []) /\
  YMap [] <> YNull /\
  exists path,
    path_exists (one_file root_config YNull) path = true /\
    (safe_load (one_file root_config YNull) path = Utils.Ok (YMap []) \/
     (safe_load (one_file root_config YNull) path = Utils.Ok YNull /\
      YMap [] = YMap [])) /\
    (path = cwd_config \/
     (path_exists (one_file root_config YNull) cwd_config = false /\
      path = root_config)).
Proof.
  split; [reflexivity|].
  exact (load_config_result (one_file root_config YNull) None (YMap []) eq_refl).
Defined.

(** X14. The precedence of the three sources of a value.  Once the configuration
    is loaded: values given on the command line are returned whatever the
    document holds (with all three given it is not even consulted, so it
    need not be a mapping); a value missing from the command line is the
    document's; and one missing from both is the built-in default, 100
    processors and plots enabled. *)
Theorem config_precedence (w : world) (args : namespace) (c : yaml) :
  loaded_config w args = Utils.Ok c ->
  (forall f n,
     arg_fraction args = Some f -> arg_max_procs args = Some n ->
     arg_no_plots args = true ->
     get_config_values w args = Utils.Ok (PyFloat f, PyInt n, PyBool false)) /\
  (forall d v,
     c = YMap d ->
     (arg_fraction args = None -> assoc "fraction" d = Some v /\ v <> PyNone) ->
     (forall f, arg_fraction args = Some f -> v = PyFloat f) ->
     get_config_values w args =
       Utils.Ok (v,
                 match arg_max_procs args with
                 | Some n => PyInt n
                 | None => match assoc "max_procs" d with
                           | Some x => x
                           | None => PyInt 100
                           end
                 end,
                 if arg_no_plots args then PyBool false
                 else match assoc "generate_plots" d with
                      | Some x => x
                      | None => PyBool true
                      end)).
Proof.
  intros Hl. unfold get_config_values. rewrite Hl. cbn [Utils.bind].
  split.
  - intros f n -> -> ->. reflexivity.
  - intros d v -> Hcfg Hcli. cbn [dict_get Utils.bind].
    destruct (arg_fraction args) as [f|].
    + rewrite (Hcli f eq_refl). cbn [Utils.bind].
      destruct (arg_max_procs args), (arg_no_plots args); reflexivity.
    + destruct (Hcfg eq_refl) as [Hv Hne]. rewrite Hv. cbn [Utils.bind].
      destruct v; [contradiction|..];
        destruct (arg_max_procs args), (arg_no_plots args); reflexivity.
Qed.

Lemma config_precedence_witness :
  loaded_config (config_world "run.yaml" (YMap [("fraction", PyFloat 0.5)]))
    (config_args "run.yaml") = Utils.Ok (YMap [("fraction", PyFloat 0.5)]) /\
  get_config_values (config_world "run.yaml" (YMap [("fraction", PyFloat 0.5)]))
    (config_args "run.yaml") = Utils.Ok (PyFloat 0.5, PyInt 100, PyBool true) /\
  loaded_config quiet_world (full_args 0.25 8) = Utils.Ok (YMap []) /\
  get_config_values quiet_world (full_args 0.25 8)
    = Utils.Ok (PyFloat 0.25, PyInt 8, PyBool false).
Proof.
  split; [reflexivity|].
  split.
  - apply (proj2 (config_precedence
        (config_world "run.yaml" (YMap [("fraction", PyFloat 0.5)]))
        (config_args "run.yaml") (YMap [("fraction", PyFloat 0.5)]) eq_refl)
        [("fraction", PyFloat 0.5)] (PyFloat 0.5) eq_refl).
    + intros _. split; [reflexivity|discriminate].
    + intros f Hf. discriminate Hf.
  - split; [reflexivity|].
    exact (proj1 (config_precedence quiet_world (full_args 0.25 8) _ eq_refl)
             0.25%float 8 eq_refl eq_refl eq_refl).
Defined.

Lemma load_config_raise fs cp e :
  load_config fs cp = Utils.Raise e ->
  e = FileNotFoundError \/ exists p, safe_load fs p = Utils.Raise e.
Proof.
  unfold load_config.
  set (path := match cp with Some p => p | None => _ end).
  destruct (path_exists fs path); cbn [negb].
  - destruct (safe_load fs path) as [doc|e'] eqn:Hsl; cbn [Utils.bind];
      [discriminate|].
    intros H. inversion H. subst e'. right. exists path. exact Hsl.
  - intros H. inversion H. left. reflexivity.
Qed.

Lemma loaded_config_raise w args e :
  loaded_config w args = Utils.Raise e ->
  (e = SystemExit 1 /\ explicit_config args = true /\
   exists e', load_config (fs w) (arg_config args) = Utils.Raise e' /\
              is_Exception e' = true) \/
  exists p, safe_load (fs w) p = Utils.Raise e.
Proof.
  unfold loaded_config. destruct (explicit_config args).
  - destruct (load_config (fs w) (arg_config args)) as [c|e'] eqn:Hl;
      [discriminate|].
    destruct (is_Exception e') eqn:He; intros H; inversion H; subst.
    + left. split; [reflexivity|]. split; [reflexivity|]. exists e'. split; [reflexivity|assumption].
    + right. destruct (load_config_raise _ _ _ Hl) as [->|Hp];
        [discriminate|assumption].
  - destruct (load_config (fs w) None) as [c|e'] eqn:Hl; [discriminate|].
    intros H. destruct (load_config_raise _ _ _ Hl) as [->|Hp]; [discriminate|].
    right. destruct e'; inversion H; subst; assumption.
Qed.

(** The ways the body of [main] raises. *)
Lemma main_body_raise w args e :
  main_body w args = Utils.Raise e ->
  (e = SystemExit 1 /\ explicit_config args = true /\
   exists e', load_config (fs w) (arg_config args) = Utils.Raise e' /\
              is_Exception e' = true) \/
  (exists p, safe_load (fs w) p = Utils.Raise e) \/
  (e = SystemExit 2 /\ arg_fraction args = None /\
   exists d, loaded_config w args = Utils.Ok (YMap d) /\
             (assoc "fraction" d = None \/ assoc "fraction" d = Some PyNone)) \/
  e = OtherException \/ e = ValueError \/
  exists a b c, analysis w a b c = Some e.
Proof.
  unfold main_body, get_config_values.
  destruct (loaded_config w args) as [c|e'] eqn:Hl; cbn [Utils.bind].
  2:{ intros H. inversion H. subst e'.
      destruct (loaded_config_raise _ _ _ Hl) as [H1|H1]; [left|right; left];
        exact H1. }
  assert (Htail : forall fraction r,
    r = Utils.bind
          (match arg_max_procs args with
           | Some n => Utils.Ok (PyInt n)
           | None => dict_get c "max_procs" (PyInt 100)
           end)
          (fun max_procs =>
           Utils.bind
             (if arg_no_plots args then Utils.Ok (PyBool false)
              else dict_get c "generate_plots" (PyBool true))
             (fun generate_plots =>
              Utils.Ok (fraction, max_procs, generate_plots))) ->
    Utils.bind r
      (fun '(fraction, max_procs, generate_plots) =>
       Utils.bind (validate_fraction fraction) (fun _ =>
       Utils.bind (validate_processors max_procs) (fun _ =>
       match analysis w fraction max_procs generate_plots with
       | Some e0 => Utils.Raise e0
       | None => Utils.Ok tt
       end))) = Utils.Raise e ->
    e = OtherException \/ e = ValueError \/
    exists a b c0, analysis w a b c0 = Some e).
  { intros fraction r -> H.
    assert (Hget : forall key d v, dict_get c key d = Utils.Raise v -> v = OtherException).
    { intros key d v. unfold dict_get. destruct c; intros Hd; inversion Hd; reflexivity. }
    destruct (match arg_max_procs args with
              | Some n => Utils.Ok (PyInt n)
              | None => dict_get c "max_procs" (PyInt 100)
              end) as [mp|e1] eqn:Hmp; cbn [Utils.bind] in H.
    2:{ inversion H. subst e1. left.
        destruct (arg_max_procs args); [discriminate|]. eapply Hget; eassumption. }
    destruct (if arg_no_plots args then Utils.Ok (PyBool false)
              else dict_get c "generate_plots" (PyBool true)) as [gp|e1] eqn:Hgp;
      cbn [Utils.bind] in H.
    2:{ inversion H. subst e1. left.
        destruct (arg_no_plots args); [discriminate|]. eapply Hget; eassumption. }
    destruct (validate_fraction fraction) as [[]|e1] eqn:Hvf; cbn [Utils.bind] in H.
    2:{ inversion H. subst e1. right. left. eapply validate_fraction_exn; eassumption. }
    destruct (validate_processors mp) as [[]|e1] eqn:Hvp; cbn [Utils.bind] in H.
    2:{ inversion H. subst e1. right. left. eapply validate_processors_exn; eassumption. }
    destruct (analysis w fraction mp gp) as [e1|] eqn:Han; [|discriminate].
    inversion H. subst e1. right. right. exists fraction, mp, gp. exact Han. }
  destruct (arg_fraction args) as [f|] eqn:Hfr; cbn [Utils.bind].
  - intros H. right. right. right. eapply Htail; [reflexivity|exact H].
  - unfold dict_get at 1. destruct c as [|d|]; cbn [Utils.bind].
    + intros H. inversion H. right. right. right. left. reflexivity.
    + destruct (assoc "fraction" d) as [v|] eqn:Hv.
      * destruct v; unfold parser_error; cbn [Utils.bind];
          try (intros H; right; right; right; eapply Htail; [reflexivity|exact H]).
        intros H. inversion H. right. right. left.
        split; [reflexivity|]. split; [reflexivity|].
        exists d. split; [reflexivity|]. right. exact Hv.
      * unfold parser_error. cbn [Utils.bind]. intros H. inversion H. right. right. left.
        split; [reflexivity|]. split; [reflexivity|].
        exists d. split; [reflexivity|]. left. exact Hv.
    + intros H. inversion H. right. right. right. left. reflexivity.
Qed.

(** X15. The exit status of the program is 0, 1, 2 or 130, provided nothing it
    runs (reading the YAML file, the analysis) itself raises [SystemExit];
    and it is 2 only when the fraction is given neither on the command line
    nor in the loaded configuration. *)
Theorem main_exit_code_range (w : world) (args : namespace) :
  (forall p k, safe_load (fs w) p <> Utils.Raise (SystemExit k)) ->
  (forall a b c k, analysis w a b c <> Some (SystemExit k)) ->
  (main w args = 0 \/ main w args = 1 \/ main w args = 2 \/ main w args = 130) /\
  (main w args = 2 ->
   arg_fraction args = None /\
   exists d, loaded_config w args = Utils.Ok (YMap d) /\
             (assoc "fraction" d = None \/ assoc "fraction" d = Some PyNone)).
Proof.
  intros Hsl Han. unfold main.
  destruct (main_body w args) as [[]|e] eqn:Hb.
  - split; [left; reflexivity|discriminate].
  - destruct e as [| | | |k];
      try (split; [right; left; reflexivity|discriminate]);
      try (split; [right; right; right; reflexivity|discriminate]).
    destruct (main_body_raise _ _ _ Hb)
      as [(E & _)|[[p Hp]|[(E & Hfr & Hd)|[E|[E|(a & b & c & Ha)]]]]];
      try discriminate.
    + inversion E. split; [right; left; reflexivity|discriminate].
    + exfalso. exact (Hsl _ _ Hp).
    + inversion E. split; [right; right; left; reflexivity|].
      intros _. split; assumption.
    + exfalso. exact (Han _ _ _ _ Ha).
Qed.

Lemma main_exit_code_range_witness :
  (forall p k, safe_load (fs quiet_world) p <> Utils.Raise (SystemExit k)) /\
  (forall a b c k, analysis quiet_world a b c <> Some (SystemExit k)) /\
  (main quiet_world bare_args = 0 \/ main quiet_world bare_args = 1 \/
   main quiet_world bare_args = 2 \/ main quiet_world bare_args = 130) /\
  (main quiet_world bare_args = 2 ->
   arg_fraction bare_args = None /\
   exists d, loaded_config quiet_world bare_args = Utils.Ok (YMap d) /\
             (assoc "fraction" d = None \/ assoc "fraction" d = Some PyNone)).
Proof.
  assert (H1 : forall p k, safe_load (fs quiet_world) p <> Utils.Raise (SystemExit k))
    by (intros p k; discriminate).
  assert (H2 : forall a b c k, analysis quiet_world a b c <> Some (SystemExit k))
    by (intros a b c k; discriminate).
  split; [exact H1|]. split; [exact H2|].
  exact (main_exit_code_range quiet_world bare_args H1 H2).
Defined.

(** X16. The program never reports success on input it did not validate: under
    the same proviso, exit status 0 means that the configuration values were
    obtained, that both validators accepted them and that the analysis ran
    on exactly those values and completed. *)
Theorem main_success_validated (w : world) (args : namespace) :
  (forall p k, safe_load (fs w) p <> Utils.Raise (SystemExit k)) ->
  (forall a b c k, analysis w a b c <> Some (SystemExit k)) ->
  main w args = 0 ->
  exists f n g,
    get_config_values w args = Utils.Ok (f, n, g) /\
    validate_fraction f = Utils.Ok tt /\
    validate_processors n = Utils.Ok tt /\
    analysis w f n g = None.
Proof.
  intros Hsl Han. unfold main.
  destruct (main_body w args) as [[]|e] eqn:Hb.
  - intros _. unfold main_body in Hb.
    destruct (get_config_values w args) as [[[f n] g]|e]; [|discriminate].
    cbn [Utils.bind] in Hb.
    destruct (validate_fraction f) as [[]|e] eqn:Hvf; [|discriminate].
    cbn [Utils.bind] in Hb.
    destruct (validate_processors n) as [[]|e] eqn:Hvp; [|discriminate].
    cbn [Utils.bind] in Hb.
    destruct (analysis w f n g) as [e|] eqn:Ha; [discriminate|].
    exists f, n, g. split; [reflexivity|]. split; [exact Hvf|].
    split; [exact Hvp|exact Ha].
  - destruct e as [| | | |k]; try discriminate. intros ->.
    exfalso.
    destruct (main_body_raise _ _ _ Hb)
      as [(E & _)|[[p Hp]|[(E & _)|[E|[E|(a & b & c & Ha)]]]]];
      try discriminate.
    + exact (Hsl _ _ Hp).
    + exact (Han _ _ _ _ Ha).
Qed.

Lemma main_success_validated_witness :
  (forall p k, safe_load (fs quiet_world) p <> Utils.Raise (SystemExit k)) /\
  (forall a b c k, analysis quiet_world a b c <> Some (SystemExit k)) /\
  main quiet_world (full_args 0.25 8) = 0 /\
  exists f n g,
    get_config_values quiet_world (full_args 0.25 8) = Utils.Ok (f, n, g) /\
    validate_fraction f = Utils.Ok tt /\
    validate_processors n = Utils.Ok tt /\
    analysis quiet_world f n g = None.
Proof.
  assert (H1 : forall p k, safe_load (fs quiet_world) p <> Utils.Raise (SystemExit k))
    by (intros p k; discriminate).
  assert (H2 : forall a b c k, analysis quiet_world a b c <> Some (SystemExit k))
    by (intros a b c k; discriminate).
  split; [exact H1|]. split; [exact H2|]. split; [reflexivity|].
  exact (main_success_validated quiet_world (full_args 0.25 8) H1 H2 eq_refl).
Defined.

End CliProperties.

Section StrictGain.
Local Open Scope R_scope.

Lemma B2R_2m40 : B2R 0x1p-40 = pow2 (-40).
Proof.
  unfold B2R. change (Prim2SF 0x1p-40) with (S754_finite false (2 ^ 52) (-92)).
  cbn [SF2R]. change (Z.pos (2 ^ 52)) with (2 ^ 52)%Z.
  rewrite <- pow2_52, <- pow2_add. reflexivity.
Qed.

Lemma B2R_1m2m40 : B2R 0x1.fffffffffep-1 = 1 - pow2 (-40).
Proof.
  unfold B2R.
  change (Prim2SF 0x1.fffffffffep-1)
    with (S754_finite false (2 ^ 53 - 2 ^ 13) (-53)).
  cbn [SF2R]. change (Z.pos (2 ^ 53 - 2 ^ 13)) with (2 ^ 53 - 2 ^ 13)%Z.
  rewrite minus_IZR, <- pow2_53, <- (pow2_IZR 13) by lia.
  rewrite Rmult_minus_distr_r, <- !pow2_add. simpl Z.add.
  rewrite pow2_0. reflexivity.
Qed.

Lemma between_finite a b f :
  finite a -> finite b ->
  (a <=? f)%float = true -> (f <=? b)%float = true ->
  finite f /\ B2R a <= B2R f <= B2R b.
Proof.
  intros Ha Hb H0 H1.
  assert (Hf : finite f).
  { rewrite leb_spec in H0, H1. unfold finite in *.
    destruct (Prim2SF f) as [s|[]| |s m e]; try reflexivity.
    - destruct (Prim2SF a) as [s'|s'| |s' m' e']; discriminate.
    - destruct (Prim2SF b) as [s'|s'| |s' m' e']; discriminate.
    - destruct (Prim2SF a) as [s'|s'| |s' m' e']; discriminate. }
  split; [assumption|].
  split; [apply (leb_B2R _ _ Ha Hf)|apply (leb_B2R _ _ Hf Hb)]; assumption.
Qed.

(** X5. Away from the two ends of the unit interval a second processor
    strictly helps: for [2^-40 <= f <= 1 - 2^-40] and [2 <= p <= 2^969]
    the computed speedup is strictly above [1.0] (its value for one
    processor), and the efficiency and the time ratio are strictly below
    [1.0]. *)
Theorem more_processors_strictly_help (f : float) (p : Z) :
  (0x1p-40 <=? f)%float = true -> (f <=? 0x1.fffffffffep-1)%float = true ->
  (2 <= p <= 2 ^ 969)%Z ->
  exists s e r,
    calculate_speedup f p = Ok s /\
    calculate_efficiency f p = Ok e /\
    calculate_execution_time_ratio f p = Ok r /\
    (1 <? s)%float = true /\ (e <? 1)%float = true /\ (r <? 1)%float = true.
Proof.
  intros H0 H1 Hp.
  assert (Fa : finite 0x1p-40) by reflexivity.
  assert (Fb : finite 0x1.fffffffffep-1) by reflexivity.
  destruct (between_finite _ _ f Fa Fb H0 H1) as [Hf HF].
  rewrite B2R_2m40, B2R_1m2m40 in HF.
  pose proof (pow2_pos (-40)) as Ha. pose proof (pow2_pos (-49)) as Hc.
  assert (Hca : 512 * pow2 (-49) = pow2 (-40)).
  { replace 512 with (pow2 9) by (rewrite pow2_IZR by lia; simpl; lra).
    rewrite <- pow2_add. reflexivity. }
  assert (Ha1 : pow2 (-40) <= / 2).
  { rewrite <- pow2_m1. apply pow2_le. lia. }
  assert (Hu : in_unit f = true).
  { unfold in_unit. apply andb_true_iff. split.
    - apply (leb_B2R _ _ finite_0 Hf). rewrite B2R_0. lra.
    - apply (leb_B2R _ _ Hf finite_1). rewrite B2R_1. lra. }
  destruct (accuracy f p Hu ltac:(lia))
    as (s & e & r & Hs & He & Hr & Fs & Fe & Fr & _ & _ & _ & AS & AE & AR).
  exists s, e, r. repeat (split; [assumption|]).
  assert (HP : 2 <= IZR p) by (apply IZR_le; lia).
  apply approx_bounds in AS. apply approx_bounds in AE. apply approx_bounds in AR.
  set (a := pow2 (-40)) in *. set (c := pow2 (-49)) in *.
  set (F := B2R f) in *. set (P := IZR p) in *.
  assert (HiP : 0 < / P <= / 2).
  { split; [apply Rinv_0_lt_compat; lra|apply Rinv_le_contravar; lra]. }
  set (D := F + (1 - F) / P).
  assert (HD : 0 < D <= 1 - a / 2).
  { unfold D, Rdiv. split; [nra|]. nra. }
  assert (HS : Ideal.speedup F P = / D).
  { unfold Ideal.speedup. fold D. unfold Rdiv. ring. }
  assert (HT : Ideal.time_ratio F P = D).
  { unfold Ideal.time_ratio. rewrite HS. unfold Rdiv.
    rewrite Rmult_1_l, Rinv_inv. reflexivity. }
  assert (HE : Ideal.efficiency F P = / (F * P + (1 - F))).
  { apply ideal_efficiency_eq; lra. }
  assert (HiD : 0 < / D) by (apply Rinv_0_lt_compat; lra).
  assert (HDD : / D * D = 1) by (apply Rinv_l; lra).
  rewrite HS in AS. rewrite HT in AR. rewrite HE in AE.
  set (G := F * P + (1 - F)) in *.
  assert (HG : 1 + a <= G) by (unfold G; nra).
  assert (HiG : 0 < / G) by (apply Rinv_0_lt_compat; lra).
  assert (HGG : / G * G = 1) by (apply Rinv_l; lra).
  split; [|split].
  - apply (ltb_B2R _ _ finite_1 Fs). rewrite B2R_1.
    apply Rlt_le_trans with (/ D * (1 - c)); [|lra].
    nra.
  - apply (ltb_B2R _ _ Fe finite_1). rewrite B2R_1.
    apply Rle_lt_trans with (/ G * (1 + c)); [lra|].
    nra.
  - apply (ltb_B2R _ _ Fr finite_1). rewrite B2R_1.
    apply Rle_lt_trans with (D * (1 + c)); [lra|].
    nra.
Qed.

Lemma more_processors_strictly_help_witness :
  (0x1p-40 <=? 0x1.999999999999ap-5)%float = true /\
  (0x1.999999999999ap-5 <=? 0x1.fffffffffep-1)%float = true /\
  (2 <= 1000 <= 2 ^ 969)%Z /\
  exists s e r,
    calculate_speedup 0x1.999999999999ap-5 1000 = Ok s /\
    calculate_efficiency 0x1.999999999999ap-5 1000 = Ok e /\
    calculate_execution_time_ratio 0x1.999999999999ap-5 1000 = Ok r /\
    (1 <? s)%float = true /\ (e <? 1)%float = true /\ (r <? 1)%float = true.
Proof.
  assert (H : (2 <= 1000 <= 2 ^ 969)%Z).
  { split; [lia|]. apply Z.leb_le. reflexivity. }
  split; [reflexivity|]. split; [reflexivity|]. split; [exact H|].
  exact (more_processors_strictly_help 0x1.999999999999ap-5 1000 eq_refl eq_refl H).
Defined.

End StrictGain.

Section ExactCases.
Local Open Scope R_scope.

(** X17. A fully parallel program on a power-of-two number of processors
    is computed exactly: for [f = 0] and [p = 2^k], [0 <= k <= 1023], the
    speedup is exactly the float [p], the efficiency is exactly [1.0] and the
    time ratio is exactly [1 / p]. *)
Theorem fully_parallel_power_of_two (k : Z) :
  (0 <= k <= 1023)%Z ->
  exists x,
    float_of_int (2 ^ k) = Ok x /\ finite x /\ B2R x = pow2 k /\
    calculate_speedup 0 (2 ^ k) = Ok x /\
    calculate_efficiency 0 (2 ^ k) = Ok 1%float /\
    exists r, calculate_execution_time_ratio 0 (2 ^ k) = Ok r /\
              finite r /\ B2R r = pow2 (- k).
Proof.
  intros Hk.
  assert (Hp1 : (1 <= 2 ^ k)%Z) by (apply (Z.pow_le_mono_r 2 0 k); lia).
  assert (Hlt : (2 ^ k < 2 ^ 1024 - 2 ^ 970)%Z).
  { apply Z.le_lt_trans with (2 ^ 1023)%Z; [apply Z.pow_le_mono_r; lia|].
    apply Z.ltb_lt. reflexivity. }
  pose proof (proj2 (float_of_int_returns _ Hp1) Hlt) as Hr.
  destruct (float_of_int (2 ^ k)) as [x|e] eqn:Ex; [|discriminate].
  destruct (float_of_int_Rounds _ x Ex) as [Rx _].
  rewrite <- pow2_IZR in Rx by lia.
  destruct (Rounds_exact _ _ Rx (dyadic_pow2 k ltac:(lia))) as [Fx HX].
  pose proof (pow2_pos k) as Hpos. pose proof (pow2_pos (- k)) as Hneg.
  exists x. split; [reflexivity|]. split; [exact Fx|]. split; [exact HX|].
  (* the quotient 1 / x *)
  assert (Hq : finite (1 / x)%float /\ B2R (1 / x)%float = pow2 (- k)).
  { pose proof (div_Rounds 1 x finite_1 Fx ltac:(lra)) as Hq.
    rewrite B2R_1, HX in Hq. unfold Rdiv in Hq.
    rewrite Rmult_1_l, <- pow2_opp in Hq.
    exact (Rounds_exact _ _ Hq (dyadic_pow2 (- k) ltac:(lia))). }
  destruct Hq as [Fq HQ].
  (* the denominator 0 + 1 / x *)
  assert (Hd : (0 + 1 / x)%float = (1 / x)%float).
  { pose proof (add_Rounds 0 (1 / x)%float finite_0 Fq) as Hd.
    rewrite B2R_0, Rplus_0_l, HQ in Hd.
    destruct (Rounds_exact _ _ Hd (dyadic_pow2 (- k) ltac:(lia))) as [Fd HD].
    apply B2R_inj; try assumption; lra. }
  (* the speedup 1 / (1 / x) *)
  assert (Hs : (1 / (1 / x))%float = x).
  { pose proof (div_Rounds 1 (1 / x)%float finite_1 Fq ltac:(lra)) as Hs.
    rewrite B2R_1, HQ in Hs. unfold Rdiv in Hs.
    rewrite Rmult_1_l, pow2_opp, Rinv_inv in Hs.
    destruct (Rounds_exact _ _ Hs (dyadic_pow2 k ltac:(lia))) as [Fs HS].
    apply B2R_inj; try assumption; lra. }
  assert (Hcs : calculate_speedup 0 (2 ^ k) = Ok x).
  { rewrite (calculate_speedup_div 0 (2 ^ k) x eq_refl Hp1 eq_refl Ex).
    change (1 - 0)%float with 1%float. rewrite Hd, Hs. reflexivity. }
  split; [exact Hcs|]. split.
  - unfold calculate_efficiency. rewrite Hcs. cbn [bind].
    rewrite (truediv_int_Ok x (2 ^ k) x Ex Hp1). f_equal.
    pose proof (div_Rounds x x Fx Fx ltac:(lra)) as He.
    replace (B2R x / B2R x) with 1 in He by (field; lra).
    destruct (Rounds_exact _ _ He dyadic_1) as [Fe HE].
    apply B2R_inj; [assumption|exact finite_1|rewrite B2R_1; lra|lra].
  - exists (1 / x)%float. split; [|split; assumption].
    unfold calculate_execution_time_ratio. rewrite Hcs. cbn [bind].
    apply truediv_Ok; [assumption|lra].
Qed.

Lemma fully_parallel_power_of_two_witness :
  (0 <= 6 <= 1023)%Z /\
  exists x,
    float_of_int (2 ^ 6) = Ok x /\ finite x /\ B2R x = pow2 6 /\
    calculate_speedup 0 (2 ^ 6) = Ok x /\
    calculate_efficiency 0 (2 ^ 6) = Ok 1%float /\
    exists r, calculate_execution_time_ratio 0 (2 ^ 6) = Ok r /\
              finite r /\ B2R r = pow2 (- 6).
Proof.
  split; [lia|]. exact (fully_parallel_power_of_two 6 ltac:(lia)).
Defined.

End ExactCases.

Section DefaultConfig.
Import Utils Cli Samples.
Local Open Scope string_scope.
Local Open Scope Z_scope.

(** X18. What the guard [0 <= f <= 1] means on floats: [validate_fraction]
    accepts a float exactly when it is finite and its value lies in [0, 1]
    (so NaN and the infinities are rejected and [-0.0] is accepted), and
    [calculate_speedup] raises its fraction error on exactly the floats
    [validate_fraction] rejects. *)
Theorem fraction_guard_meaning (x : float) (p : Z) :
  (validate_fraction (PyFloat x) = Utils.Ok tt <->
   finite x /\ (0 <= B2R x <= 1)%R) /\
  (validate_fraction (PyFloat x) = Utils.Raise ValueError <->
   calculate_speedup x p = Py.Raise (Py.ValueError FractionOutOfRange)).
Proof.
  cbn [validate_fraction]. unfold calculate_speedup.
  destruct (in_unit x) eqn:Hu; cbn [negb].
  - split.
    + split; [intros _; apply in_unit_spec; assumption|reflexivity].
    + split; [discriminate|].
      destruct (p <? 1); [discriminate|].
      destruct (x =? 1)%float; [discriminate|].
      unfold truediv_int, truediv.
      destruct (float_of_int p) as [y|e] eqn:Ey; cbn [Py.bind].
      * destruct (y =? 0)%float; cbn [Py.bind]; [discriminate|].
        destruct (_ =? 0)%float; discriminate.
      * apply float_of_int_exn in Ey. subst e. discriminate.
  - split.
    + split; [discriminate|]. intros [Hf HF].
      rewrite (in_unit_intro x Hf HF) in Hu. discriminate.
    + split; reflexivity.
Qed.

(** X19. The default configuration file is optional but not ignored.
    Without [--config]: when no [config.yaml] is found the run goes on with
    an empty configuration; when one is found but reading it fails with any
    other [Exception] (a YAML syntax error, say), the program exits with
    status 1 -- even if every value was given on the command line. *)
Theorem default_config_handling (w : world) (args : namespace) :
  explicit_config args = false ->
  (load_config (fs w) None = Utils.Raise FileNotFoundError ->
   loaded_config w args = Utils.Ok (YMap [])) /\
  (forall e, load_config (fs w) None = Utils.Raise e ->
             e <> FileNotFoundError -> is_Exception e = true ->
             main w args = 1).
Proof.
  intros Hex. unfold main, main_body, get_config_values, loaded_config.
  rewrite Hex. split.
  - intros ->. reflexivity.
  - intros e -> Hne He. destruct e; try discriminate; try contradiction;
      reflexivity.
Qed.

Lemma default_config_handling_witness :
  explicit_config (full_args 0.25 8) = false /\
  load_config (fs quiet_world) None = Utils.Raise FileNotFoundError /\
  loaded_config quiet_world (full_args 0.25 8) = Utils.Ok (YMap []) /\
  load_config (Utils.Build_files (fun _ => true) (fun _ => Utils.Raise OtherException))
    None = Utils.Raise OtherException /\
  main (Build_world
          (Utils.Build_files (fun _ => true) (fun _ => Utils.Raise OtherException))
          (fun _ _ _ => None))
       (full_args 0.25 8) = 1.
Proof.
  split; [reflexivity|]. split; [reflexivity|].
  split.
  - exact (proj1 (default_config_handling quiet_world (full_args 0.25 8) eq_refl)
             eq_refl).
  - split; [reflexivity|].
    apply (proj2 (default_config_handling
             (Build_world
                (Utils.Build_files (fun _ => true)
                   (fun _ => Utils.Raise OtherException))
                (fun _ _ _ => None))
             (full_args 0.25 8) eq_refl) OtherException).
    + reflexivity.
    + discriminate.
    + reflexivity.
Defined.

End DefaultConfig.
